(** * deepqmc.sampling: Markov-chain sampling and blocked energy statistics

    A shallow embedding of [src/deepqmc/sampling.py]: the driving loop
    [sample_wf], the walker state machine [MetropolisSampler.step] shared
    by the Metropolis and Langevin samplers, the lazy sequences built on
    it ([iter_with_info], [iter_batches]) and the storage discipline of
    the tensors the sampler owns.

    Conventions.
    - Tensor entries are exact rationals ([Q]); the rounding of machine
      floats is not represented.  A standard deviation is kept as the
      square root of a rational ([surd]) and interpreted in [R].
    - Python integers are [Z]; the elements of an int64 tensor are [Z]
      wrapped to 64 bits.
    - Random draws are explicit arguments.
    - Exceptions are values of [exn]; stateful code lives in the
      state-and-exception monad [M].
    - The Tensorboard writer is write-only telemetry and is left out. *)

From Stdlib Require Import ZArith QArith Qminmax Qround Qreals Reals Lra Lia List
  Bool.
From stdpp Require Import base option list gmap strings pretty.

Set Warnings "-clear-no-such-hyp".

Local Close Scope R_scope.
Local Close Scope Q_scope.
Local Open Scope nat_scope.

(** ** Rational arithmetic helpers *)

(** [x < y] on tensor entries. *)
Definition Qltb (x y : Q) : bool := negb (Qle_bool y x).

(** [x >= y]. *)
Definition Qgeb (x y : Q) : bool := Qle_bool y x.

(** Python's builtin [max(a, b)]: the first argument unless the second
    is strictly larger. *)
Definition py_max (a b : Q) : Q := if Qltb a b then b else a.

(** Python truthiness of a float: everything but zero. *)
Definition Qtruthy (x : Q) : bool := negb (Qeq_bool x 0).

Definition Qsum (xs : list Q) : Q := fold_right Qplus 0%Q xs.

Definition Qlen {A} (xs : list A) : Q := inject_Z (Z.of_nat (length xs)).

(** [x.mean()] of a one-dimensional tensor. *)
Definition mean (xs : list Q) : Q := (Qsum xs / Qlen xs)%Q.

(** Sum of squared deviations from the mean. *)
Definition sq_dev (xs : list Q) : Q :=
  Qsum (map (fun x => ((x - mean xs) * (x - mean xs))%Q) xs).

(** Variance with [ddof] delta degrees of freedom. *)
Definition variance (ddof : nat) (xs : list Q) : Q :=
  (sq_dev xs / inject_Z (Z.of_nat (length xs) - Z.of_nat ddof))%Q.

(** The square root of a rational, kept symbolically. *)
Record surd : Type := Sqrt { radicand : Q }.

Definition surd_R (s : surd) : R := sqrt (Q2R (radicand s)).

(** A standard deviation; [None] is the NaN that both libraries return
    when fewer than [ddof + 1] values are given. *)
Definition std (ddof : nat) (xs : list Q) : option surd :=
  if ddof <? length xs then Some (Sqrt (variance ddof xs)) else None.

(** [torch.Tensor.std()]: Bessel-corrected. *)
Definition torch_std : list Q -> option surd := std 1.

(** [numpy.ndarray.std()]: population standard deviation. *)
Definition np_std : list Q -> option surd := std 0.

(** [a < b] on floats that may be NaN: false as soon as one is NaN. *)
Definition float_lt (a b : option surd) : bool :=
  match a, b with
  | Some x, Some y => Qltb (radicand x) (radicand y)
  | _, _ => false
  end.

(** [s / np.sqrt(n)]. *)
Definition div_sqrt (s : option surd) (n : Q) : option surd :=
  match s with
  | Some x => Some (Sqrt (radicand x / n)%Q)
  | None => None
  end.

(** The real-number reading of [a < b] for two possibly-NaN deviations. *)
Definition std_lt_R (a b : option surd) : Prop :=
  exists x y, a = Some x /\ b = Some y /\ (surd_R x < surd_R y)%R.

(** Numerical equality of two possibly-NaN deviations. *)
Definition std_eq (a b : option surd) : Prop :=
  match a, b with
  | Some x, Some y => (radicand x == radicand y)%Q
  | None, None => True
  | _, _ => False
  end.

(** ** Shapes shared by both halves of the module *)

(** One walker: the [N x 3] electron coordinates, row-major. *)
Definition walker : Type := list Q.

(** A batch of walkers, a tensor of shape [(W, N, 3)]. *)
Definition positions : Type := list walker.

(** The [info] dictionary of [torchext.LUFactError]: the indices of the
    walkers whose factorisation failed and, once [qforce] has handled
    the error, their positions. *)
Record lu_info : Type := LuInfo {
  idxs : list nat;
  info_rs : option positions;
}.

Inductive exn : Type :=
| UnboundLocalError
| IndexError
| ZeroDivisionError
| AttributeError
| ValueError
| LUFactError (info : lu_info).

(** ** [sample_wf]: equilibration detection and blocked energy *)

(** [uncertainties.ufloat]: a nominal value with a standard deviation. *)
Record ufloat : Type := UFloat {
  nominal_value : Q;
  std_dev : option surd;
}.

(** One committed block: a [unp.uarray] with one entry per walker. *)
Definition block : Type := list ufloat.

(** What [sample_wf] yields: [(step, energy, rs)]. *)
Record wf_yield : Type := Yield {
  y_step : Z;
  y_energy : option ufloat;
  y_rs : option (list positions);
}.

(** The local variables of the generator that survive an iteration.
    [dist_means] is [None] until the loop has seen [step == 0]. *)
Record wf_state : Type := WfState {
  blocks : list block;
  calculating_energy : bool;
  buffer : list (list Q);
  buffer_rs : list positions;
  dist_means : option (list Q);
}.

(** [x[-n:]] for [n >= 1]. *)
Definition lastn {A} (n : nat) (xs : list A) : list A :=
  drop (length xs - n) xs.

(** Entry [j] of every row of a stack, for the rows that have one. *)
Definition column {A} (j : nat) (rows : list (list A)) : list A :=
  omap (fun r => r !! j) rows.

(** The stack of [w]-wide rows read along its second axis: reductions
    over [dim=0] work on these lists, and [np.stack(rows, -1)] and
    [torch.stack(rows, dim=1)] are this array. *)
Definition cols {A} (w : nat) (rows : list (list A)) : list (list A) :=
  map (fun j => column j rows) (seq 0 w).

Definition columns {A} (rows : list (list A)) : list (list A) :=
  cols (length (hd [] rows)) rows.

(** [unp.uarray(buffer.mean(dim=0), buffer.std(dim=0) / np.sqrt(len(buffer)))]
    for the stacked buffer. *)
Definition make_block (buf : list (list Q)) : block :=
  map (fun col => UFloat (mean col) (div_sqrt (torch_std col) (Qlen buf)))
      (columns buf).

(** [unp.nominal_values(np.stack(blocks, -1))], of shape
    [(walkers, blocks)]. *)
Definition blocks_arr (bl : list block) : list (list Q) :=
  columns (map (map nominal_value) bl).

(** Lines 69-71:
    [err = blocks_arr.mean(-1).std() / np.sqrt(len(blocks_arr))],
    [energy = ufloat(blocks_arr.mean(), err)]. *)
Definition energy_estimate (bl : list block) : ufloat :=
  let arr := blocks_arr bl in
  let err := div_sqrt (np_std (map mean arr)) (Qlen arr) in
  UFloat (mean (concat arr)) err.

(** [dist_means[:-1] = dist_means[1:].clone(); dist_means[-1] = d];
    the second assignment fails on an empty window. *)
Definition push_window (w : list Q) (d : Q) : exn + list Q :=
  match w with
  | [] => inl IndexError
  | _ :: tl => inr (tl ++ [d])
  end.

Section SampleWf.

(** [physics.pairwise_self_distance] and the first component of
    [physics.local_energy(rs, wf)], for the wave function at hand. *)
Variable pairwise_self_distance : positions -> list (list Q).
Variable local_energy : positions -> list Q.
Variable block_size : nat.

(** The condition of lines 52-53 on the window after the push. *)
Definition equilibrated (w : list Q) : bool :=
  Qltb 0 (hd 0%Q w)
  && float_lt (torch_std (take block_size w))
              (torch_std (lastn block_size w)).

(** Lines 56-73, entered with [calculating_energy] set. *)
Definition accumulate (st : wf_state) (step : Z) (rs : positions)
    : wf_state * list wf_yield :=
  let Es_loc := local_energy rs in
  let buffer1 := buffer st ++ [Es_loc] in
  let buffer_rs1 := buffer_rs st ++ [rs] in
  let full := length buffer1 =? block_size in
  let blocks1 := if full then blocks st ++ [make_block buffer1]
                 else blocks st in
  let buffer2 := if full then [] else buffer1 in
  match buffer2 with
  | [] =>
      (WfState blocks1 true buffer2 [] (dist_means st),
       [Yield step (Some (energy_estimate blocks1)) (Some buffer_rs1)])
  | _ :: _ =>
      (WfState blocks1 true buffer2 buffer_rs1 (dist_means st), [])
  end.

(** One turn of the loop of line 47 on the pair [(step, rs)] drawn
    from [zip(steps, sampler)]. *)
Definition sample_wf_iter (st : wf_state) (step : Z) (rs : positions)
    : exn + (wf_state * list wf_yield) :=
  let bound := if (step =? 0)%Z then Some (repeat 0%Q (5 * block_size))
               else dist_means st in
  match bound with
  | None => inl UnboundLocalError
  | Some w0 =>
      match push_window w0 (mean (concat (pairwise_self_distance rs))) with
      | inl e => inl e
      | inr w =>
          let declared :=
            negb (calculating_energy st) && equilibrated w in
          let st1 := WfState (blocks st)
                       (calculating_energy st || declared)
                       (buffer st) (buffer_rs st) (Some w) in
          let ys1 := if declared then [Yield step None None] else [] in
          if calculating_energy st1 then
            let '(st2, ys2) := accumulate st1 step rs in
            inr (st2, ys1 ++ ys2)
          else inr (st1, ys1)
      end
  end.

(** The generator driven over a finite prefix of its input: what it
    yielded, and the state it stopped in or the exception that ended
    it. *)
Fixpoint sample_wf_run (st : wf_state) (ins : list (Z * positions))
    : list wf_yield * (exn + wf_state) :=
  match ins with
  | [] => ([], inr st)
  | (step, rs) :: rest =>
      match sample_wf_iter st step rs with
      | inl e => ([], inl e)
      | inr (st', ys) =>
          let '(ys', r) := sample_wf_run st' rest in (ys ++ ys', r)
      end
  end.

(** The state [sample_wf] starts from (lines 43-46). *)
Definition sample_wf_init (blocks0 : option (list block))
    (equilibrate : bool) : wf_state :=
  WfState (default [] blocks0) (negb equilibrate) [] [] None.

(** The yield of line 55, which signals the transition. *)
Definition is_transition (y : wf_yield) : bool :=
  match y_energy y, y_rs y with
  | None, None => true
  | _, _ => false
  end.

End SampleWf.

(** The window is bound and not empty, so that pushing cannot fail. *)
Definition window_ok (st : wf_state) : Prop :=
  exists w, dist_means st = Some w /\ w <> [].

(** The first turn of a run can push onto the window: either it binds
    it ([step == 0]) or the window is already usable. *)
Definition starts_ok (st : wf_state) (ins : list (Z * positions)) : Prop :=
  match ins with
  | [] => True
  | (step, _) :: _ => step = 0%Z \/ window_ok st
  end.

(** ** The criterion and the estimate as the specification words them *)

(** Equilibrium test with the newest segment required to be the
    narrower one. *)
Definition spec_equilibrated (block_size : nat) (w : list Q) : bool :=
  Qltb 0 (hd 0%Q w)
  && float_lt (torch_std (lastn block_size w))
              (torch_std (take block_size w)).

(** The mean of one block over its walkers. *)
Definition block_mean (b : block) : Q := mean (map nominal_value b).

(** Error bar worded as "standard deviation of the block means over the
    square root of the block count", for either normalisation of the
    standard deviation. *)
Definition spec_std_dev (ddof : nat) (bl : list block) : option surd :=
  div_sqrt (std ddof (map block_mean bl)) (Qlen bl).

(** ** The sampler: state, externals and the monad *)

(** The class of the instance: [MetropolisSampler] itself or its
    subclass [LangevinSampler], which overrides [proposal],
    [acceptance_prob], [extra_vars] and [recompute_psi]. *)
Inductive variant : Type := Metropolis | Langevin.

(** The attributes of a sampler instance.  [forces] exists on Langevin
    instances only and is left empty otherwise. *)
Record sampler : Type := Sampler {
  kind : variant;
  rs : positions;
  tau : Q;
  max_age : option Z;
  n_first_certain : Z;
  log_psi_threshold : option Q;
  target_acceptance : option Q;
  n_discard : Z;
  n_decorrelate : Z;
  log_psis : list Q;
  sign_psis : list Q;
  forces : positions;
  _ages : list Z;
  _step : Z;
  _totalstep : Z;
}.

(** The random numbers one step consumes: [torch.randn_like(self.rs)]
    and [torch.rand_like(Ps_acc)]. *)
Record draws : Type := Draws {
  randn : positions;
  rand : list Q;
}.

(** The [info] dictionary returned by [step]. *)
Record step_info : Type := StepInfo {
  acceptance : Q;
  age : list Z;
  info_tau : Q;
}.

(** What [step] returns. *)
Record sample : Type := Sample {
  sample_rs : positions;
  sample_log_psis : list Q;
  sample_sign_psis : list Q;
  sample_info : step_info;
}.

(** An int64 tensor element after an arithmetic operation. *)
Definition wrap64 (z : Z) : Z :=
  ((z + 2 ^ 63) mod 2 ^ 64 - 2 ^ 63)%Z.

(** Stateful code of the sampler: it reads and writes the instance and
    either returns or raises. *)
Definition M (A : Type) : Type := sampler -> (exn + A) * sampler.

#[global] Instance M_ret : MRet M := fun A a s => (inr a, s).

#[global] Instance M_bind : MBind M := fun A B f m s =>
  match m s with
  | (inr a, s') => f a s'
  | (inl e, s') => (inl e, s')
  end.

Definition get : M sampler := fun s => (inr s, s).

Definition modify (f : sampler -> sampler) : M unit := fun s => (inr tt, f s).

Definition raise {A} (e : exn) : M A := fun s => (inl e, s).

(** A pure computation that may raise. *)
Definition lift {A} (r : exn + A) : M A := fun s => (r, s).

(** Attribute assignment. *)
Definition set_rs (v : positions) (s : sampler) : sampler :=
  Sampler (kind s) v (tau s) (max_age s) (n_first_certain s)
    (log_psi_threshold s) (target_acceptance s) (n_discard s)
    (n_decorrelate s) (log_psis s) (sign_psis s) (forces s) (_ages s)
    (_step s) (_totalstep s).

Definition set_tau (v : Q) (s : sampler) : sampler :=
  Sampler (kind s) (rs s) v (max_age s) (n_first_certain s)
    (log_psi_threshold s) (target_acceptance s) (n_discard s)
    (n_decorrelate s) (log_psis s) (sign_psis s) (forces s) (_ages s)
    (_step s) (_totalstep s).

Definition set_log_psis (v : list Q) (s : sampler) : sampler :=
  Sampler (kind s) (rs s) (tau s) (max_age s) (n_first_certain s)
    (log_psi_threshold s) (target_acceptance s) (n_discard s)
    (n_decorrelate s) v (sign_psis s) (forces s) (_ages s)
    (_step s) (_totalstep s).

Definition set_sign_psis (v : list Q) (s : sampler) : sampler :=
  Sampler (kind s) (rs s) (tau s) (max_age s) (n_first_certain s)
    (log_psi_threshold s) (target_acceptance s) (n_discard s)
    (n_decorrelate s) (log_psis s) v (forces s) (_ages s)
    (_step s) (_totalstep s).

Definition set_forces (v : positions) (s : sampler) : sampler :=
  Sampler (kind s) (rs s) (tau s) (max_age s) (n_first_certain s)
    (log_psi_threshold s) (target_acceptance s) (n_discard s)
    (n_decorrelate s) (log_psis s) (sign_psis s) v (_ages s)
    (_step s) (_totalstep s).

Definition set_ages (v : list Z) (s : sampler) : sampler :=
  Sampler (kind s) (rs s) (tau s) (max_age s) (n_first_certain s)
    (log_psi_threshold s) (target_acceptance s) (n_discard s)
    (n_decorrelate s) (log_psis s) (sign_psis s) (forces s) v
    (_step s) (_totalstep s).

Definition set_step (v : Z) (s : sampler) : sampler :=
  Sampler (kind s) (rs s) (tau s) (max_age s) (n_first_certain s)
    (log_psi_threshold s) (target_acceptance s) (n_discard s)
    (n_decorrelate s) (log_psis s) (sign_psis s) (forces s) (_ages s)
    v (_totalstep s).

Definition set_totalstep (v : Z) (s : sampler) : sampler :=
  Sampler (kind s) (rs s) (tau s) (max_age s) (n_first_certain s)
    (log_psi_threshold s) (target_acceptance s) (n_discard s)
    (n_decorrelate s) (log_psis s) (sign_psis s) (forces s) (_ages s)
    (_step s) v.

(** ** Tensor operations used by [step] *)

Fixpoint zip_with3 {A B C D} (f : A -> B -> C -> D)
    (xs : list A) (ys : list B) (zs : list C) : list D :=
  match xs, ys, zs with
  | x :: xs', y :: ys', z :: zs' => f x y z :: zip_with3 f xs' ys' zs'
  | _, _, _ => []
  end.

(** Elementwise operation on two [(W, N, 3)] tensors. *)
Definition pos_map2 (f : Q -> Q -> Q) (a b : positions) : positions :=
  zip_with (zip_with f) a b.

(** [x[mask] = v]; the mask must have the shape of [x]. *)
Definition mask_set {A} (x : list A) (mask : list bool) (v : A)
    : exn + list A :=
  if length x =? length mask
  then inr (zip_with (fun a (m : bool) => if m then v else a) x mask)
  else inl IndexError.

(** [x[mask] += 1] on an int64 tensor. *)
Definition mask_incr (x : list Z) (mask : list bool) : exn + list Z :=
  if length x =? length mask
  then inr (zip_with (fun a (m : bool) => if m then wrap64 (a + 1) else a)
              x mask)
  else inl IndexError.

(** Modelled from the spec: [torchext.assign_where] is not among the
    sources.  Section 4.3, step 8: "Commit accepted fields (positions,
    log-amplitude, sign, forces) into WalkerState in place; rejected
    walkers retain previous values", that is [x[where] = y[where]] for
    each pair of the two tuples.  This is the assignment for one pair. *)
Definition assign_where {A} (x y : list A) (where_ : list bool)
    : exn + list A :=
  if (length x =? length where_) && (length y =? length where_)
  then inr (zip_with3 (fun a b (m : bool) => if m then b else a) x y where_)
  else inl IndexError.

(** [rs[idxs]] for a tensor of walker indices. *)
Definition gather (x : positions) (idx : list nat) : exn + positions :=
  match mapM (fun i => x !! i) idx with
  | Some r => inr r
  | None => inl IndexError
  end.

(** Line 225, for one walker: [&] binds tighter than [|]. *)
Definition threshold_override (thr : Q) (accepted : bool) (new cur : Q)
    : bool :=
  accepted && Qltb thr new || Qltb cur thr && Qltb cur new.

(** The summand of [log_G_ratios] for one walker. *)
Definition log_G_ratio (t : Q) (f_old f_new r_old r_new : walker) : Q :=
  Qsum (zip_with Qmult
          (zip_with Qplus f_old f_new)
          (zip_with Qplus
             (zip_with Qminus r_old r_new)
             (map (Qmult (t / 2)%Q) (zip_with Qminus f_old f_new)))).

(** ** The sampler's methods *)

Section Sampler.

(** The wave function [self.wf] with the collaborators of
    [deepqmc.physics] specialised to it, and the two transcendental
    functions on machine numbers.  [quantum_force] returns the [info] of
    the [LUFactError] it raises, or forces, log-amplitudes and signs. *)
Variable wf : positions -> list Q * list Q.
Variable quantum_force :
  positions -> lu_info + (positions * (list Q * list Q)).
Variable clean_force : positions -> positions -> Q -> positions.
Variable exp : Q -> Q.
Variable sqrt : Q -> Q.

(** [MetropolisSampler.proposal] and [LangevinSampler.proposal]. *)
Definition proposal (s : sampler) (noise : positions) : positions :=
  match kind s with
  | Metropolis =>
      pos_map2 Qplus (rs s) (map (map (fun n => (n * tau s)%Q)) noise)
  | Langevin =>
      pos_map2 Qplus
        (pos_map2 Qplus (rs s) (map (map (fun f => (f * tau s)%Q)) (forces s)))
        (map (map (fun n => (n * sqrt (tau s))%Q)) noise)
  end.

(** [LangevinSampler.qforce]: the handler stores [rs[e.info['idxs']]]
    under [e.info['rs']] and re-raises. *)
Definition qforce (x : positions) : M (positions * (list Q * list Q)) :=
  match quantum_force x with
  | inl info =>
      offending ← lift (gather x (idxs info));
      raise (LUFactError (LuInfo (idxs info) (Some offending)))
  | inr (f, psi) =>
      s ← get;
      mret (clean_force f x (tau s), psi)
  end.

(** [acceptance_prob].  The Metropolis body opens with
    [with torch.no_grad:], which names the class instead of calling it;
    a class object is no context manager, so entering the block raises
    ([AttributeError: __enter__]; a [TypeError] from Python 3.11 on)
    before the wave function is evaluated.  The Langevin override has no
    such block. *)
Definition acceptance_prob (x : positions)
    : M (list Q * list Q * list Q * list positions) :=
  s ← get;
  match kind s with
  | Metropolis => raise AttributeError
  | Langevin =>
      '(f, (lp, sg)) ← qforce x;
      let log_G_ratios :=
        zip_with3 (fun '(f_old, f_new) r_old r_new =>
                     log_G_ratio (tau s) f_old f_new r_old r_new)
          (zip (forces s) f) (rs s) x in
      let Ps_acc :=
        zip_with3 (fun g new cur => exp (g + 2 * (new - cur))%Q)
          log_G_ratios lp (log_psis s) in
      mret (Ps_acc, lp, sg, [f])
  end.

(** [extra_vars]. *)
Definition extra_vars (s : sampler) : list positions :=
  match kind s with
  | Metropolis => []
  | Langevin => [forces s]
  end.

(** The acceptance mask of lines 223-231. *)
Definition acceptance_mask (s : sampler) (Ps_acc uniform new_log_psis : list Q)
    : list bool :=
  let accepted := zip_with (fun p u => Qltb u p) Ps_acc uniform in
  let accepted :=
    match log_psi_threshold s with
    | Some thr =>
        zip_with3 (threshold_override thr) accepted new_log_psis (log_psis s)
    | None => accepted
    end in
  let accepted :=
    match max_age s with
    | Some m => zip_with orb accepted (map (fun a => (m <=? a)%Z) (_ages s))
    | None => accepted
    end in
  if (_step s <? n_first_certain s)%Z
  then map (fun _ => true) accepted
  else accepted.

(** Lines 240-244: [assign_where] over the two tuples; the extra
    variables are paired by [zip]. *)
Definition commit (cand_rs : positions) (cand_log cand_sign : list Q)
    (cand_extra : list positions) (accepted : list bool) : M unit :=
  s ← get;
  new_rs ← lift (assign_where (rs s) cand_rs accepted);
  modify (set_rs new_rs);;
  new_log ← lift (assign_where (log_psis s) cand_log accepted);
  modify (set_log_psis new_log);;
  new_sign ← lift (assign_where (sign_psis s) cand_sign accepted);
  modify (set_sign_psis new_sign);;
  match extra_vars s, cand_extra with
  | x :: _, y :: _ =>
      new_forces ← lift (assign_where x y accepted);
      modify (set_forces new_forces)
  | _, _ => mret tt
  end.

(** [MetropolisSampler.step]. *)
Definition step (d : draws) : M sample :=
  s ← get;
  let cand := proposal s (randn d) in
  '(Ps_acc, cand_log, cand_sign, cand_extra) ← acceptance_prob cand;
  let accepted := acceptance_mask s Ps_acc (rand d) cand_log in
  ages1 ← lift (mask_set (_ages s) accepted 0%Z);
  modify (set_ages ages1);;
  ages2 ← lift (mask_incr ages1 (map negb accepted));
  modify (set_ages ages2);;
  (if length (rs s) =? 0 then raise ZeroDivisionError else mret tt);;
  let acc :=
    (inject_Z (Z.of_nat (count_occ bool_dec accepted true)) / Qlen (rs s))%Q in
  let info := StepInfo acc ages2 (tau s) in
  commit cand cand_log cand_sign cand_extra accepted;;
  match target_acceptance s with
  | Some t =>
      if Qtruthy t
      then modify (set_tau (tau s / (t / py_max acc (5 # 100)))%Q)
      else mret tt
  | None => mret tt
  end;;
  modify (fun s => set_step (_step s + 1)%Z s);;
  modify (fun s => set_totalstep (_totalstep s + 1)%Z s);;
  s' ← get;
  mret (Sample (rs s') (log_psis s') (sign_psis s') info).

(** [recompute_psi], with the Langevin override. *)
Definition recompute_psi : M unit :=
  s ← get;
  match kind s with
  | Metropolis =>
      let '(lp, sg) := wf (rs s) in
      modify (set_log_psis lp);; modify (set_sign_psis sg)
  | Langevin =>
      '(f, (lp, sg)) ← qforce (rs s);
      modify (set_forces f);; modify (set_log_psis lp);;
      modify (set_sign_psis sg)
  end.

(** [restart]. *)
Definition restart : M unit :=
  modify (set_step 0%Z);;
  recompute_psi;;
  modify (fun s => set_ages (map (fun _ => 0%Z) (log_psis s)) s).

(** [propagate_all]. *)
Definition propagate_all (noise : positions) : M unit :=
  modify (fun s => set_rs (proposal s noise) s);;
  restart.

(** [__init__], on an instance of class [k]. *)
Definition init (k : variant) (rs0 : positions) (tau0 : Q)
    (max_age0 : option Z) (n_first_certain0 : Z)
    (log_psi_threshold0 target_acceptance0 : option Q)
    (n_discard0 n_decorrelate0 : Z) : exn + sampler :=
  let s := Sampler k rs0 tau0 max_age0 n_first_certain0 log_psi_threshold0
             target_acceptance0 n_discard0 n_decorrelate0 [] [] [] [] 0 0 in
  match (restart;; modify (set_totalstep 0%Z)) s with
  | (inr _, s') => inr s'
  | (inl e, _) => inl e
  end.

(** The test of line 272; the modulus is evaluated only when [i >= 0]
    and fails on a zero divisor. *)
Definition yields_at (s : sampler) (i : Z) : exn + bool :=
  if (0 <=? i)%Z then
    if (n_decorrelate s + 1 =? 0)%Z then inl ZeroDivisionError
    else inr (i mod (n_decorrelate s + 1) =? 0)%Z
  else inr false.

(** [iter_with_info] resumed with its counter at [i] and run for as
    many turns of its loop as there are draws: the samples it yields. *)
Fixpoint iter_with_info (i : Z) (ds : list draws) : M (list sample) :=
  match ds with
  | [] => mret []
  | d :: ds' =>
      smp ← step d;
      s ← get;
      y ← lift (yields_at s i);
      rest ← iter_with_info (i + 1) ds';
      mret (if y : bool then smp :: rest else rest)
  end.

(** [zip(range(n), iter_with_info())]: the generator is resumed until
    it has yielded [n] samples and not once more.  The result is [None]
    when the supplied draws run out first. *)
Fixpoint gen_take (n : nat) (i : Z) (ds : list draws)
    : M (option (list sample)) :=
  match n with
  | 0 => mret (Some [])
  | S n' =>
      match ds with
      | [] => mret None
      | d :: ds' =>
          smp ← step d;
          s ← get;
          y ← lift (yields_at s i);
          if y : bool then
            rest ← gen_take n' (i + 1) ds';
            mret (cons smp <$> rest)
          else gen_take n (i + 1) ds'
      end
  end.

(** One row of the flattened sample pool. *)
Definition row : Type := walker * Q * Q.

(** [samples_from(self, range(n))] followed by the [flatten(end_dim=1)]
    of line 295: [torch.stack(..., dim=1)] puts the walker axis first. *)
Definition samples_from (n : nat) (ds : list draws)
    : M (option (list row)) :=
  s ← get;
  taken ← gen_take n (- n_discard s) ds;
  match taken with
  | None => mret None
  | Some [] => raise ValueError
  | Some smps =>
      let flat_rs := concat (columns (map sample_rs smps)) in
      let flat_log := concat (columns (map sample_log_psis smps)) in
      let flat_sign := concat (columns (map sample_sign_psis smps)) in
      mret (Some (zip (zip flat_rs flat_log) flat_sign))
  end.

(** [math.ceil(a / b)] on natural numbers, [b > 0]. *)
Definition ceil_div (a b : nat) : nat := (a + b - 1) / b.

(** [DataLoader(ds, batch_size, shuffle=True, drop_last=True)] iterated
    once: the rows in the order [perm] drawn by the loader's sampler,
    cut into full batches. *)
Definition data_loader (pool : list row) (batch_size : nat)
    (perm : list nat) : list (list row) :=
  let shuffled := omap (fun i => pool !! i) perm in
  map (fun k => take batch_size (drop (k * batch_size) shuffled))
      (seq 0 (length shuffled / batch_size)).

(** One turn of the [while True] loop of [iter_batches]: the batches
    it yields, then [restart]. *)
Definition iter_batches_epoch (epoch_size batch_size : nat)
    (ds : list draws) (perm : list nat) : M (option (list (list row))) :=
  s ← get;
  (if length (rs s) =? 0 then raise ZeroDivisionError else mret tt);;
  let n_steps := ceil_div (epoch_size * batch_size) (length (rs s)) in
  pool ← samples_from n_steps ds;
  match pool with
  | None => mret None
  | Some pool =>
      (if batch_size =? 0 then raise ValueError else mret tt);;
      let batches := data_loader pool batch_size perm in
      restart;;
      mret (Some batches)
  end.

End Sampler.

(** The results of consecutive calls of [step], one per draw. *)
Fixpoint run_steps
    (quantum_force : positions -> lu_info + (positions * (list Q * list Q)))
    (clean_force : positions -> positions -> Q -> positions)
    (exp : Q -> Q) (sqrt : Q -> Q) (ds : list draws) : M (list sample) :=
  match ds with
  | [] => mret []
  | d :: ds' =>
      smp ← step quantum_force clean_force exp sqrt d;
      rest ← run_steps quantum_force clean_force exp sqrt ds';
      mret (smp :: rest)
  end.

(** The configuration of an instance, which no step touches. *)
Definition same_config (s s' : sampler) : Prop :=
  kind s' = kind s /\ max_age s' = max_age s
  /\ n_first_certain s' = n_first_certain s
  /\ log_psi_threshold s' = log_psi_threshold s
  /\ target_acceptance s' = target_acceptance s
  /\ n_discard s' = n_discard s /\ n_decorrelate s' = n_decorrelate s.

(** The number of turns the loop of [iter_with_info] takes, with its
    counter at [i] and [m = n_decorrelate + 1], before the turn that
    yields. *)
Definition turns_before_yield (m i : Z) : nat :=
  Z.to_nat (if (i <? 0)%Z then - i else (- i) mod m)%Z.

(** A sample has one entry per walker. *)
Definition full_sample (w : nat) (smp : sample) : Prop :=
  length (sample_rs smp) = w /\ length (sample_log_psis smp) = w
  /\ length (sample_sign_psis smp) = w.

(** Line 225 as the specification words it: a candidate below the
    threshold is rejected, unless the current value is already below
    the threshold and the candidate improves on it; every other walker
    keeps its draw. *)
Definition spec_threshold_override (thr : Q) (accepted : bool) (new cur : Q)
    : bool :=
  if Qltb new thr && negb (Qltb cur thr && Qltb cur new)
  then false else accepted.

(** ** Storage: the tensors behind the attributes

    The attributes of an instance are references to tensors.  An
    in-place operation ([x[mask] = ...], [x[mask] += 1],
    [assign_where]) writes to the tensor an attribute refers to; an
    assignment to the attribute ([self.rs = ...]) makes it refer to
    another tensor.  The store records which is which, so that one can
    ask what a caller who kept a reference sees later. *)

Definition loc : Type := positive.

Inductive tensor : Type :=
| TPos (x : positions)
| TVec (x : list Q)
| TInt (x : list Z).

(** An instance in the store: where its tensor attributes live, and
    the current values of all its attributes.  [l_forces] stands for
    [self.forces], which only a Langevin instance has; on a Metropolis
    instance nothing reads or binds it. *)
Record stored : Type := Stored {
  state : sampler;
  l_rs : loc;
  l_log_psis : loc;
  l_sign_psis : loc;
  l_forces : loc;
  l_ages : loc;
}.

(** What [step] returns, as references: the three clones, and the
    [info] dictionary with its [age] array. *)
Record stored_sample : Type := StoredSample {
  ref_rs : loc;
  ref_log_psis : loc;
  ref_sign_psis : loc;
  ref_acceptance : Q;
  ref_age : loc;
  ref_tau : Q;
}.

(** A new tensor. *)
Definition alloc (h : gmap loc tensor) (t : tensor)
    : loc * gmap loc tensor :=
  let l := fresh (dom h) in (l, <[l := t]> h).

Arguments alloc : simpl never.

(** The tensors an instance refers to. *)
Definition owned (o : stored) : gset loc :=
  {[ l_rs o; l_log_psis o; l_sign_psis o; l_forces o; l_ages o ]}.

(** The in-place writes of a step, to the tensors the attributes refer
    to. *)
Definition write_back (o : stored) (s : sampler) (h : gmap loc tensor)
    : gmap loc tensor :=
  <[l_rs o := TPos (rs s)]>
    (<[l_log_psis o := TVec (log_psis s)]>
       (<[l_sign_psis o := TVec (sign_psis s)]>
          (<[l_forces o := TPos (forces s)]>
             (<[l_ages o := TInt (_ages s)]> h)))).

Section Storage.

Variable wf : positions -> list Q * list Q.
Variable quantum_force :
  positions -> lu_info + (positions * (list Q * list Q)).
Variable clean_force : positions -> positions -> Q -> positions.
Variable exp : Q -> Q.
Variable sqrt : Q -> Q.

(** Whether the tensors live on a CUDA device.  [self._ages.cpu()] is
    the tensor itself on the CPU and a copy otherwise, and [.numpy()]
    shares the memory of the tensor it is called on. *)
Variable cuda : bool.

(** [step]: every tensor attribute is updated in place; the three
    returned tensors are clones. *)
Definition stored_step (d : draws) (c : gmap loc tensor * stored)
    : (exn + stored_sample) * (gmap loc tensor * stored) :=
  let '(h, o) := c in
  match step quantum_force clean_force exp sqrt d (state o) with
  | (inl e, s') =>
      (inl e,
       (write_back o s' h,
        Stored s' (l_rs o) (l_log_psis o) (l_sign_psis o) (l_forces o)
          (l_ages o)))
  | (inr smp, s') =>
      let h := write_back o s' h in
      let '(a, h) :=
        if cuda then alloc h (TInt (age (sample_info smp)))
        else (l_ages o, h) in
      let '(r1, h) := alloc h (TPos (sample_rs smp)) in
      let '(r2, h) := alloc h (TVec (sample_log_psis smp)) in
      let '(r3, h) := alloc h (TVec (sample_sign_psis smp)) in
      (inr (StoredSample r1 r2 r3 (acceptance (sample_info smp)) a
              (info_tau (sample_info smp))),
       (h,
        Stored s' (l_rs o) (l_log_psis o) (l_sign_psis o) (l_forces o)
          (l_ages o)))
  end.

(** [restart]: [recompute_psi] and [torch.zeros_like] bind the
    attributes to new tensors; when the force computation raises,
    nothing has been bound yet. *)
Definition stored_restart (c : gmap loc tensor * stored)
    : (exn + unit) * (gmap loc tensor * stored) :=
  let '(h, o) := c in
  match restart wf quantum_force clean_force (state o) with
  | (inl e, s') =>
      (inl e,
       (h,
        Stored s' (l_rs o) (l_log_psis o) (l_sign_psis o) (l_forces o)
          (l_ages o)))
  | (inr _, s') =>
      let '(f, h) :=
        match kind s' with
        | Langevin => alloc h (TPos (forces s'))
        | Metropolis => (l_forces o, h)
        end in
      let '(lp, h) := alloc h (TVec (log_psis s')) in
      let '(sg, h) := alloc h (TVec (sign_psis s')) in
      let '(ag, h) := alloc h (TInt (_ages s')) in
      (inr tt, (h, Stored s' (l_rs o) lp sg f ag))
  end.

(** [propagate_all]: [self.rs] is bound to the proposed positions, a
    new tensor, before the restart. *)
Definition stored_propagate_all (noise : positions)
    (c : gmap loc tensor * stored)
    : (exn + unit) * (gmap loc tensor * stored) :=
  let '(h, o) := c in
  let moved := proposal sqrt (state o) noise in
  let '(r, h) := alloc h (TPos moved) in
  stored_restart
    (h,
     Stored (set_rs moved (state o)) r (l_log_psis o) (l_sign_psis o)
       (l_forces o) (l_ages o)).

(** [__init__] on the caller's tensor [rs0]: [self.rs = rs.clone()],
    then [restart] binds the remaining tensor attributes. *)
Definition stored_init (h : gmap loc tensor) (rs0 : loc) (k : variant)
    (tau0 : Q) (max_age0 : option Z) (n_first_certain0 : Z)
    (log_psi_threshold0 target_acceptance0 : option Q)
    (n_discard0 n_decorrelate0 : Z)
    : exn + (gmap loc tensor * stored) :=
  match h !! rs0 with
  | Some (TPos x) =>
      match init wf quantum_force clean_force k x tau0 max_age0
              n_first_certain0 log_psi_threshold0 target_acceptance0
              n_discard0 n_decorrelate0 with
      | inl e => inl e
      | inr s =>
          let '(r, h) := alloc h (TPos (rs s)) in
          let '(f, h) := alloc h (TPos (forces s)) in
          let '(lp, h) := alloc h (TVec (log_psis s)) in
          let '(sg, h) := alloc h (TVec (sign_psis s)) in
          let '(ag, h) := alloc h (TInt (_ages s)) in
          inr (h, Stored s r lp sg f ag)
      end
  | _ => inl AttributeError
  end.

(** What a caller may do with an instance. *)
Inductive call : Type :=
| CallStep (d : draws)
| CallRestart
| CallPropagateAll (noise : positions).

Definition run_call (op : call) (c : gmap loc tensor * stored)
    : gmap loc tensor * stored :=
  match op with
  | CallStep d => (stored_step d c).2
  | CallRestart => (stored_restart c).2
  | CallPropagateAll noise => (stored_propagate_all noise c).2
  end.

(** A sequence of calls, whatever they return or raise. *)
Definition run_calls (ops : list call) (c : gmap loc tensor * stored)
    : gmap loc tensor * stored :=
  fold_left (fun c op => run_call op c) ops c.

End Storage.

(** Every tensor of the instance is in the store. *)
Definition well_stored (c : gmap loc tensor * stored) : Prop :=
  owned c.2 ⊆ dom c.1.

(** [c'] extends [c]: no tensor disappears, and a tensor of [c] that
    the instance did not refer to in [c] is unchanged in [c'] and not
    referred to there either. *)
Definition extends (c c' : gmap loc tensor * stored) : Prop :=
  dom c.1 ⊆ dom c'.1
  /\ forall l, l ∈ dom c.1 -> l ∉ owned c.2 ->
       c'.1 !! l = c.1 !! l /\ (l ∉ owned c'.2).

(** ** A small instance to run the definitions on

    Walkers with a single coordinate; the log-amplitude of a walker is
    that coordinate, every sign is 1, the force vanishes and is not
    regularised, and the two transcendental functions are replaced by
    rational stand-ins. *)

Definition ex_quantum_force (x : positions)
    : lu_info + (positions * (list Q * list Q)) :=
  inr (map (map (fun _ => 0%Q)) x, (map Qsum x, map (fun _ => 1%Q) x)).

(** A force computation whose factorisation fails for walker 1. *)
Definition ex_failing_force (x : positions)
    : lu_info + (positions * (list Q * list Q)) :=
  inl (LuInfo [1] None).

Definition ex_clean_force (f x : positions) (t : Q) : positions := f.

(** A positive, increasing stand-in for the exponential. *)
Definition ex_exp (q : Q) : Q :=
  if Qltb q 0 then (1 / (1 - q))%Q else (1 + q)%Q.

Definition ex_sqrt (q : Q) : Q := q.

Definition ex_wf (x : positions) : list Q * list Q :=
  (map Qsum x, map (fun _ => 1%Q) x).

(** A Langevin sampler over the walkers [0], [1] and [2]: threshold 1,
    target acceptance 1/2, no maximal age, no certain first steps. *)
Definition ex_sampler : sampler :=
  Sampler Langevin [[0]; [1]; [2]]%Q (1 # 10)%Q None 0 (Some 1%Q)
    (Some (1 # 2)%Q) 0 0 [0; 1; 2]%Q [1; 1; 1]%Q [[0]; [0]; [0]]%Q
    [0; 3; 0]%Z 5 5.

(** Noise moving the walkers to [1], [0] and [1]; the acceptance
    probabilities come out as 3, 1/3 and 1/3, so the uniform draws
    accept the first and the third walker. *)
Definition ex_draws : draws :=
  Draws [[10]; [-10]; [-10]]%Q [1 # 2; 1 # 2; 1 # 4]%Q.

(** The same walkers with a burn-in of ten steps, one extra step
    between yielded samples and no threshold. *)
Definition ex_thinned : sampler :=
  Sampler Langevin [[0]; [1]; [2]]%Q (1 # 10)%Q None 0 None
    (Some (1 # 2)%Q) 10 1 [0; 1; 2]%Q [1; 1; 1]%Q [[0]; [0]; [0]]%Q
    [0; 0; 0]%Z 0 0.

(** A hundred walkers at [0], [1], ..., [99], constructed by
    [__init__] with neither burn-in nor thinning. *)
Definition ex_hundred : sampler :=
  match init ex_wf ex_quantum_force ex_clean_force Langevin
          (map (fun i => [inject_Z (Z.of_nat i)]) (seq 0 100))
          (1 # 10)%Q None 0 None (Some (1 # 2)%Q) 0 0 with
  | inr s => s
  | inl _ => ex_sampler
  end.

(** Draws for a hundred walkers: no noise, uniform draws of 1/2. *)
Definition ex_hundred_draws : draws :=
  Draws (repeat [0%Q] 100) (repeat (1 # 2)%Q 100).

(** A store holding one tensor, the caller's initial positions. *)
Definition ex_store : gmap loc tensor :=
  {[ 1%positive := TPos [[0]; [1]; [2]]%Q ]}.

(** The Langevin sampler constructed on that tensor, on the CPU. *)
Definition ex_stored_init : exn + (gmap loc tensor * stored) :=
  stored_init ex_wf ex_quantum_force ex_clean_force ex_store 1%positive
    Langevin (1 # 10)%Q None 0 (Some 1%Q) (Some (1 # 2)%Q) 0 0.

(** ** [rand_from_mf] and [from_mf]: initial positions from a mean field *)

(** What [rand_from_mf] reads of an atom of [mf.mol]: its nuclear charge
    ([mol.atom_charges()]), the Mulliken charge that
    [mf.pop(verbose=0)[1]] reports for it, and its coordinates
    ([mol.atom_coords()]). *)
Record atom : Type := Atom {
  atom_charge : Z;
  mulliken_charge : Q;
  atom_coord : list Q;
}.

(** The mean-field object [mf]: the atoms of [mf.mol] and [mol.charge]. *)
Record mean_field : Type := MeanField {
  atoms : list atom;
  mol_charge : Z;
}.

(** What torch raises in [rand_from_mf]: a [RuntimeError] (a negative
    repeat count, a view of the wrong size, a stack of nothing), or an
    [IndexError] for an index outside a tensor. *)
Inductive torch_exn : Type := RuntimeError | TorchIndexError.

(** Sequencing of computations that may raise. *)
Definition and_then {A B} (m : torch_exn + A) (f : A -> torch_exn + B)
    : torch_exn + B :=
  match m with
  | inr a => f a
  | inl e => inl e
  end.

Notation "'try!' x := m 'in' k" := (and_then m (fun x => k))
  (at level 10, x name, k at level 200, only parsing).

(** A list comprehension whose body may raise. *)
Fixpoint try_map {A B} (f : A -> torch_exn + B) (l : list A)
    : torch_exn + list B :=
  match l with
  | [] => inr []
  | x :: l' =>
      match f x with
      | inl e => inl e
      | inr y =>
          match try_map f l' with
          | inl e => inl e
          | inr ys => inr (y :: ys)
          end
      end
  end.

Definition Zsum (xs : list Z) : Z := fold_right Z.add 0%Z xs.

(** [mol.natm]. *)
Definition n_atoms (mf : mean_field) : nat := length (atoms mf).

(** [charges.sum() - mol.charge]. *)
Definition n_electrons (mf : mean_field) : Z :=
  (Zsum (map atom_charge (atoms mf)) - mol_charge mf)%Z.

(** [cs]: the electron population of every atom, its nuclear charge
    less its Mulliken charge. *)
Definition cs (mf : mean_field) : list Q :=
  map (fun a => (inject_Z (atom_charge a) - mulliken_charge a)%Q) (atoms mf).

(** [base = cs.floor()], as [long]. *)
Definition base (mf : mean_field) : list Z := map Qfloor (cs mf).

(** [rem = cs - base], the weights of the multinomial draw. *)
Definition rem (mf : mean_field) : list Q :=
  map (fun c => (c - inject_Z (Qfloor c))%Q) (cs mf).

(** [rem_size = int(n_electrons - base.sum())]. *)
Definition rem_size (mf : mean_field) : Z :=
  (n_electrons mf - Zsum (base mf))%Z.

(** One row of [repeats] after
    [repeats[arange(bs)..., samples] += 1]: an indexed assignment, so an
    atom drawn twice would still gain one; an index outside the row
    raises. *)
Definition bump (row : list Z) (drawn : list nat) : torch_exn + list Z :=
  if forallb (fun a => a <? length row) drawn
  then inr (imap (fun a r => if bool_decide (a ∈ drawn) then (r + 1)%Z else r)
              row)
  else inl TorchIndexError.

(** [repeats], one row per walker; [samples b] is row [b] of the
    multinomial draw. *)
Definition mf_repeats (mf : mean_field) (bs : nat) (samples : nat -> list nat)
    : torch_exn + list (list Z) :=
  if (0 <? rem_size mf)%Z
  then try_map (fun b => bump (base mf) (samples b)) (seq 0 bs)
  else inr (replicate bs (base mf)).

(** [torch.repeat_interleave(input, repeats)] on flattened tensors. *)
Definition repeat_interleave {A} (input : list A) (reps : list Z)
    : torch_exn + list A :=
  if forallb (fun r => 0 <=? r)%Z reps
  then inr (concat (zip_with (fun x r => replicate (Z.to_nat r) x) input reps))
  else inl RuntimeError.

(** The rows of [flat] cut every [c] entries. *)
Definition chunks {A} (flat : list A) (rows c : nat) : list (list A) :=
  map (fun i => take c (drop (i * c) flat)) (seq 0 rows).

(** [flat.view(rows, cols)]; a size of [-1] is inferred. *)
Definition view2 {A} (flat : list A) (rows : nat) (cols : Z)
    : torch_exn + list (list A) :=
  if (cols =? -1)%Z then
    if (rows =? 0) || negb (length flat mod rows =? 0) then inl RuntimeError
    else inr (chunks flat rows (length flat / rows))
  else if (0 <=? cols)%Z && (length flat =? rows * Z.to_nat cols)
  then inr (chunks flat rows (Z.to_nat cols))
  else inl RuntimeError.

(** [x[index]] for a one-dimensional index tensor. *)
Definition index_select {A} (x : list A) (index : list nat)
    : torch_exn + list A :=
  match mapM (fun j => x !! j) index with
  | Some r => inr r
  | None => inl TorchIndexError
  end.

(** [torch.stack(list)]. *)
Definition stack {A} (l : list A) : torch_exn + list A :=
  match l with
  | [] => inl RuntimeError
  | _ => inr l
  end.

(** The atom every electron of every walker is centred on: [idxs]
    after the shuffle of line 334; [perms i] is the [randperm] drawn for
    walker [i]. *)
Definition mf_idxs (mf : mean_field) (bs : nat)
    (samples perms : nat -> list nat) : torch_exn + list (list nat) :=
  try! reps := mf_repeats mf bs samples in
  try! flat := repeat_interleave (concat (replicate bs (seq 0 (n_atoms mf))))
                 (concat reps) in
  try! idxs := view2 flat bs (n_electrons mf) in
  try! shuffled := try_map (fun i =>
                     match idxs !! i with
                     | Some row => index_select row (perms i)
                     | None => inl TorchIndexError
                     end)
                   (seq 0 bs) in
  stack shuffled.

(** [rand_from_mf(mf, bs, elec_std)]; [noise i] is the slice of
    [torch.randn_like(centers)] for walker [i]. *)
Definition rand_from_mf (mf : mean_field) (bs : nat) (elec_std : Q)
    (samples perms : nat -> list nat) (noise : nat -> list Q)
    : torch_exn + positions :=
  try! idxs := mf_idxs mf bs samples perms in
  try! centers := try_map (fun row =>
                    try! c := index_select (map atom_coord (atoms mf)) row in
                    inr (concat c))
                  idxs in
  inr (imap (fun i c =>
               zip_with Qplus c (map (fun n => (elec_std * n)%Q) (noise i)))
         centers).

Section FromMf.

Variable wf : positions -> list Q * list Q.
Variable quantum_force :
  positions -> lu_info + (positions * (list Q * list Q)).
Variable clean_force : positions -> positions -> Q -> positions.

(** [from_mf], on class [k]: the positions drawn by [rand_from_mf] are
    handed to the constructor with the keyword arguments. *)
Definition from_mf (k : variant) (mf : mean_field) (sample_size : nat)
    (samples perms : nat -> list nat) (noise : nat -> list Q)
    (tau0 : Q) (max_age0 : option Z) (n_first_certain0 : Z)
    (log_psi_threshold0 target_acceptance0 : option Q)
    (n_discard0 n_decorrelate0 : Z) : torch_exn + (exn + sampler) :=
  try! rs0 := rand_from_mf mf sample_size 1 samples perms noise in
  inr (init wf quantum_force clean_force k rs0 tau0 max_age0
         n_first_certain0 log_psi_threshold0 target_acceptance0 n_discard0
         n_decorrelate0).

End FromMf.

(** The row of [repeats] of walker [b], for a draw inside the row. *)
Definition reps_of (mf : mean_field) (samples : nat -> list nat) (b : nat)
    : list Z :=
  if (0 <? rem_size mf)%Z
  then imap (fun a r => if bool_decide (a ∈ samples b) then (r + 1)%Z else r)
         (base mf)
  else base mf.

(** [repeat_interleave] of one row of atom indices. *)
Definition interleave (xs : list nat) (reps : list Z) : list nat :=
  concat (zip_with (fun x r => replicate (Z.to_nat r) x) xs reps).

(** What torch guarantees about the draws: each row of a multinomial
    draw without replacement holds [rem_size] distinct atom indices, and
    [randperm(n)] is a permutation of [0, ..., n - 1]. *)
Definition good_draws (mf : mean_field) (bs : nat)
    (samples perms : nat -> list nat) : Prop :=
  forall b, b < bs ->
    ((0 < rem_size mf)%Z ->
     NoDup (samples b)
     /\ Z.of_nat (length (samples b)) = rem_size mf
     /\ Forall (fun a => a < n_atoms mf) (samples b))
    /\ perms b ≡ₚ seq 0 (Z.to_nat (n_electrons mf)).

(** Lithium hydride with Mulliken charges of plus and minus a quarter:
    populations 2.75 and 1.25, four electrons, one of them placed by the
    multinomial draw. *)
Definition ex_lih : mean_field :=
  MeanField [Atom 3 (1 # 4) [0; 0; 0]%Q; Atom 1 (- 1 # 4) [3; 0; 0]%Q] 0.

Definition ex_samples (b : nat) : list nat := if Nat.even b then [0] else [1].

Definition ex_perms (b : nat) : list nat :=
  if Nat.even b then [3; 1; 0; 2] else [0; 1; 2; 3].

Definition ex_noise (b : nat) : list Q := repeat (1 # 10)%Q 12.

(** ** Printing and length *)

(** [self.__class__.__name__]. *)
Definition class_name (k : variant) : string :=
  match k with
  | Metropolis => "MetropolisSampler"
  | Langevin => "LangevinSampler"
  end.

(** [__repr__]: the first literal is an f-string, the second is not, so
    its braces are printed as they stand. *)
Definition repr (s : sampler) : string :=
  ("<" +:+ class_name (kind s) +:+ " sample_size="
   +:+ pretty (length (rs s)) +:+ " "
   +:+ "n_electrons={self.rs.shape[1]} tau={self.tau}>")%string.

(** [__len__]. *)
Definition len (s : sampler) : nat := length (rs s).

(** ** Further instances to run the definitions on *)

(** An instance of the base class over the three walkers. *)
Definition ex_metropolis : sampler :=
  Sampler Metropolis [[0]; [1]; [2]]%Q (1 # 10)%Q None 3 None
    (Some (57 # 100)%Q) 50 1 [0; 1; 2]%Q [1; 1; 1]%Q [] [0; 0; 0]%Z 0 0.

(** A Langevin sampler right after a restart, with three certain first
    steps ahead. *)
Definition ex_certain : sampler :=
  Sampler Langevin [[0]; [1]; [2]]%Q (1 # 10)%Q None 3 None
    (Some (1 # 2)%Q) 0 0 [0; 1; 2]%Q [1; 1; 1]%Q [[0]; [0]; [0]]%Q
    [0; 0; 0]%Z 0 7.

(** A maximal age of 2, which the second walker has reached. *)
Definition ex_aged : sampler :=
  Sampler Langevin [[0]; [1]; [2]]%Q (1 # 10)%Q (Some 2%Z) 0 None
    (Some (1 # 2)%Q) 0 0 [0; 1; 2]%Q [1; 1; 1]%Q [[0]; [0]; [0]]%Q
    [0; 2; 1]%Z 5 5.

(** A burn-in of two steps and [n_decorrelate = -1]. *)
Definition ex_zero_modulus : sampler :=
  Sampler Langevin [[0]; [1]; [2]]%Q (1 # 10)%Q None 0 None
    (Some (1 # 2)%Q) 2 (-1) [0; 1; 2]%Q [1; 1; 1]%Q [[0]; [0]; [0]]%Q
    [0; 0; 0]%Z 0 0.

(** Five rows of a sample pool. *)
Definition ex_pool : list row :=
  map (fun i => ([inject_Z (Z.of_nat i)], inject_Z (Z.of_nat i), 1%Q))
    (seq 0 5).

(** ** The threshold and the diagnostics at step size 1 *)

(** The threshold as the docstring of the class words it (lines
    138-139): "steps into proposals with log wave function values below
    this threshold are always rejected". *)
Definition doc_threshold_override (thr : Q) (accepted : bool) (new : Q)
    : bool :=
  if Qltb new thr then false else accepted.

(** The walkers [0], [1] and [2] with step size 1, where the stand-in
    for the square root is exact, and no adaptation of the step size:
    threshold 1, a maximal age of 3, ages 0, 3 and 0. *)
Definition ex_unit : sampler :=
  Sampler Langevin [[0]; [1]; [2]]%Q 1 (Some 3%Z) 0 (Some 1%Q) None 0 0
    [0; 1; 2]%Q [1; 1; 1]%Q [[0]; [0]; [0]]%Q [0; 3; 0]%Z 5 5.

(** Noise moving the walkers to [1], [0] and [1].  The acceptance
    probabilities are the exponentials of 2, -2 and -2, so uniform draws
    of 1/2, 1/2 and 1/10 accept the first and the third walker, with
    the exponential as with its stand-in. *)
Definition ex_unit_draws : draws :=
  Draws [[1]; [-1]; [-1]]%Q [1 # 2; 1 # 2; 1 # 10]%Q.




(** The tensor of age counters is none of the other tensors of the
    instance. *)
Definition ages_apart (o : stored) : Prop :=
  l_ages o <> l_rs o /\ l_ages o <> l_log_psis o
  /\ l_ages o <> l_sign_psis o /\ l_ages o <> l_forces o.

(** The Langevin sampler constructed on the one-tensor store, on the
    CPU, with step size 1, threshold 1 and no adaptation of the step
    size. *)
Definition ex_unit_stored_init : exn + (gmap loc tensor * stored) :=
  stored_init ex_wf ex_quantum_force ex_clean_force ex_store 1%positive
    Langevin 1 None 0 (Some 1%Q) None 0 0.

(** ** Facts about the helpers *)

Lemma Qltb_lt (x y : Q) : Qltb x y = true <-> (x < y)%Q.
Proof.
  unfold Qltb. rewrite negb_true_iff, <- not_true_iff_false, Qle_bool_iff.
  split; [apply Qnot_le_lt | apply Qlt_not_le].
Qed.

Lemma Qltb_irrefl (x : Q) : Qltb x x = false.
Proof.
  apply not_true_is_false. rewrite Qltb_lt. apply Qlt_irrefl.
Qed.

Lemma py_max_cases (a b : Q) :
  ((a < b)%Q /\ py_max a b = b) \/ ((b <= a)%Q /\ py_max a b = a).
Proof.
  unfold py_max. destruct (Qltb a b) eqn:E.
  - left. split; [by apply Qltb_lt | done].
  - right. split; [| done].
    apply Qnot_lt_le. intros H. apply Qltb_lt in H. congruence.
Qed.

Lemma py_max_lower (a b : Q) : (b <= py_max a b)%Q.
Proof.
  destruct (py_max_cases a b) as [[_ ->] | [H ->]]; [apply Qle_refl | done].
Qed.

Lemma Qsum_nonneg (xs : list Q) :
  Forall (fun x => (0 <= x)%Q) xs -> (0 <= Qsum xs)%Q.
Proof.
  induction 1 as [| x xs Hx _ IH]; simpl; [apply Qle_refl |].
  replace 0%Q with (0 + 0)%Q by reflexivity. by apply Qplus_le_compat.
Qed.

Lemma sq_dev_nonneg (xs : list Q) : (0 <= sq_dev xs)%Q.
Proof.
  unfold sq_dev. apply Qsum_nonneg. apply Forall_forall.
  intros y Hy. apply list_elem_of_In, in_map_iff in Hy as (x & <- & _).
  generalize (x - mean xs)%Q. intros d.
  destruct (Qlt_le_dec d 0) as [Hd | Hd].
  - assert (E : (d * d == (- d) * (- d))%Q) by ring. rewrite E.
    apply Qmult_le_0_compat; apply (Qopp_le_compat d 0), Qlt_le_weak, Hd.
  - by apply Qmult_le_0_compat.
Qed.

Lemma variance_nonneg (ddof : nat) (xs : list Q) :
  ddof < length xs -> (0 <= variance ddof xs)%Q.
Proof.
  intros Hlt. unfold variance, Qdiv.
  apply Qmult_le_0_compat; [apply sq_dev_nonneg |].
  apply Qinv_le_0_compat. unfold Qle. simpl. lia.
Qed.

Lemma std_radicand_nonneg (ddof : nat) (xs : list Q) (s : surd) :
  std ddof xs = Some s -> (0 <= radicand s)%Q.
Proof.
  unfold std. destruct (ddof <? length xs) eqn:E; [| done].
  intros [= <-]. apply variance_nonneg. by apply Nat.ltb_lt.
Qed.

(** Comparing radicands decides the order of the square roots. *)
Lemma surd_lt_iff (x y : surd) :
  (0 <= radicand x)%Q -> (0 <= radicand y)%Q ->
  Qltb (radicand x) (radicand y) = true <-> (surd_R x < surd_R y)%R.
Proof.
  intros Hx Hy. rewrite Qltb_lt. unfold surd_R. split.
  - intros H. apply sqrt_lt_1_alt. split.
    + replace 0%R with (Q2R 0) by (unfold Q2R; simpl; lra). by apply Qle_Rle.
    + by apply Qlt_Rlt.
  - intros H. apply Rlt_Qlt. by apply sqrt_lt_0_alt.
Qed.

(** [float_lt] on two standard deviations is the order of the reals they
    denote. *)
Lemma float_lt_std (d1 d2 : nat) (xs ys : list Q) :
  float_lt (std d1 xs) (std d2 ys) = true <->
  std_lt_R (std d1 xs) (std d2 ys).
Proof.
  destruct (std d1 xs) as [x |] eqn:Ex, (std d2 ys) as [y |] eqn:Ey; simpl.
  - rewrite surd_lt_iff by eauto using std_radicand_nonneg.
    split.
    + intros H. by exists x, y.
    + by intros (x' & y' & [= <-] & [= <-] & H).
  - split; [done | by intros (? & ? & _ & ? & _)].
  - split; [done | by intros (? & ? & ? & _)].
  - split; [done | by intros (? & ? & ? & _)].
Qed.

(** Dividing a deviation by [sqrt n] is the division of the reals. *)
Lemma div_sqrt_R (x : surd) (n : Q) :
  (0 < n)%Q ->
  surd_R (Sqrt (radicand x / n)%Q) = (surd_R x / sqrt (Q2R n))%R.
Proof.
  intros Hn. unfold surd_R. simpl.
  rewrite Q2R_div.
  - apply sqrt_div_alt.
    replace 0%R with (Q2R 0) by (unfold Q2R; simpl; lra). by apply Qlt_Rlt.
  - intros H. rewrite H in Hn. by apply Qlt_irrefl in Hn.
Qed.


(** ** [sample_wf]: the window, the flag and the block buffer *)

Section SampleWfFacts.

Variable pairwise_self_distance : positions -> list (list Q).
Variable local_energy : positions -> list Q.
Variable block_size : nat.

Local Abbreviation iter :=
  (sample_wf_iter pairwise_self_distance local_energy block_size).
Local Abbreviation run :=
  (sample_wf_run pairwise_self_distance local_energy block_size).
Local Abbreviation accum := (accumulate local_energy block_size).

Lemma accumulate_flag st step rs :
  calculating_energy (accum st step rs).1 = true.
Proof.
  unfold accumulate.
  by destruct (length (buffer st ++ [local_energy rs]) =? block_size);
    [| destruct (buffer st ++ [local_energy rs])].
Qed.

Lemma accumulate_window st step rs :
  dist_means (accum st step rs).1 = dist_means st.
Proof.
  unfold accumulate.
  by destruct (length (buffer st ++ [local_energy rs]) =? block_size);
    [| destruct (buffer st ++ [local_energy rs])].
Qed.

Lemma accumulate_no_transition st step rs :
  filter is_transition (accum st step rs).2 = [].
Proof.
  unfold accumulate.
  by destruct (length (buffer st ++ [local_energy rs]) =? block_size);
    [| destruct (buffer st ++ [local_energy rs])].
Qed.

(** What [accumulate] does to the blocks and the buffer. *)
Lemma accumulate_blocks st step rs :
  let buffer1 := buffer st ++ [local_energy rs] in
  if S (length (buffer st)) =? block_size
  then blocks (accum st step rs).1 = blocks st ++ [make_block buffer1]
       /\ buffer (accum st step rs).1 = []
       /\ (accum st step rs).2 =
            [Yield step
               (Some (energy_estimate (blocks st ++ [make_block buffer1])))
               (Some (buffer_rs st ++ [rs]))]
  else blocks (accum st step rs).1 = blocks st
       /\ buffer (accum st step rs).1 = buffer1
       /\ (accum st step rs).2 = [].
Proof.
  intros buffer1. unfold accumulate. fold buffer1.
  replace (length buffer1) with (S (length (buffer st)))
    by (unfold buffer1; rewrite length_app; simpl; lia).
  destruct (S (length (buffer st)) =? block_size); [done |].
  unfold buffer1. by destruct (buffer st); simpl.
Qed.

(** One turn of the loop, unfolded. *)
Lemma iter_unfold st step rs st' ys :
  iter st step rs = inr (st', ys) ->
  exists w0 w,
    (if (step =? 0)%Z then Some (repeat 0%Q (5 * block_size))
     else dist_means st) = Some w0
    /\ push_window w0 (mean (concat (pairwise_self_distance rs))) = inr w
    /\ dist_means st' = Some w
    /\ let declared := negb (calculating_energy st)
                       && equilibrated block_size w in
       let st1 := WfState (blocks st) (calculating_energy st || declared)
                    (buffer st) (buffer_rs st) (Some w) in
       calculating_energy st' = (calculating_energy st || declared)
       /\ filter is_transition ys =
            (if declared then [Yield step None None] else [])
       /\ (calculating_energy st' = true ->
           st' = (accum st1 step rs).1
           /\ ys = (if declared then [Yield step None None] else [])
                   ++ (accum st1 step rs).2)
       /\ (calculating_energy st' = false -> st' = st1).
Proof.
  unfold sample_wf_iter.
  destruct (if (step =? 0)%Z then _ else _) as [w0 |]; [| done].
  destruct (push_window w0 _) as [e | w] eqn:Ew; [done |].
  set (declared := negb (calculating_energy st) && equilibrated block_size w).
  set (st1 := WfState _ _ _ _ _). simpl.
  destruct (calculating_energy st || declared) eqn:Ec.
  - destruct (accumulate _ _ st1 step rs) as [st2 ys2] eqn:Ea.
    intros [= <- <-]. exists w0, w.
    pose proof (accumulate_flag st1 step rs) as Hf.
    pose proof (accumulate_window st1 step rs) as Hw.
    pose proof (accumulate_no_transition st1 step rs) as Hn.
    rewrite Ea in Hf, Hw, Hn. simpl in Hf, Hw, Hn.
    split_and!; try done.
    + by rewrite Hf.
    + rewrite filter_app, Hn, app_nil_r. unfold declared.
      by destruct (negb _ && _).
    + intros _. unfold declared in *. subst st1. rewrite Ec. by rewrite Ea.
    + by rewrite Hf.
  - intros [= <- <-]. exists w0, w. unfold declared in *. subst st1.
    split_and!; try done.
    + by destruct (negb _ && _).
    + intros _. by rewrite Ec.
Qed.

Lemma window_ok_iter st step rs st' ys :
  iter st step rs = inr (st', ys) -> window_ok st'.
Proof.
  intros (w0 & w & _ & Hp & Hw & _)%iter_unfold.
  exists w. split; [done |].
  destruct w0 as [| x tl]; [done |]. injection Hp as <-.
  by destruct tl.
Qed.

(** With a usable window an accumulating turn cannot raise. *)
Lemma iter_accumulating st step rs :
  1 <= block_size -> step = 0%Z \/ window_ok st ->
  calculating_energy st = true ->
  exists st' ys,
    iter st step rs = inr (st', ys)
    /\ calculating_energy st' = true
    /\ if S (length (buffer st)) =? block_size
       then blocks st' =
              blocks st ++ [make_block (buffer st ++ [local_energy rs])]
            /\ buffer st' = []
            /\ last ys =
                 Some (Yield step (Some (energy_estimate (blocks st')))
                         (Some (buffer_rs st ++ [rs])))
       else blocks st' = blocks st
            /\ buffer st' = buffer st ++ [local_energy rs].
Proof.
  intros Hbs Hw Hc.
  unfold sample_wf_iter. rewrite Hc.
  assert (exists x tl,
    (if (step =? 0)%Z then Some (repeat 0%Q (5 * block_size))
     else dist_means st) = Some (x :: tl)) as (x & tl & ->).
  { destruct (step =? 0)%Z eqn:E.
    - destruct block_size as [| n]; [lia |]. simpl. eauto.
    - destruct Hw as [-> | (w1 & -> & Hne)]; [done |].
      destruct w1; [done | eauto]. }
  cbn -[Nat.eqb accumulate equilibrated].
  set (st1 := WfState _ _ _ _ _).
  pose proof (accumulate_blocks st1 step rs) as Hb.
  pose proof (accumulate_flag st1 step rs) as Hf.
  destruct (accumulate _ _ st1 step rs) as [st2 ys2].
  cbn -[Nat.eqb] in Hb, Hf. exists st2, ys2. split_and!; try done.
  destruct (S (length (buffer st)) =? block_size).
  - by destruct Hb as (-> & -> & ->).
  - by destruct Hb as (-> & -> & _).
Qed.

(** The buffer and the block list after any number of accumulating
    turns, started with [b] buffered values. *)
Lemma run_accumulating ins :
  forall st,
  1 <= block_size -> starts_ok st ins -> calculating_energy st = true ->
  length (buffer st) < block_size ->
  exists st' ys new,
    run st ins = (ys, inr st')
    /\ blocks st' = blocks st ++ new
    /\ length new = (length (buffer st) + length ins) / block_size
    /\ length (buffer st') = (length (buffer st) + length ins) mod block_size.
Proof.
  induction ins as [| [step rs] ins IH]; intros st Hbs Hw Hc Hb.
  - exists st, [], []. simpl. rewrite app_nil_r, Nat.add_0_r.
    by rewrite Nat.div_small, Nat.mod_small.
  - destruct (iter_accumulating st step rs Hbs Hw Hc)
      as (st1 & ys1 & Hi & Hc1 & Hcase).
    assert (starts_ok st1 ins) as Hw1.
    { destruct ins as [| [? ?] ?]; [done |]. right.
      apply (window_ok_iter _ _ _ _ _ Hi). }
    simpl. rewrite Hi.
    destruct (S (length (buffer st)) =? block_size) eqn:E.
    + apply Nat.eqb_eq in E. destruct Hcase as (Hbl & Hbu & _).
      destruct (IH st1 Hbs Hw1 Hc1) as (st' & ys' & new & -> & Hbl' & Hn & Hm).
      { rewrite Hbu. simpl. lia. }
      exists st', (ys1 ++ ys'), (make_block (buffer st ++ [local_energy rs])
                                 :: new).
      rewrite Hbu in Hn, Hm. simpl in Hn, Hm.
      replace (length (buffer st) + S (length ins))
        with (length ins + 1 * block_size) by lia.
      rewrite Nat.div_add, Nat.Div0.mod_add by lia.
      repeat split; [| simpl; lia | done].
      by rewrite Hbl', Hbl, <- app_assoc.
    + apply Nat.eqb_neq in E. destruct Hcase as (Hbl & Hbu).
      destruct (IH st1 Hbs Hw1 Hc1) as (st' & ys' & new & -> & Hbl' & Hn & Hm).
      { rewrite Hbu, length_app. simpl. lia. }
      exists st', (ys1 ++ ys'), new.
      rewrite Hbu, length_app in Hn, Hm. simpl in Hn, Hm.
      replace (length (buffer st) + S (length ins))
        with (length (buffer st) + 1 + length ins) by lia.
      repeat split; [| done | done].
      by rewrite Hbl', Hbl.
Qed.

(** The flag is never cleared, and no transition is signalled once it is
    set. *)
Lemma run_flag_stays ins :
  forall st ys st',
  run st ins = (ys, inr st') -> calculating_energy st = true ->
  calculating_energy st' = true /\ filter is_transition ys = [].
Proof.
  induction ins as [| [step rs] ins IH]; intros st ys st' Hr Hc; simpl in Hr.
  - by injection Hr as <- <-.
  - destruct (iter st step rs) as [e | [st1 ys1]] eqn:Hi; [done |].
    destruct (run st1 ins) as [ys2 r2] eqn:Hr2. injection Hr as <- ->.
    apply iter_unfold in Hi as (_ & w & _ & _ & _ & Hflag & Hys & _).
    rewrite Hc in Hflag, Hys. simpl in Hflag, Hys.
    destruct (IH _ _ _ Hr2 Hflag) as [H1 H2].
    by rewrite filter_app, Hys, H2.
Qed.

Lemma run_flag_stays_any ins :
  forall st ys r,
  run st ins = (ys, r) -> calculating_energy st = true ->
  filter is_transition ys = [].
Proof.
  induction ins as [| [step rs] ins IH]; intros st ys r Hr Hc; simpl in Hr.
  - by injection Hr as <- <-.
  - destruct (iter st step rs) as [e | [st1 ys1]] eqn:Hi;
      [by injection Hr as <- <- |].
    destruct (run st1 ins) as [ys2 r2] eqn:Hr2. injection Hr as <- ->.
    apply iter_unfold in Hi as (_ & w & _ & _ & _ & Hflag & Hys & _).
    rewrite Hc in Hflag, Hys. simpl in Hflag, Hys.
    by rewrite filter_app, Hys, (IH _ _ _ Hr2 Hflag).
Qed.

(** At most one transition is signalled, whatever the input. *)
Lemma run_transition_once ins :
  forall st ys r,
  run st ins = (ys, r) -> length (filter is_transition ys) <= 1.
Proof.
  induction ins as [| [step rs] ins IH]; intros st ys r Hr; simpl in Hr.
  - injection Hr as <- <-. simpl. lia.
  - destruct (iter st step rs) as [e | [st1 ys1]] eqn:Hi;
      [injection Hr as <- <-; simpl; lia |].
    destruct (run st1 ins) as [ys2 r2] eqn:Hr2. injection Hr as <- ->.
    apply iter_unfold in Hi as (_ & w & _ & _ & _ & Hflag & Hys & _).
    rewrite filter_app, length_app, Hys.
    destruct (negb (calculating_energy st) && equilibrated block_size w)
      eqn:Ed.
    + rewrite orb_true_r in Hflag.
      rewrite (run_flag_stays_any _ _ _ _ Hr2 Hflag). simpl. lia.
    + simpl. apply (IH _ _ _ Hr2).
Qed.

End SampleWfFacts.

(** ** Sums over a rectangular array *)

Lemma Qsum_app (xs ys : list Q) : (Qsum (xs ++ ys) == Qsum xs + Qsum ys)%Q.
Proof.
  induction xs as [| x xs IH]; simpl; [ring | rewrite IH; ring].
Qed.

Lemma Qsum_concat (xss : list (list Q)) :
  (Qsum (concat xss) == Qsum (map Qsum xss))%Q.
Proof.
  induction xss as [| xs xss IH]; simpl; [reflexivity |].
  by rewrite Qsum_app, IH.
Qed.

Lemma Qsum_map_div {A} (f : A -> Q) (c : Q) (xs : list A) :
  (Qsum (map (fun x => f x / c) xs) == Qsum (map f xs) / c)%Q.
Proof.
  induction xs as [| x xs IH]; simpl.
  - unfold Qdiv. ring.
  - rewrite IH. unfold Qdiv. ring.
Qed.

(** Column sums of an array that gains a row. *)
Lemma Qsum_cols_cons (r : list Q) (rows : list (list Q)) (js : list nat) :
  Forall (fun j => j < length r) js ->
  (Qsum (map (fun j => Qsum (column j (r :: rows))) js)
   == Qsum (omap (fun j => r !! j) js)
      + Qsum (map (fun j => Qsum (column j rows)) js))%Q.
Proof.
  induction 1 as [| j js Hj _ IH]; simpl; [ring |].
  apply lookup_lt_is_Some_2 in Hj as [x Hx].
  unfold column at 1. simpl. rewrite Hx. simpl.
  fold (column j rows). rewrite IH.
  change (list_omap nat Q (fun j0 => r !! j0) js)
    with (omap (fun j0 => r !! j0) js).
  ring.
Qed.

Lemma omap_lookup_shift {A} (x : A) (r : list A) (js : list nat) :
  omap (fun j => (x :: r) !! j) (map S js) = omap (fun j => r !! j) js.
Proof.
  induction js as [| j js IH]; [done |].
  cbn [map omap list_omap]. rewrite <- IH. done.
Qed.

Lemma omap_lookup_seq {A} (r : list A) :
  omap (fun j => r !! j) (seq 0 (length r)) = r.
Proof.
  induction r as [| x r IH]; [done |].
  cbn [length seq]. rewrite <- seq_shift.
  cbn [omap list_omap]. cbn [lookup list_lookup].
  f_equal. rewrite <- IH at 2. apply omap_lookup_shift.
Qed.

(** Summing by columns or by rows gives the same total. *)
Lemma Qsum_cols (w : nat) (rows : list (list Q)) :
  Forall (fun r => length r = w) rows ->
  (Qsum (map Qsum (cols w rows)) == Qsum (map Qsum rows))%Q.
Proof.
  unfold cols. rewrite map_map.
  induction 1 as [| r rows Hr _ IH].
  - induction (seq 0 w) as [| j js IHjs]; simpl; [reflexivity |].
    rewrite IHjs. reflexivity.
  - rewrite Qsum_cols_cons.
    + rewrite IH. subst w. rewrite omap_lookup_seq. simpl. reflexivity.
    + apply Forall_forall. intros j Hj.
      apply list_elem_of_In, in_seq in Hj. lia.
Qed.

Lemma length_column_full {A} (j w : nat) (rows : list (list A)) :
  Forall (fun r => length r = w) rows -> j < w ->
  length (column j rows) = length rows.
Proof.
  intros Hrows Hj. induction Hrows as [| r rows Hr _ IH]; [done |].
  unfold column. simpl.
  destruct (lookup_lt_is_Some_2 r j) as [x ->]; [lia |].
  simpl. f_equal. apply IH.
Qed.

Lemma length_cols {A} (w : nat) (rows : list (list A)) :
  length (cols w rows) = w.
Proof. unfold cols. by rewrite length_map, length_seq. Qed.

Lemma length_concat_cols {A} (w : nat) (rows : list (list A)) :
  Forall (fun r => length r = w) rows ->
  length (concat (cols w rows)) = w * length rows.
Proof.
  intros Hrows. unfold cols.
  assert (forall js, Forall (fun j => j < w) js ->
    length (concat (map (fun j => column j rows) js))
    = length js * length rows) as Hgen.
  { induction 1 as [| j js Hj _ IH]; [done |].
    simpl. rewrite length_app, IH, (length_column_full j w); [lia | done..]. }
  rewrite Hgen, length_seq; [done |].
  apply Forall_forall. intros j Hj. apply list_elem_of_In, in_seq in Hj. lia.
Qed.

Lemma columns_cols {A} (w : nat) (rows : list (list A)) :
  rows <> [] -> Forall (fun r => length r = w) rows ->
  columns rows = cols w rows.
Proof.
  intros Hne Hrows. unfold columns.
  destruct Hrows as [| r rows Hr _]; [done |]. simpl. by rewrite Hr.
Qed.

(** The nominal value of the estimate is the mean of the block means,
    as soon as every block holds the same number [w > 0] of walkers. *)
Lemma energy_nominal_mean_of_block_means (w : nat) (bl : list block) :
  0 < w -> bl <> [] -> Forall (fun b => length b = w) bl ->
  (nominal_value (energy_estimate bl) == mean (map block_mean bl))%Q.
Proof.
  intros Hw Hne Hbl. unfold energy_estimate, blocks_arr. simpl.
  set (rows := map (map nominal_value) bl).
  assert (Forall (fun r => length r = w) rows) as Hrows.
  { unfold rows. apply Forall_map. simpl.
    eapply Forall_impl; [exact Hbl |]. intros b Hb. by rewrite length_map. }
  assert (rows <> []) as Hne' by (unfold rows; by destruct bl).
  rewrite (columns_cols w) by done.
  unfold mean at 1, Qlen.
  rewrite length_concat_cols by done.
  rewrite Qsum_concat, Qsum_cols by done.
  unfold mean at 1, Qlen. rewrite length_map.
  assert (map block_mean bl = map (fun r => Qsum r / inject_Z (Z.of_nat w))%Q rows)
    as ->.
  { unfold rows. rewrite map_map. apply map_ext_in. intros b Hb.
    unfold block_mean, mean, Qlen. rewrite length_map.
    rewrite Forall_forall in Hbl.
    by rewrite (Hbl b) by by apply list_elem_of_In. }
  rewrite (Qsum_map_div Qsum).
  unfold rows at 2. rewrite length_map.
  rewrite Nat2Z.inj_mul, inject_Z_mult.
  assert (~ (inject_Z (Z.of_nat w) == 0)%Q) as Hw0.
  { unfold Qeq. simpl. lia. }
  assert (~ (inject_Z (Z.of_nat (length bl)) == 0)%Q) as Hn0.
  { unfold Qeq. simpl. destruct bl; [done | simpl; lia]. }
  revert Hw0 Hn0. unfold block.
  generalize (Qsum (map Qsum rows)) (inject_Z (Z.of_nat w))
    (inject_Z (Z.of_nat (length bl))).
  intros a b c Hb Hc. field. by split.
Qed.

(** ** Claims about [sample_wf] *)

(** C1 (as the code has it).  While the run is still warming up, a turn
    of the loop declares equilibrium exactly when the oldest slot of the
    pushed window is positive and the standard deviation of the oldest
    [block_size] entries is strictly smaller than that of the newest
    [block_size] entries; the transition is signalled by one
    [(step, None, None)].  Once set, the flag survives every further
    input, and no run signals the transition more than once. *)
Theorem equilibration_transition
    (pairwise_self_distance : positions -> list (list Q))
    (local_energy : positions -> list Q) (block_size : nat) :
  (forall st step rs st' ys,
     sample_wf_iter pairwise_self_distance local_energy block_size st step rs
       = inr (st', ys) ->
     calculating_energy st = false ->
     exists w,
       dist_means st' = Some w
       /\ (calculating_energy st' = true <->
           (0 < hd 0%Q w)%Q
           /\ std_lt_R (torch_std (take block_size w))
                       (torch_std (lastn block_size w)))
       /\ filter is_transition ys =
            (if calculating_energy st' then [Yield step None None] else []))
  /\ (forall st ins ys st',
        sample_wf_run pairwise_self_distance local_energy block_size st ins
          = (ys, inr st') ->
        calculating_energy st = true ->
        calculating_energy st' = true /\ filter is_transition ys = [])
  /\ (forall st ins ys r,
        sample_wf_run pairwise_self_distance local_energy block_size st ins
          = (ys, r) ->
        length (filter is_transition ys) <= 1).
Proof.
  split_and!.
  - intros st step rs st' ys Hi Hc.
    apply iter_unfold in Hi as (_ & w & _ & _ & Hw & Hflag & Hys & _).
    rewrite Hc in Hflag, Hys. simpl in Hflag, Hys.
    exists w. split_and!; [done | | by rewrite Hys, Hflag].
    rewrite Hflag. unfold equilibrated, torch_std.
    rewrite andb_true_iff, Qltb_lt, float_lt_std. done.
  - intros st ins ys st'. apply run_flag_stays.
  - intros st ins ys r. apply run_transition_once.
Qed.

(** A run of three turns with blocks of two: the window fills, the
    third turn declares equilibrium, and a further turn leaves the flag
    set. *)
Lemma equilibration_transition_witness :
  let psd := fun x : positions => x in
  let le := map Qsum in
  let st := WfState [] false [] []
              (Some [0; 1; 1; 5; 5; 5; 5; 5; 5; 5]%Q) in
  exists st',
    sample_wf_iter psd le 2 st 7 [[9%Q]]
      = inr (st', [Yield 7 None None])
    /\ calculating_energy st' = true
    /\ (exists w, dist_means st' = Some w
          /\ (0 < hd 0%Q w)%Q
          /\ std_lt_R (torch_std (take 2 w)) (torch_std (lastn 2 w)))
    /\ (forall ins ys st'',
          sample_wf_run psd le 2 st' ins = (ys, inr st'') ->
          calculating_energy st'' = true)
    /\ length (filter is_transition
                 (sample_wf_run psd le 2 st [(7%Z, [[9%Q]]); (8%Z, [[9%Q]])]).1)
       <= 1.
Proof.
  intros psd le st.
  destruct (equilibration_transition psd le 2) as (Hcrit & Hstay & Honce).
  eexists. split; [vm_compute; reflexivity |].
  split; [reflexivity |].
  split.
  - destruct (Hcrit st 7%Z [[9%Q]] _ _ eq_refl eq_refl) as (w & Hw & Hiff & _).
    exists w. split; [exact Hw |]. apply Hiff. reflexivity.
  - split.
    + intros ins ys st'' Hrun. exact (proj1 (Hstay _ ins ys st'' Hrun eq_refl)).
    + eapply Honce. apply surjective_pairing.
Defined.

(** C1 as stated fails: with blocks of two, a full window whose newest
    two entries are narrower than its oldest two does not end the
    warm-up, and one whose newest two are wider does. *)
Lemma equilibration_newest_narrower_counterexample :
  let psd := fun x : positions => x in
  let le := map Qsum in
  (let st := WfState [] false [] []
               (Some [0; 1; 3; 2; 2; 2; 2; 2; 2; 2]%Q) in
   exists st' w,
     sample_wf_iter psd le 2 st 7 [[2%Q]] = inr (st', [])
     /\ dist_means st' = Some w
     /\ spec_equilibrated 2 w = true
     /\ calculating_energy st' = false)
  /\ (let st := WfState [] false [] []
                  (Some [0; 2; 2; 2; 2; 2; 2; 2; 2; 1]%Q) in
      exists st' w,
        sample_wf_iter psd le 2 st 7 [[3%Q]]
          = inr (st', [Yield 7 None None])
        /\ dist_means st' = Some w
        /\ spec_equilibrated 2 w = false
        /\ calculating_energy st' = true).
Proof.
  split; eexists; eexists; split_and!; vm_compute; reflexivity.
Qed.

(** C9.  Started with an empty buffer once accumulation is on, the loop
    fed [k * block_size + r] local-energy values, [r < block_size],
    commits exactly [k] blocks and keeps exactly [r] values buffered; the
    case [r = 0] is the first half of the law. *)
Theorem block_commit_law
    (pairwise_self_distance : positions -> list (list Q))
    (local_energy : positions -> list Q) (block_size : nat)
    (st : wf_state) (ins : list (Z * positions)) (k r : nat) :
  calculating_energy st = true ->
  buffer st = [] ->
  starts_ok st ins ->
  r < block_size ->
  length ins = k * block_size + r ->
  exists st' ys new,
    sample_wf_run pairwise_self_distance local_energy block_size st ins
      = (ys, inr st')
    /\ blocks st' = blocks st ++ new
    /\ length new = k
    /\ length (buffer st') = r.
Proof.
  intros Hc Hb Hs Hr Hlen.
  destruct (run_accumulating pairwise_self_distance local_energy block_size
              ins st) as (st' & ys & new & Hrun & Hbl & Hn & Hm);
    [lia | done | done | rewrite Hb; simpl; lia |].
  exists st', ys, new. rewrite Hb in Hn, Hm. simpl in Hn, Hm.
  rewrite Hlen in Hn, Hm.
  rewrite Nat.add_comm, Nat.div_add, Nat.div_small in Hn by lia.
  rewrite Nat.add_comm, Nat.Div0.mod_add, Nat.mod_small in Hm by lia.
  done.
Qed.

(** Seven values with blocks of three, from the state [sample_wf] starts
    in when [equilibrate] is false: two blocks, one value left over. *)
Lemma block_commit_law_witness :
  let psd := fun x : positions => x in
  let le := map Qsum in
  let st := sample_wf_init None false in
  let ins := map (fun i => (Z.of_nat i, [[inject_Z (Z.of_nat i)]]))
                 (seq 0 7) in
  exists st' ys new,
    sample_wf_run psd le 3 st ins = (ys, inr st')
    /\ blocks st' = blocks st ++ new
    /\ length new = 2
    /\ length (buffer st') = 1.
Proof.
  intros psd le st ins.
  apply (block_commit_law psd le 3 st ins 2 1).
  - reflexivity.
  - reflexivity.
  - left. reflexivity.
  - lia.
  - reflexivity.
Defined.

(** C2 (as the code has it).  A turn that commits a block yields, last,
    the estimate recomputed from all committed blocks.  When every block
    holds the same number [w > 0] of walkers, its nominal value is the
    mean of the block means, and its standard deviation is the
    population standard deviation, across the [w] walkers, of each
    walker's mean over the blocks, divided by the square root of [w]. *)
Theorem energy_estimate_on_commit
    (pairwise_self_distance : positions -> list (list Q))
    (local_energy : positions -> list Q) (block_size : nat)
    (st st' : wf_state) (step : Z) (rs : positions) (ys : list wf_yield)
    (w : nat) :
  sample_wf_iter pairwise_self_distance local_energy block_size st step rs
    = inr (st', ys) ->
  length (blocks st') = S (length (blocks st)) ->
  0 < w ->
  Forall (fun b => length b = w) (blocks st') ->
  exists e rss,
    last ys = Some (Yield step (Some e) (Some rss))
    /\ e = energy_estimate (blocks st')
    /\ (nominal_value e == mean (map block_mean (blocks st')))%Q
    /\ blocks_arr (blocks st') = cols w (map (map nominal_value) (blocks st'))
    /\ length (blocks_arr (blocks st')) = w
    /\ std_dev e =
         div_sqrt (np_std (map mean (blocks_arr (blocks st'))))
                  (inject_Z (Z.of_nat w)).
Proof.
  intros Hi Hlen Hw Hbl.
  assert (blocks st' <> []) as Hne by (destruct (blocks st'); done).
  assert (blocks_arr (blocks st')
          = cols w (map (map nominal_value) (blocks st'))) as Harr.
  { unfold blocks_arr. apply columns_cols.
    - by destruct (blocks st').
    - apply Forall_map. simpl. eapply Forall_impl; [exact Hbl |].
      intros b Hb. by rewrite length_map. }
  apply iter_unfold in Hi as (_ & w1 & _ & _ & _ & Hflag & _ & Htrue & Hfalse).
  cbv zeta in *.
  destruct (calculating_energy st') eqn:Ec.
  - destruct (Htrue eq_refl) as [Hst Hys]. clear Htrue Hfalse.
    set (st1 := WfState _ _ _ _ _) in *.
    pose proof (accumulate_blocks local_energy block_size st1 step rs) as Hb.
    cbv zeta in Hb. rewrite <- Hst in Hb.
    destruct (S (length (buffer st1)) =? block_size).
    + destruct Hb as (Hb1 & _ & Hy).
      exists (energy_estimate (blocks st')), (buffer_rs st1 ++ [rs]).
      split_and!; try done.
      * rewrite Hys, Hy, Hb1. by rewrite last_snoc.
      * by apply (energy_nominal_mean_of_block_means w).
      * by rewrite Harr, length_cols.
      * unfold energy_estimate. simpl. unfold Qlen.
        by rewrite Harr, length_cols.
    + destruct Hb as (Hb1 & _). rewrite Hb1 in Hlen. simpl in Hlen. lia.
  - rewrite (Hfalse eq_refl) in Hlen. simpl in Hlen. lia.
Qed.

(** Two walkers, blocks of two, one block with the walker means 0 and 1
    already committed: the turn that completes the second block, whose
    walker means are 2 and 3, yields the estimate.  The walkers' means
    over both blocks are 1 and 2, with population variance 1/4, so the
    radicand of the error bar is 1/8; the two block means 1/2 and 5/2
    would give 1/2. *)
Lemma energy_estimate_on_commit_witness :
  let psd := fun x : positions => x in
  let le := map Qsum in
  let st := WfState [[UFloat 0 (Some (Sqrt 0)); UFloat 1 (Some (Sqrt 0))]]
              true [[2; 3]%Q] [[[2]; [3]]%Q]
              (Some [1; 1; 1; 1; 1; 1; 1; 1; 1; 1]%Q) in
  exists st' ys e rss,
    sample_wf_iter psd le 2 st 7 [[2]; [3]]%Q = inr (st', ys)
    /\ last ys = Some (Yield 7 (Some e) (Some rss))
    /\ e = energy_estimate (blocks st')
    /\ (nominal_value e == mean (map block_mean (blocks st')))%Q
    /\ length (blocks_arr (blocks st')) = 2
    /\ Forall2 (Forall2 Qeq) (blocks_arr (blocks st')) [[0; 2]; [1; 3]]%Q
    /\ std_dev e =
         div_sqrt (np_std (map mean (blocks_arr (blocks st')))) 2
    /\ std_eq (std_dev e) (Some (Sqrt (1 # 8)))
    /\ std_eq (spec_std_dev 0 (blocks st')) (Some (Sqrt (1 # 2))).
Proof.
  intros psd le st.
  destruct (sample_wf_iter psd le 2 st 7 [[2]; [3]]%Q) as [e0 | [st' ys]] eqn:Hi;
    [vm_compute in Hi; discriminate |].
  pose proof Hi as Hv. vm_compute in Hv. injection Hv as <- <-.
  destruct (energy_estimate_on_commit psd le 2 st _ 7 [[2]; [3]]%Q _ 2 Hi)
    as (e & rss & Hl & He & Hn & _ & Hw & Hs).
  - reflexivity.
  - lia.
  - by repeat constructor.
  - eexists _, _, e, rss.
    split; [reflexivity |]. split; [exact Hl |]. split; [exact He |].
    split; [exact Hn |]. split; [exact Hw |].
    split; [repeat constructor; vm_compute; reflexivity |].
    split; [exact Hs |].
    split; [rewrite He; vm_compute; reflexivity | vm_compute; reflexivity].
Defined.

(** C2 as stated fails.  One walker and two committed blocks with means
    0 and 2: the yielded error bar is 0, while the standard deviation of
    the two block means over the square root of two is not, whichever
    normalisation the standard deviation uses. *)
Lemma energy_error_counterexample :
  let psd := fun x : positions => x in
  let le := map Qsum in
  let st := WfState [[UFloat 0 (Some (Sqrt 0))]] true [[2%Q]] [[[2%Q]]]
              (Some [1; 1; 1; 1; 1; 1; 1; 1; 1; 1]%Q) in
  exists st' e rss,
    sample_wf_iter psd le 2 st 7 [[2%Q]]
      = inr (st', [Yield 7 (Some e) (Some rss)])
    /\ Forall2 Qeq (map block_mean (blocks st')) [0; 2]%Q
    /\ std_eq (std_dev e) (Some (Sqrt 0))
    /\ ~ std_eq (std_dev e) (spec_std_dev 0 (blocks st'))
    /\ ~ std_eq (std_dev e) (spec_std_dev 1 (blocks st')).
Proof.
  intros psd le st. eexists. eexists. eexists.
  split; [vm_compute; reflexivity |].
  split; [repeat constructor; vm_compute; reflexivity |].
  split; [vm_compute; reflexivity |].
  split; vm_compute; discriminate.
Qed.

(** ** The sampler monad *)

Lemma bind_inr {A B} (f : A -> M B) (m : M A) (s s' : sampler) (b : B) :
  (m ≫= f) s = (inr b, s') ->
  exists a s1, m s = (inr a, s1) /\ f a s1 = (inr b, s').
Proof.
  unfold mbind, M_bind. destruct (m s) as [[e | a] s1]; [done | eauto].
Qed.

Lemma bind_inl {A B} (f : A -> M B) (m : M A) (s s' : sampler) (e : exn) :
  (m ≫= f) s = (inl e, s') ->
  m s = (inl e, s')
  \/ exists a s1, m s = (inr a, s1) /\ f a s1 = (inl e, s').
Proof.
  unfold mbind, M_bind. destruct (m s) as [[e' | a] s1]; simpl.
  - intros [= -> ->]. by left.
  - intros H. right. eauto.
Qed.

Lemma bind_eval {A B} (f : A -> M B) (m : M A) (s s1 : sampler) (a : A) :
  m s = (inr a, s1) -> (m ≫= f) s = f a s1.
Proof. unfold mbind, M_bind. by intros ->. Qed.

Lemma bind_raise {A B} (f : A -> M B) (m : M A) (s s1 : sampler) (e : exn) :
  m s = (inl e, s1) -> (m ≫= f) s = (inl e, s1).
Proof. unfold mbind, M_bind. by intros ->. Qed.

Lemma lift_inr {A} (r : exn + A) (s s' : sampler) (a : A) :
  lift r s = (inr a, s') -> r = inr a /\ s' = s.
Proof. unfold lift. by intros [= -> ->]. Qed.

Ltac minv :=
  repeat match goal with
  | H : (_ ≫= _) _ = (inr _, _) |- _ =>
      let a := fresh "a" in let s1 := fresh "s" in let E := fresh "E" in
      apply bind_inr in H as (a & s1 & E & H)
  | H : get _ = (inr _, _) |- _ => unfold get in H
  | H : modify _ _ = (inr _, _) |- _ => unfold modify in H
  | H : context [mret] |- _ => unfold mret, M_ret in H
  | H : lift _ _ = (inr _, _) |- _ => apply lift_inr in H as [H ->]
  | H : raise _ _ = (inr _, _) |- _ => discriminate H
  | H : (inr _, _) = (inr _, _) |- _ =>
      first [ discriminate H | injection H as <- <- | injection H as <- ]
  end.

Section SamplerFacts.

Variable wf : positions -> list Q * list Q.
Variable quantum_force :
  positions -> lu_info + (positions * (list Q * list Q)).
Variable clean_force : positions -> positions -> Q -> positions.
Variable exp : Q -> Q.
Variable sqrt : Q -> Q.

Local Abbreviation qforce' := (qforce quantum_force clean_force).
Local Abbreviation acceptance_prob' :=
  (acceptance_prob quantum_force clean_force exp).
Local Abbreviation step' := (step quantum_force clean_force exp sqrt).

(** Computing forces and acceptance probabilities reads the instance
    and leaves it as it is, whether it returns or raises. *)
Lemma qforce_pure x s r s' : qforce' x s = (r, s') -> s' = s.
Proof.
  unfold qforce. destruct (quantum_force x) as [info | [f psi]].
  - unfold mbind, M_bind, lift, raise.
    destruct (gather x (idxs info)); by intros [= _ <-].
  - unfold mbind, M_bind, get, mret, M_ret. by intros [= _ <-].
Qed.

Lemma acceptance_prob_pure x s r s' :
  acceptance_prob' x s = (r, s') -> s' = s.
Proof.
  unfold acceptance_prob, mbind at 1, M_bind at 1, get.
  destruct (kind s).
  - unfold raise. by intros [= _ <-].
  - unfold mbind, M_bind.
    destruct (qforce' x s) as [[e | [f [lp sg]]] s1] eqn:Eq;
      apply qforce_pure in Eq as ->.
    + by intros [= _ <-].
    + unfold mret, M_ret. by intros [= _ <-].
Qed.

Lemma mask_set_incr (ages ages1 ages2 : list Z) (accepted : list bool) :
  mask_set ages accepted 0%Z = inr ages1 ->
  mask_incr ages1 (map negb accepted) = inr ages2 ->
  length accepted = length ages
  /\ ages2 = zip_with (fun a (m : bool) => if m then 0%Z else wrap64 (a + 1))
               ages accepted.
Proof.
  unfold mask_set, mask_incr.
  destruct (length ages =? length accepted) eqn:E; [| done].
  apply Nat.eqb_eq in E. intros [= <-].
  destruct (_ =? _); [| done]. intros [= <-]. split; [done |].
  clear E. revert accepted.
  induction ages as [| a ages IH]; intros [| m accepted]; try done.
  simpl. rewrite IH. by destruct m.
Qed.

(** [commit] unfolded. *)
Lemma commit_inr cand cand_log cand_sign cand_extra accepted s s' :
  commit cand cand_log cand_sign cand_extra accepted s = (inr tt, s') ->
  assign_where (rs s) cand accepted = inr (rs s')
  /\ assign_where (log_psis s) cand_log accepted = inr (log_psis s')
  /\ assign_where (sign_psis s) cand_sign accepted = inr (sign_psis s')
  /\ match extra_vars s, cand_extra with
     | x :: _, y :: _ => assign_where x y accepted = inr (forces s')
     | _, _ => forces s' = forces s
     end
  /\ same_config s s' /\ tau s' = tau s /\ _ages s' = _ages s
  /\ _step s' = _step s /\ _totalstep s' = _totalstep s.
Proof.
  unfold commit. intros H. minv.
  destruct (extra_vars s) as [| x xs], cand_extra as [| y ys]; minv;
    by split_and!.
Qed.

(** A completed step, unfolded: the candidate, the mask and every
    attribute afterwards. *)
Lemma step_inr d s smp s' :
  step' d s = (inr smp, s') ->
  exists Ps_acc cand_log cand_sign cand_extra,
    let cand := proposal sqrt s (randn d) in
    let accepted := acceptance_mask s Ps_acc (rand d) cand_log in
    let acc := (inject_Z (Z.of_nat (count_occ bool_dec accepted true))
                / Qlen (rs s))%Q in
    acceptance_prob' cand s
      = (inr (Ps_acc, cand_log, cand_sign, cand_extra), s)
    /\ length accepted = length (_ages s)
    /\ _ages s' =
         zip_with (fun a (m : bool) => if m then 0%Z else wrap64 (a + 1))
           (_ages s) accepted
    /\ assign_where (rs s) cand accepted = inr (rs s')
    /\ assign_where (log_psis s) cand_log accepted = inr (log_psis s')
    /\ assign_where (sign_psis s) cand_sign accepted = inr (sign_psis s')
    /\ match extra_vars s, cand_extra with
       | x :: _, y :: _ => assign_where x y accepted = inr (forces s')
       | _, _ => forces s' = forces s
       end
    /\ tau s' =
         match target_acceptance s with
         | Some t =>
             if Qtruthy t then (tau s / (t / py_max acc (5 # 100)))%Q
             else tau s
         | None => tau s
         end
    /\ _step s' = (_step s + 1)%Z
    /\ _totalstep s' = (_totalstep s + 1)%Z
    /\ same_config s s'
    /\ length (rs s) <> 0
    /\ smp = Sample (rs s') (log_psis s') (sign_psis s')
               (StepInfo acc (_ages s') (tau s)).
Proof.
  unfold step. intros H. minv.
  destruct a0 as [[[Ps_acc cand_log] cand_sign] cand_extra]. minv.
  apply acceptance_prob_pure in E0 as Hs1. subst s1.
  destruct (mask_set_incr _ _ _ _ E E2) as [Hlen ->].
  destruct (length (rs s) =? 0) eqn:EW; [discriminate E4 |].
  apply Nat.eqb_neq in EW. injection E4 as <- <-.
  destruct a4.
  apply commit_inr in E5
    as (Hrs & Hlog & Hsign & Hextra & Hcfg & Htau & Hages & Hstep & Htot).
  exists Ps_acc, cand_log, cand_sign, cand_extra. cbv zeta.
  destruct (target_acceptance s) as [t |] eqn:Et;
    [destruct (Qtruthy t) eqn:Eq |];
    unfold modify in E6; injection E6 as <- <-;
    simpl; rewrite ?Hages, ?Htau, ?Hstep, ?Htot; by split_and!.
Qed.

Lemma lookup_zip_with3 {A B C D} (f : A -> B -> C -> D)
    (xs : list A) (ys : list B) (zs : list C) (i : nat) x y z :
  xs !! i = Some x -> ys !! i = Some y -> zs !! i = Some z ->
  zip_with3 f xs ys zs !! i = Some (f x y z).
Proof.
  revert ys zs i.
  induction xs as [| x0 xs IH]; intros [| y0 ys] [| z0 zs] [| i]; try done.
  - by intros [= ->] [= ->] [= ->].
  - simpl. apply IH.
Qed.

Lemma length_zip_with3_same {A B C D} (f : A -> B -> C -> D)
    (xs : list A) (ys : list B) (zs : list C) :
  length xs = length zs -> length ys = length zs ->
  length (zip_with3 f xs ys zs) = length zs.
Proof.
  revert ys zs.
  induction xs as [| x0 xs IH]; intros [| y0 ys] [| z0 zs]; try done.
  simpl. intros [=] [=]. f_equal. by apply IH.
Qed.

(** [assign_where] succeeds on equal shapes only, keeps the shape, and
    picks each entry from the second tensor where the mask is set and
    from the first where it is not. *)
Lemma assign_where_inr {A} (x y z : list A) (m : list bool) :
  assign_where x y m = inr z ->
  length x = length m /\ length y = length m /\ length z = length m
  /\ forall i (b : bool), m !! i = Some b ->
       z !! i = if b then y !! i else x !! i.
Proof.
  unfold assign_where.
  destruct (length x =? length m) eqn:Ex; [| done].
  destruct (length y =? length m) eqn:Ey; [| done].
  apply Nat.eqb_eq in Ex, Ey. intros [= <-].
  split_and!; [done | done | by apply length_zip_with3_same |].
  intros i b Hb.
  destruct (lookup_lt_is_Some_2 x i) as [a Ha];
    [rewrite Ex; by eapply lookup_lt_Some |].
  destruct (lookup_lt_is_Some_2 y i) as [c Hc];
    [rewrite Ey; by eapply lookup_lt_Some |].
  rewrite (lookup_zip_with3 _ _ _ _ _ a c b) by done.
  by destruct b.
Qed.

Lemma wrap64_small (z : Z) :
  (- 2 ^ 63 <= z < 2 ^ 63)%Z -> wrap64 z = z.
Proof. intros H. unfold wrap64. rewrite Z.mod_small; lia. Qed.

Lemma py_max_Qmax (a b : Q) : (py_max a b == Qmax a b)%Q.
Proof.
  destruct (py_max_cases a b) as [[H ->] | [H ->]].
  - symmetry. apply Q.max_r. by apply Qlt_le_weak.
  - symmetry. by apply Q.max_l.
Qed.

(** The Langevin [acceptance_prob] returns the new forces as its one
    extra variable. *)
Lemma acceptance_prob_extra x s Ps_acc lp sg extra s' :
  acceptance_prob' x s = (inr (Ps_acc, lp, sg, extra), s') ->
  kind s = Langevin /\ exists f, extra = [f].
Proof.
  unfold acceptance_prob. intros H. minv.
  destruct (kind s); [done |]. minv.
  destruct a as [f [lp' sg']]. injection H as _ _ _ <- _. eauto.
Qed.

(** On an instance of the base class the step never gets past
    [acceptance_prob]: it raises and leaves the instance as it was. *)
Lemma metropolis_step_raises d s :
  kind s = Metropolis -> step' d s = (inl AttributeError, s).
Proof.
  intros Hk. unfold step.
  erewrite bind_eval by reflexivity.
  apply bind_raise. unfold acceptance_prob.
  erewrite bind_eval by reflexivity. by rewrite Hk.
Qed.

(** Ages count steps since the last restart: they lie between 0 and the
    step counter, which keeps them inside the int64 range for as long
    as the counter is. *)
Lemma step_ages_bounded d s smp s' :
  step' d s = (inr smp, s') ->
  (_step s < 2 ^ 63 - 1)%Z ->
  Forall (fun a => (0 <= a <= _step s)%Z) (_ages s) ->
  Forall (fun a => (0 <= a <= _step s')%Z) (_ages s').
Proof.
  intros (Ps & lg & sg & ex & _ & _ & Hages & _ & _ & _ & _ & _ & Hstep & _)
         %step_inr Hlt Hb.
  cbv zeta in *. rewrite Hages, Hstep. clear Hages Hstep.
  revert Hb. generalize (acceptance_mask s Ps (rand d) lg).
  induction (_ages s) as [| a ages IH]; intros [| m mask] Hb;
    try constructor.
  - apply Forall_cons in Hb as [Ha _]. destruct m; [lia |].
    rewrite wrap64_small by lia. lia.
  - apply Forall_cons in Hb as [_ Hb]. by apply IH.
Qed.

(** C4.  After a completed step with batch acceptance ratio [a]: when
    the target is set and not zero, the new step size is exactly
    [tau / (target / max(a, 0.05))]; when the target is [None] or zero,
    the step size is unchanged. *)
Theorem step_size_update (d : draws) (s s' : sampler) (smp : sample) :
  step' d s = (inr smp, s') ->
  let a := acceptance (sample_info smp) in
  (forall t, target_acceptance s = Some t -> ~ (t == 0)%Q ->
     tau s' = (tau s / (t / py_max a (5 # 100)))%Q
     /\ (py_max a (5 # 100) == Qmax a (5 # 100))%Q)
  /\ (target_acceptance s = None -> tau s' = tau s)
  /\ (forall t, target_acceptance s = Some t -> (t == 0)%Q ->
        tau s' = tau s).
Proof.
  intros (Ps & lg & sg & ex & _ & _ & _ & _ & _ & _ & _ & Htau & _ & _ & _
          & _ & ->)%step_inr.
  cbv zeta in *. simpl. split_and!.
  - intros t Ht Hne. rewrite Ht in Htau.
    assert (Qtruthy t = true) as Htr.
    { unfold Qtruthy. apply negb_true_iff, not_true_iff_false.
      by rewrite Qeq_bool_iff. }
    rewrite Htr in Htau. split; [done | apply py_max_Qmax].
  - intros Ht. by rewrite Ht in Htau.
  - intros t Ht Hz. rewrite Ht in Htau.
    assert (Qtruthy t = false) as Htr.
    { unfold Qtruthy. apply negb_false_iff. by rewrite Qeq_bool_iff. }
    by rewrite Htr in Htau.
Qed.

(** C5.  After a completed step every walker has an entry in the
    acceptance mask.  A rejected walker keeps its position,
    log-amplitude, sign and force; an accepted one takes the
    candidate's.  An age within the int64 range becomes 0 when the
    walker was accepted and grows by exactly 1 otherwise, so it is 0
    afterwards if and only if the walker was accepted. *)
Theorem step_frame (d : draws) (s s' : sampler) (smp : sample) :
  step' d s = (inr smp, s') ->
  exists Ps_acc cand_log cand_sign cand_force,
    let cand := proposal sqrt s (randn d) in
    let accepted := acceptance_mask s Ps_acc (rand d) cand_log in
    acceptance_prob' cand s
      = (inr (Ps_acc, cand_log, cand_sign, [cand_force]), s)
    /\ length accepted = length (rs s)
    /\ length accepted = length (_ages s)
    /\ forall i (acc : bool), accepted !! i = Some acc ->
         (if acc
          then rs s' !! i = cand !! i
               /\ log_psis s' !! i = cand_log !! i
               /\ sign_psis s' !! i = cand_sign !! i
               /\ forces s' !! i = cand_force !! i
          else rs s' !! i = rs s !! i
               /\ log_psis s' !! i = log_psis s !! i
               /\ sign_psis s' !! i = sign_psis s !! i
               /\ forces s' !! i = forces s !! i)
         /\ forall a, _ages s !! i = Some a ->
              (0 <= a < 2 ^ 63 - 1)%Z ->
              exists a', _ages s' !! i = Some a'
                /\ (a' = 0%Z <-> acc = true)
                /\ (acc = false -> a' = (a + 1)%Z).
Proof.
  intros (Ps & lg & sg & ex & Hacc & Hlen & Hages & Hrs & Hlog & Hsign
          & Hextra & _)%step_inr.
  cbv zeta in *.
  destruct (acceptance_prob_extra _ _ _ _ _ _ _ Hacc) as (Hk & f & ->).
  unfold extra_vars in Hextra. rewrite Hk in Hextra.
  exists Ps, lg, sg, f.
  apply assign_where_inr in Hrs as (Hl1 & _ & _ & Hrs).
  apply assign_where_inr in Hlog as (_ & _ & _ & Hlog).
  apply assign_where_inr in Hsign as (_ & _ & _ & Hsign).
  apply assign_where_inr in Hextra as (_ & _ & _ & Hextra).
  split_and!; [done | done | done |].
  intros i acc Hi. split.
  - pose proof (Hrs i acc Hi). pose proof (Hlog i acc Hi).
    pose proof (Hsign i acc Hi). pose proof (Hextra i acc Hi).
    by destruct acc.
  - intros a Ha Hrange. rewrite Hages, lookup_zip_with, Ha, Hi. simpl.
    destruct acc.
    + exists 0%Z. by split_and!.
    + exists (a + 1)%Z. rewrite wrap64_small by lia.
      split_and!; [done | | done]. split; [lia | done].
Qed.

(** Lines 223-231 for one walker.  With a threshold set, the mask a
    completed step works with is all ones during the certain first
    steps, and afterwards, for each walker,
    [draw && thr < new || cur < thr && cur < new], or-ed with
    [max_age <= age] when a maximal age is set.  In the first term a
    walker whose current log-amplitude is strictly below the threshold
    and whose candidate strictly improves on it is accepted whatever the
    draw; any other walker whose candidate is not strictly above the
    threshold is rejected; the remaining walkers keep their draw. *)
Theorem threshold_override_law (d : draws) (s s' : sampler) (smp : sample)
    (thr : Q) :
  step' d s = (inr smp, s') ->
  log_psi_threshold s = Some thr ->
  exists Ps_acc cand_log cand_sign cand_extra,
    let accepted := acceptance_mask s Ps_acc (rand d) cand_log in
    acceptance_prob' (proposal sqrt s (randn d)) s
      = (inr (Ps_acc, cand_log, cand_sign, cand_extra), s)
    /\ _ages s' =
         zip_with (fun a (m : bool) => if m then 0%Z else wrap64 (a + 1))
           (_ages s) accepted
    /\ forall i p u new cur a,
         Ps_acc !! i = Some p -> rand d !! i = Some u ->
         cand_log !! i = Some new -> log_psis s !! i = Some cur ->
         _ages s !! i = Some a ->
         let kept := threshold_override thr (Qltb u p) new cur in
         let aged := match max_age s with
                     | Some m => (m <=? a)%Z
                     | None => false
                     end in
         accepted !! i
           = Some (if (_step s <? n_first_certain s)%Z then true
                   else kept || aged)
         /\ ((cur < thr)%Q /\ (cur < new)%Q -> kept = true)
         /\ (~ ((cur < thr)%Q /\ (cur < new)%Q) -> (new <= thr)%Q ->
              kept = false)
         /\ (~ ((cur < thr)%Q /\ (cur < new)%Q) -> (thr < new)%Q ->
              kept = Qltb u p).
Proof.
  intros (Ps & lg & sg & ex & Hacc & _ & Hages & _)%step_inr Hthr.
  cbv zeta in *. exists Ps, lg, sg, ex. split_and!; [done | done |].
  intros i p u new cur a Hp Hu Hnew Hcur Ha.
  split_and!.
  - unfold acceptance_mask. rewrite Hthr.
    assert (zip_with3 (threshold_override thr)
              (zip_with (fun p u => Qltb u p) Ps (rand d)) lg (log_psis s) !! i
            = Some (threshold_override thr (Qltb u p) new cur)) as Hk.
    { apply lookup_zip_with3; [| done | done].
      by rewrite lookup_zip_with, Hp, Hu. }
    assert (match max_age s with
            | Some m =>
                zip_with orb
                  (zip_with3 (threshold_override thr)
                     (zip_with (fun p u => Qltb u p) Ps (rand d)) lg
                     (log_psis s))
                  (map (fun a => (m <=? a)%Z) (_ages s))
            | None =>
                zip_with3 (threshold_override thr)
                  (zip_with (fun p u => Qltb u p) Ps (rand d)) lg (log_psis s)
            end !! i
            = Some (threshold_override thr (Qltb u p) new cur
                    || match max_age s with
                       | Some m => (m <=? a)%Z
                       | None => false
                       end)) as Hm.
    { destruct (max_age s) as [m |].
      - by rewrite lookup_zip_with, Hk, list_lookup_fmap, Ha.
      - by rewrite orb_false_r. }
    destruct (_step s <? n_first_certain s)%Z.
    + by rewrite list_lookup_fmap, Hm.
    + exact Hm.
  - intros [H1 H2]. unfold threshold_override.
    apply Qltb_lt in H1, H2. rewrite H1, H2. apply orb_true_r.
  - intros Hno Hle. unfold threshold_override.
    assert (Qltb thr new = false) as ->.
    { apply not_true_is_false. rewrite Qltb_lt. by apply Qle_not_lt. }
    rewrite andb_false_r. simpl. apply not_true_is_false.
    rewrite andb_true_iff, !Qltb_lt. done.
  - intros Hno Hlt. unfold threshold_override.
    apply Qltb_lt in Hlt. rewrite Hlt, andb_true_r.
    assert (Qltb cur thr && Qltb cur new = false) as ->.
    { apply not_true_is_false. rewrite andb_true_iff, !Qltb_lt. done. }
    apply orb_false_r.
Qed.

(** C6.  When [quantum_force] raises its decomposition failure on the
    candidate positions of a Langevin step, with walker indices inside
    the batch, the step raises that failure with the candidate
    positions of the indexed walkers stored in it, and the instance is
    exactly as it was before the step. *)
Theorem force_failure_aborts (d : draws) (s : sampler) (info : lu_info) :
  let cand := proposal sqrt s (randn d) in
  kind s = Langevin ->
  quantum_force cand = inl info ->
  Forall (fun i => i < length cand) (idxs info) ->
  exists offending,
    step' d s
      = (inl (LUFactError (LuInfo (idxs info) (Some offending))), s)
    /\ length offending = length (idxs info)
    /\ forall k i, idxs info !! k = Some i -> offending !! k = cand !! i.
Proof.
  intros cand Hk Hq Hin.
  assert (exists offending,
    mapM (fun i => cand !! i) (idxs info) = Some offending
    /\ Forall2 (fun i w => cand !! i = Some w) (idxs info) offending)
    as (offending & Hm & Hf).
  { assert (exists k, Forall2 (fun i w => cand !! i = Some w) (idxs info) k)
      as [k Hk2].
    { induction Hin as [| i rest Hi _ IH]; [by exists [] |].
      destruct IH as [k IH].
      apply lookup_lt_is_Some_2 in Hi as [w Hw].
      exists (w :: k). by constructor. }
    exists k. split; [by apply mapM_Some | done]. }
  exists offending. split_and!.
  - unfold step.
    erewrite bind_eval by reflexivity.
    apply bind_raise. unfold acceptance_prob.
    erewrite bind_eval by reflexivity. rewrite Hk.
    apply bind_raise. unfold qforce. fold cand. rewrite Hq.
    unfold gather. rewrite Hm.
    by erewrite bind_eval by reflexivity.
  - symmetry. by eapply Forall2_length.
  - intros k i Hki.
    destruct (Forall2_lookup_l _ _ _ _ _ Hf Hki) as (w & Hw1 & Hw2).
    etrans; [exact Hw1 | symmetry; exact Hw2].
Qed.

End SamplerFacts.

(** ** The step claims on the running instance *)

Local Abbreviation ex_step :=
  (step ex_quantum_force ex_clean_force ex_exp ex_sqrt).

Lemma ex_step_completes :
  exists smp s', ex_step ex_draws ex_sampler = (inr smp, s').
Proof. eexists _, _. vm_compute. reflexivity. Qed.

(** Acceptance 1/3 against a target of 1/2: the step size shrinks from
    1/10 to (1/10) / ((1/2) / (1/3)). *)
Lemma step_size_update_witness :
  exists smp s',
    ex_step ex_draws ex_sampler = (inr smp, s')
    /\ target_acceptance ex_sampler = Some (1 # 2)%Q
    /\ ~ (1 # 2 == 0)%Q
    /\ (acceptance (sample_info smp) == 1 # 3)%Q
    /\ tau s' = ((1 # 10)
                 / ((1 # 2) / py_max (acceptance (sample_info smp)) (5 # 100)))%Q.
Proof.
  destruct (ex_step ex_draws ex_sampler) as [[e | smp] s'] eqn:E;
    [vm_compute in E; discriminate |].
  exists smp, s'.
  assert (~ (1 # 2 == 0)%Q) as Hne by (unfold Qeq; simpl; lia).
  split; [reflexivity |]. split; [reflexivity |]. split; [exact Hne |].
  split.
  - pose proof E as Ev. vm_compute in Ev. injection Ev as <- _. reflexivity.
  - exact (proj1 (proj1 (step_size_update _ _ _ _ _ _ _ _ E)
                    (1 # 2)%Q eq_refl Hne)).
Defined.

(** Walker 1 is rejected and keeps everything while its age goes from 3
    to 4; walker 0 is accepted, takes the candidate and has age 0. *)
Lemma step_frame_witness :
  exists smp s' (cand_log : list Q),
    ex_step ex_draws ex_sampler = (inr smp, s')
    /\ rs s' !! 1 = rs ex_sampler !! 1
    /\ log_psis s' !! 1 = log_psis ex_sampler !! 1
    /\ forces s' !! 1 = forces ex_sampler !! 1
    /\ _ages s' !! 1 = Some 4%Z
    /\ rs s' !! 0 = proposal ex_sqrt ex_sampler (randn ex_draws) !! 0
    /\ log_psis s' !! 0 = cand_log !! 0
    /\ _ages s' !! 0 = Some 0%Z.
Proof.
  destruct (ex_step ex_draws ex_sampler) as [[e | smp] s'] eqn:E;
    [vm_compute in E; discriminate |].
  destruct (step_frame _ _ _ _ _ _ _ _ E)
    as (Ps & lg & sg & f & Hacc & _ & _ & Hall).
  exists smp, s', lg.
  vm_compute in Hacc. injection Hacc as <- <- <- <-.
  destruct (Hall 1 false eq_refl) as ((R1 & R2 & _ & R3) & Hage1).
  destruct (Hall 0 true eq_refl) as ((A1 & A2 & _) & Hage0).
  destruct (Hage1 3%Z eq_refl ltac:(lia)) as (a1 & Ha1 & _ & Hinc).
  destruct (Hage0 0%Z eq_refl ltac:(lia)) as (a0 & Ha0 & Hz & _).
  rewrite (Hinc eq_refl) in Ha1.
  rewrite (proj2 Hz eq_refl) in Ha0.
  by split_and!.
Defined.

(** At step size 1: walker 0 sits below the threshold and improves,
    walker 1 proposes a value below the threshold and is moved all the
    same because its age has reached the maximal age, walker 2 proposes
    exactly the threshold and stays although its draw accepted. *)
Lemma threshold_override_law_witness :
  exists smp s' (Ps_acc cand_log : list Q),
    step ex_quantum_force ex_clean_force ex_exp ex_sqrt ex_unit_draws ex_unit
      = (inr smp, s')
    /\ log_psi_threshold ex_unit = Some 1%Q
    /\ max_age ex_unit = Some 3%Z
    /\ acceptance_mask ex_unit Ps_acc (rand ex_unit_draws) cand_log
       = [true; true; false]
    /\ _ages s' = [0; 0; 1]%Z.
Proof.
  destruct (step ex_quantum_force ex_clean_force ex_exp ex_sqrt ex_unit_draws
              ex_unit) as [[e | smp] s'] eqn:E;
    [vm_compute in E; discriminate |].
  destruct (threshold_override_law _ _ _ _ _ _ _ _ 1%Q E eq_refl)
    as (Ps & lg & sg & ex & Hacc & Hages & Hall).
  exists smp, s', Ps, lg.
  vm_compute in Hacc. injection Hacc as <- <- <- <-.
  destruct (Hall 0 _ _ _ _ _ eq_refl eq_refl eq_refl eq_refl eq_refl)
    as (H0 & _).
  destruct (Hall 1 _ _ _ _ _ eq_refl eq_refl eq_refl eq_refl eq_refl)
    as (H1 & _).
  destruct (Hall 2 _ _ _ _ _ eq_refl eq_refl eq_refl eq_refl eq_refl)
    as (H2 & _).
  split_and!; [done | done | done | reflexivity |].
  rewrite Hages. reflexivity.
Defined.

(** The boundary of line 225.  At step size 1 the third walker's draw
    accepts a candidate whose log-amplitude equals the threshold, which
    is not below it, and the walker is neither trapped nor aged; the
    step rejects it all the same. *)
Lemma threshold_boundary_counterexample :
  exists smp s' (Ps_acc cand_log : list Q) cand_sign cand_extra p u new cur,
    step ex_quantum_force ex_clean_force ex_exp ex_sqrt ex_unit_draws ex_unit
      = (inr smp, s')
    /\ acceptance_prob ex_quantum_force ex_clean_force ex_exp
         (proposal ex_sqrt ex_unit (randn ex_unit_draws)) ex_unit
       = (inr (Ps_acc, cand_log, cand_sign, cand_extra), ex_unit)
    /\ log_psi_threshold ex_unit = Some 1%Q
    /\ Ps_acc !! 2 = Some p /\ rand ex_unit_draws !! 2 = Some u
    /\ Qltb u p = true
    /\ cand_log !! 2 = Some new /\ log_psis ex_unit !! 2 = Some cur
    /\ (new == 1)%Q /\ (cur == 2)%Q
    /\ spec_threshold_override 1 (Qltb u p) new cur = true
    /\ doc_threshold_override 1 (Qltb u p) new = true
    /\ threshold_override 1 (Qltb u p) new cur = false
    /\ acceptance_mask ex_unit Ps_acc (rand ex_unit_draws) cand_log !! 2
       = Some false
    /\ rs s' !! 2 = rs ex_unit !! 2
    /\ _ages ex_unit !! 2 = Some 0%Z /\ _ages s' !! 2 = Some 1%Z.
Proof.
  eexists _, _, _, _, _, _, _, _, _, _.
  split; [vm_compute; reflexivity |].
  split; [vm_compute; reflexivity |].
  split_and!; vm_compute; reflexivity.
Qed.


(** The factorisation fails for walker 1 of the candidate batch: the
    step raises with that walker's candidate position and the sampler
    is untouched. *)
Lemma force_failure_aborts_witness :
  exists offending,
    kind ex_sampler = Langevin
    /\ ex_failing_force (proposal ex_sqrt ex_sampler (randn ex_draws))
       = inl (LuInfo [1] None)
    /\ step ex_failing_force ex_clean_force ex_exp ex_sqrt ex_draws ex_sampler
       = (inl (LUFactError (LuInfo [1] (Some offending))), ex_sampler)
    /\ offending !! 0 = proposal ex_sqrt ex_sampler (randn ex_draws) !! 1.
Proof.
  destruct (force_failure_aborts ex_failing_force ex_clean_force ex_exp
              ex_sqrt ex_draws ex_sampler (LuInfo [1] None) eq_refl eq_refl)
    as (offending & Hstep & _ & Hidx).
  - repeat constructor.
  - exists offending.
    split; [reflexivity |]. split; [reflexivity |].
    split; [exact Hstep |]. exact (Hidx 0 1 eq_refl).
Defined.

(** ** The lazy sequences *)

Lemma turns_yield (m i : Z) :
  (0 < m)%Z -> (0 <= i)%Z -> (i mod m = 0)%Z ->
  turns_before_yield m i = 0
  /\ turns_before_yield m (i + 1) = Z.to_nat m - 1.
Proof.
  intros Hm Hi Hr. unfold turns_before_yield.
  destruct (i <? 0)%Z eqn:E; [apply Z.ltb_lt in E; lia |].
  destruct (i + 1 <? 0)%Z eqn:E1; [apply Z.ltb_lt in E1; lia |].
  split.
  - by rewrite Z_mod_zero_opp_full.
  - assert ((- (i + 1)) mod m = m - 1)%Z; [| lia].
    symmetry. apply (Z.mod_unique_pos _ _ (- (i / m) - 1)); [lia |].
    pose proof (Z.div_mod i m ltac:(lia)). nia.
Qed.

Lemma turns_skip (m i : Z) :
  (0 < m)%Z -> (i < 0 \/ i mod m <> 0)%Z ->
  turns_before_yield m i = S (turns_before_yield m (i + 1)).
Proof.
  intros Hm Hc. unfold turns_before_yield.
  destruct (i <? 0)%Z eqn:E.
  - apply Z.ltb_lt in E. destruct (i + 1 <? 0)%Z eqn:E1.
    + apply Z.ltb_lt in E1. lia.
    + apply Z.ltb_ge in E1. assert (i = -1)%Z as -> by lia.
      simpl. rewrite ?Z.mod_0_l by lia. lia.
  - apply Z.ltb_ge in E. destruct Hc as [Hc | Hc]; [lia |].
    destruct (i + 1 <? 0)%Z eqn:E1; [apply Z.ltb_lt in E1; lia |].
    pose proof (Z.mod_pos_bound i m Hm).
    rewrite (Z_mod_nz_opp_full i m Hc).
    assert ((- (i + 1)) mod m = m - i mod m - 1)%Z; [| lia].
    symmetry. apply (Z.mod_unique_pos _ _ (- (i / m) - 1)); [lia |].
    pose proof (Z.div_mod i m ltac:(lia)). nia.
Qed.

Section SequenceFacts.

Variable quantum_force :
  positions -> lu_info + (positions * (list Q * list Q)).
Variable clean_force : positions -> positions -> Q -> positions.
Variable exp : Q -> Q.
Variable sqrt : Q -> Q.

Local Abbreviation step' := (step quantum_force clean_force exp sqrt).
Local Abbreviation iter' :=
  (iter_with_info quantum_force clean_force exp sqrt).
Local Abbreviation steps' := (run_steps quantum_force clean_force exp sqrt).

Lemma step_same_config d s smp s' :
  step' d s = (inr smp, s') -> same_config s s'.
Proof.
  by intros (? & ? & ? & ? & _ & _ & _ & _ & _ & _ & _ & _ & _ & _ & H & _)
       %step_inr.
Qed.

(** The samples [iter_with_info] yields while it runs through [ds],
    located among the results of all the steps it executes. *)
Lemma iter_with_info_yields ds :
  forall i s ys s',
  (0 < n_decorrelate s + 1)%Z ->
  iter' i ds s = (inr ys, s') ->
  exists all,
    steps' ds s = (inr all, s')
    /\ length all = length ds
    /\ forall j,
         ys !! j =
         all !! (turns_before_yield (n_decorrelate s + 1) i
                 + j * Z.to_nat (n_decorrelate s + 1)).
Proof.
  induction ds as [| d ds IH]; intros i s ys s' Hm H; simpl in H.
  - minv. exists []. by split_and!.
  - minv.
    pose proof (step_same_config _ _ _ _ E) as (_ & _ & _ & _ & _ & _ & Hd).
    rewrite <- Hd in Hm.
    destruct (IH _ _ _ _ Hm E2) as (all & Hall & Hlen & Hys).
    exists (a :: all). simpl. split_and!.
    + erewrite bind_eval by exact E. erewrite bind_eval by exact Hall. done.
    + by rewrite Hlen.
    + rewrite Hd in *. set (m := (n_decorrelate s + 1)%Z) in *.
      unfold yields_at in E1. rewrite Hd in E1. fold m in E1.
      destruct (0 <=? i)%Z eqn:Ei.
      * apply Z.leb_le in Ei.
        destruct (m =? 0)%Z eqn:Em; [done |].
        injection E1 as <-.
        destruct (i mod m =? 0)%Z eqn:Er.
        -- apply Z.eqb_eq in Er.
           destruct (turns_yield m i Hm Ei Er) as [-> Hnext].
           intros [| j]; [done |]. simpl.
           rewrite Hys, Hnext.
           replace (Z.to_nat m + j * Z.to_nat m)
             with (S (Z.to_nat m - 1 + j * Z.to_nat m)) by lia.
           done.
        -- apply Z.eqb_neq in Er.
           rewrite (turns_skip m i Hm) by by right.
           intros j. by rewrite Hys.
      * apply Z.leb_gt in Ei. injection E1 as <-.
        rewrite (turns_skip m i Hm) by by left.
        intros j. by rewrite Hys.
Qed.

(** C7.  Run for as many steps as there are draws, [iter_with_info]
    executes every one of them; the sample it yields in place [j] is
    the result of the step with zero-based index
    [n_discard + j * (n_decorrelate + 1)], so the first [n_discard]
    results are not yielded and one in [n_decorrelate + 1] is
    afterwards.  With [n_discard = 10] the first yielded sample is the
    result of step 10. *)
Theorem iter_with_info_thinning (ds : list draws) (s s' : sampler)
    (ys : list sample) :
  (0 <= n_discard s)%Z -> (0 <= n_decorrelate s)%Z ->
  iter' (- n_discard s) ds s = (inr ys, s') ->
  exists all,
    steps' ds s = (inr all, s')
    /\ length all = length ds
    /\ (forall j,
          ys !! j =
          all !! (Z.to_nat (n_discard s)
                  + j * (Z.to_nat (n_decorrelate s) + 1)))
    /\ (n_discard s = 10%Z -> ys !! 0 = all !! 10).
Proof.
  intros Hd Hc H.
  assert (0 < n_decorrelate s + 1)%Z as Hm by lia.
  destruct (iter_with_info_yields ds _ _ _ _ Hm H)
    as (all & Hall & Hlen & Hys).
  assert (turns_before_yield (n_decorrelate s + 1) (- n_discard s)
          = Z.to_nat (n_discard s)) as Ht.
  { unfold turns_before_yield.
    destruct (- n_discard s <? 0)%Z eqn:E; [by rewrite Z.opp_involutive |].
    apply Z.ltb_ge in E. assert (n_discard s = 0%Z) as -> by lia.
    simpl. by rewrite ?Z.mod_0_l by lia. }
  exists all. split_and!; [done | done | |].
  - intros j. rewrite Hys, Ht. do 2 f_equal. lia.
  - intros H10. rewrite Hys, Ht, H10. done.
Qed.

End SequenceFacts.

(** Thirteen steps with a burn-in of ten and one step between samples:
    the results of steps 10 and 12 are yielded. *)
Lemma iter_with_info_thinning_witness :
  exists ys s' all,
    iter_with_info ex_quantum_force ex_clean_force ex_exp ex_sqrt
      (- n_discard ex_thinned) (repeat ex_draws 13) ex_thinned
      = (inr ys, s')
    /\ run_steps ex_quantum_force ex_clean_force ex_exp ex_sqrt
         (repeat ex_draws 13) ex_thinned = (inr all, s')
    /\ length all = 13
    /\ length ys = 2
    /\ ys !! 0 = all !! 10
    /\ ys !! 1 = all !! 12.
Proof.
  destruct (iter_with_info ex_quantum_force ex_clean_force ex_exp ex_sqrt
              (- n_discard ex_thinned) (repeat ex_draws 13) ex_thinned)
    as [[e | ys] s'] eqn:E; [vm_compute in E; discriminate |].
  destruct (iter_with_info_thinning ex_quantum_force ex_clean_force ex_exp
              ex_sqrt (repeat ex_draws 13) ex_thinned s' ys) as
    (all & Hall & Hlen & Hys & H10).
  - simpl. lia.
  - simpl. lia.
  - exact E.
  - exists ys, s', all. split_and!; [done | done | done | | |].
    + pose proof E as Ev. vm_compute in Ev. by injection Ev as <- _.
    + by apply H10.
    + exact (Hys 1).
Defined.

(** ** [iter_batches] *)

(** The loader cuts the shuffled pool into full batches and drops the
    remainder. *)
Lemma data_loader_length (pool : list row) (batch_size : nat)
    (perm : list nat) :
  length (data_loader pool batch_size perm)
  = length (omap (fun i => pool !! i) perm) / batch_size.
Proof. unfold data_loader. by rewrite length_map, length_seq. Qed.

Lemma data_loader_rows (pool : list row) (batch_size : nat)
    (perm : list nat) :
  0 < batch_size ->
  Forall (fun b => length b = batch_size) (data_loader pool batch_size perm).
Proof.
  intros Hb. unfold data_loader.
  set (shuffled := omap _ perm).
  apply Forall_map, Forall_forall. intros k Hk. simpl.
  apply list_elem_of_In, in_seq in Hk as [_ Hk]. simpl in Hk.
  rewrite length_take, length_drop.
  assert (S k * batch_size <= length shuffled); [| lia].
  pose proof (Nat.Div0.mul_div_le (length shuffled) batch_size).
  nia.
Qed.

(** Rounding the number of steps up can only add batches. *)
Lemma epoch_size_reached (epoch_size batch_size walkers : nat) :
  0 < batch_size -> 0 < walkers ->
  epoch_size
  <= ceil_div (epoch_size * batch_size) walkers * walkers / batch_size.
Proof.
  intros Hb Hw. unfold ceil_div.
  apply Nat.div_le_lower_bound; [lia |].
  pose proof (Nat.div_mod_eq (epoch_size * batch_size + walkers - 1) walkers).
  pose proof (Nat.mod_upper_bound
                (epoch_size * batch_size + walkers - 1) walkers).
  nia.
Qed.

(** One epoch, unfolded: the batches are the loader's, cut from the
    pool of samples in the drawn order, each of [batch_size] rows, and
    the instance has been restarted after them. *)
Lemma iter_batches_epoch_inr
    (wf : positions -> list Q * list Q)
    (quantum_force : positions -> lu_info + (positions * (list Q * list Q)))
    (clean_force : positions -> positions -> Q -> positions)
    (exp sqrt : Q -> Q) (epoch_size batch_size : nat) (ds : list draws)
    (perm : list nat) (s s' : sampler) (batches : list (list row)) :
  iter_batches_epoch wf quantum_force clean_force exp sqrt epoch_size
    batch_size ds perm s = (inr (Some batches), s') ->
  exists pool s1,
    samples_from quantum_force clean_force exp sqrt
      (ceil_div (epoch_size * batch_size) (length (rs s))) ds s
      = (inr (Some pool), s1)
    /\ restart wf quantum_force clean_force s1 = (inr tt, s')
    /\ batches = data_loader pool batch_size perm
    /\ length batches
       = length (omap (fun i => pool !! i) perm) / batch_size
    /\ Forall (fun b => length b = batch_size) batches
    /\ 0 < batch_size /\ 0 < length (rs s).
Proof.
  unfold iter_batches_epoch. intros H. minv.
  destruct (length (rs s) =? 0) eqn:Ew; [discriminate E0 |].
  apply Nat.eqb_neq in Ew. unfold mret, M_ret in E0. injection E0 as _ <-.
  destruct a1 as [pool |]; [| discriminate H]. minv.
  destruct (batch_size =? 0) eqn:Eb; [discriminate E |].
  apply Nat.eqb_neq in Eb. injection E as _ <-.
  destruct a1. exists pool, s2.
  split_and!; [done | done | done | apply data_loader_length | | lia | lia].
  apply data_loader_rows. lia.
Qed.

Section EpochFacts.

Variable quantum_force :
  positions -> lu_info + (positions * (list Q * list Q)).
Variable clean_force : positions -> positions -> Q -> positions.
Variable exp : Q -> Q.
Variable sqrt : Q -> Q.

Lemma step_shapes d s smp s' :
  step quantum_force clean_force exp sqrt d s = (inr smp, s') ->
  length (rs s') = length (rs s) /\ full_sample (length (rs s)) smp.
Proof.
  intros (Ps & lg & sg & ex & _ & _ & _ & Hrs & Hlog & Hsign & _ & _ & _ & _
          & _ & _ & ->)%step_inr.
  cbv zeta in *. unfold full_sample. simpl.
  apply assign_where_inr in Hrs as (H1 & _ & H2 & _).
  apply assign_where_inr in Hlog as (_ & _ & H3 & _).
  apply assign_where_inr in Hsign as (_ & _ & H4 & _).
  rewrite H1, H2, H3, H4. done.
Qed.

(** Taking [n] samples gives [n] of them, each with one entry per
    walker. *)
Lemma gen_take_shapes ds :
  forall n i s smps s',
  gen_take quantum_force clean_force exp sqrt n i ds s
    = (inr (Some smps), s') ->
  length smps = n /\ Forall (full_sample (length (rs s))) smps.
Proof.
  induction ds as [| d ds IH]; intros [| n] i s smps s' H; simpl in H.
  - minv. by split.
  - minv.
  - minv. by split.
  - minv. destruct (step_shapes _ _ _ _ E) as [Hlen Hfull].
    destruct a1.
    + minv. destruct a0 as [rest |]; [| discriminate H].
      simpl in H. injection H as <- <-.
      destruct (IH _ _ _ _ _ E0) as [Hn Hall]. rewrite Hlen in Hall.
      split; [simpl; by rewrite Hn | by constructor].
    + destruct (IH _ _ _ _ _ H) as [Hn Hall]. by rewrite Hlen in Hall.
Qed.

Lemma flat_length {A} (w : nat) (f : sample -> list A) (smps : list sample) :
  smps <> [] -> Forall (fun smp => length (f smp) = w) smps ->
  length (concat (columns (map f smps))) = w * length smps.
Proof.
  intros Hne Hall.
  rewrite (columns_cols w).
  - rewrite length_concat_cols, length_map; [done |]. by apply Forall_map.
  - by destruct smps.
  - by apply Forall_map.
Qed.

(** The pool of an epoch holds one row per walker and sample. *)
Lemma samples_from_length n ds s pool s' :
  samples_from quantum_force clean_force exp sqrt n ds s
    = (inr (Some pool), s') ->
  length pool = length (rs s) * n.
Proof.
  unfold samples_from. intros H. minv.
  destruct a0 as [smps |]; [| discriminate H].
  destruct (gen_take_shapes _ _ _ _ _ _ E0) as [Hn Hall].
  destruct smps as [| smp smps]; [discriminate H |].
  unfold mret, M_ret in H. injection H as <-.
  set (l := smp :: smps) in *.
  assert (l <> []) as Hne by done.
  rewrite !length_zip_with.
  change (sample_rs smp :: map sample_rs smps) with (map sample_rs l).
  change (sample_log_psis smp :: map sample_log_psis smps)
    with (map sample_log_psis l).
  change (sample_sign_psis smp :: map sample_sign_psis smps)
    with (map sample_sign_psis l).
  rewrite (flat_length (length (rs s)) sample_rs),
    (flat_length (length (rs s)) sample_log_psis),
    (flat_length (length (rs s)) sample_sign_psis); try done.
  - rewrite Hn. lia.
  - eapply Forall_impl; [exact Hall |]. by intros ? (_ & _ & ?).
  - eapply Forall_impl; [exact Hall |]. by intros ? (_ & ? & _).
  - eapply Forall_impl; [exact Hall |]. by intros ? (? & _ & _).
Qed.

End EpochFacts.

(** A shuffle keeps every row. *)
Lemma shuffle_length (pool : list row) (perm : list nat) :
  perm ≡ₚ seq 0 (length pool) ->
  length (omap (fun i => pool !! i) perm) = length pool.
Proof.
  intros Hp.
  assert (Forall (fun i => i < length pool) perm) as Hall.
  { rewrite Hp. apply Forall_forall. intros i Hi.
    apply list_elem_of_In, in_seq in Hi. lia. }
  assert (length perm = length pool) as Hlen
    by (rewrite Hp; apply length_seq).
  rewrite <- Hlen. clear Hp Hlen.
  induction Hall as [| i perm Hi _ IH]; [done |].
  cbn [omap list_omap]. destruct (lookup_lt_is_Some_2 pool i Hi) as [x ->].
  cbn [length]. f_equal. exact IH.
Qed.

(** The number of minibatches of an epoch, for any sampler, sizes and
    shuffle: the full batches that fit into the samples of
    [ceil(epoch_size * batch_size / walkers)] steps, which are at least
    [epoch_size] and can be more. *)
Lemma iter_batches_epoch_count
    (wf : positions -> list Q * list Q)
    (quantum_force : positions -> lu_info + (positions * (list Q * list Q)))
    (clean_force : positions -> positions -> Q -> positions)
    (exp sqrt : Q -> Q) (epoch_size batch_size : nat) (ds : list draws)
    (perm : list nat) (s s' : sampler) (batches : list (list row)) :
  let walkers := length (rs s) in
  let n_steps := ceil_div (epoch_size * batch_size) walkers in
  iter_batches_epoch wf quantum_force clean_force exp sqrt epoch_size
    batch_size ds perm s = (inr (Some batches), s') ->
  perm ≡ₚ seq 0 (walkers * n_steps) ->
  length batches = n_steps * walkers / batch_size
  /\ epoch_size <= length batches
  /\ Forall (fun b => length b = batch_size) batches.
Proof.
  intros walkers n_steps H Hp.
  apply iter_batches_epoch_inr
    in H as (pool & s1 & Hs & _ & -> & Hlen & Hrows & Hb & Hw).
  apply samples_from_length in Hs. fold walkers n_steps in Hs.
  rewrite <- Hs in Hp.
  rewrite Hlen, (shuffle_length _ _ Hp), Hs, (Nat.mul_comm walkers).
  split_and!; [done | | done].
  by apply epoch_size_reached.
Qed.

(** C8, on a hundred walkers.  With [epoch_size = 4] and
    [batch_size = 50] an epoch draws two samples of a hundred walkers,
    emits exactly four batches of exactly fifty rows and restarts the
    chain.  With [epoch_size = 1] and [batch_size = 50] it draws one
    sample and emits two batches, one more than [epoch_size]. *)
Theorem iter_batches_epoch_counts :
  (exists batches s',
     iter_batches_epoch ex_wf ex_quantum_force ex_clean_force ex_exp ex_sqrt
       4 50 (repeat ex_hundred_draws 5) (rev (seq 0 200)) ex_hundred
     = (inr (Some batches), s')
     /\ length (rs ex_hundred) = 100
     /\ ceil_div (4 * 50) (length (rs ex_hundred)) = 2
     /\ length batches = 4
     /\ Forall (fun b => length b = 50) batches
     /\ _step s' = 0%Z /\ _totalstep s' = 2%Z
     /\ _ages s' = repeat 0%Z 100)
  /\ (exists batches s',
        iter_batches_epoch ex_wf ex_quantum_force ex_clean_force ex_exp
          ex_sqrt 1 50 (repeat ex_hundred_draws 5) (rev (seq 0 100))
          ex_hundred
        = (inr (Some batches), s')
        /\ ceil_div (1 * 50) (length (rs ex_hundred)) = 1
        /\ length batches = 2
        /\ Forall (fun b => length b = 50) batches).
Proof.
  split.
  - destruct (iter_batches_epoch ex_wf ex_quantum_force ex_clean_force
                ex_exp ex_sqrt 4 50 (repeat ex_hundred_draws 5)
                (rev (seq 0 200)) ex_hundred)
      as [[e | [batches |]] s'] eqn:E;
      [vm_compute in E; discriminate | | vm_compute in E; discriminate].
    exists batches, s'. split; [reflexivity |].
    vm_compute in E. injection E as <- <-.
    split_and!; try reflexivity.
    repeat constructor.
  - destruct (iter_batches_epoch ex_wf ex_quantum_force ex_clean_force
                ex_exp ex_sqrt 1 50 (repeat ex_hundred_draws 5)
                (rev (seq 0 100)) ex_hundred)
      as [[e | [batches |]] s'] eqn:E;
      [vm_compute in E; discriminate | | vm_compute in E; discriminate].
    exists batches, s'. split; [reflexivity |].
    vm_compute in E. injection E as <- <-.
    split_and!; try reflexivity.
    repeat constructor.
Qed.

(** ** Storage: what a step may write to *)

Lemma write_back_dom (o : stored) (s : sampler) (h : gmap loc tensor) :
  dom (write_back o s h) = owned o ∪ dom h.
Proof.
  unfold write_back, owned. rewrite !dom_insert_L. set_solver.
Qed.

Lemma write_back_mono (o : stored) (s : sampler) (h : gmap loc tensor)
    (l : loc) :
  l ∈ dom h -> l ∈ dom (write_back o s h).
Proof. rewrite write_back_dom. set_solver. Qed.

Lemma write_back_other (o : stored) (s : sampler) (h : gmap loc tensor)
    (l : loc) :
  l ∉ owned o -> write_back o s h !! l = h !! l.
Proof.
  unfold write_back, owned. intros Hl.
  rewrite !lookup_insert_ne by set_solver. done.
Qed.

Lemma alloc_fresh (h : gmap loc tensor) (t : tensor) :
  (alloc h t).1 ∉ dom h.
Proof. unfold alloc. simpl. apply is_fresh. Qed.

Lemma alloc_in (h : gmap loc tensor) (t : tensor) :
  (alloc h t).1 ∈ dom (alloc h t).2.
Proof. unfold alloc. simpl. rewrite dom_insert_L. set_solver. Qed.

Lemma alloc_mono (h : gmap loc tensor) (t : tensor) (l : loc) :
  l ∈ dom h -> l ∈ dom (alloc h t).2.
Proof. unfold alloc. simpl. rewrite dom_insert_L. set_solver. Qed.

Lemma alloc_lookup (h : gmap loc tensor) (t : tensor) :
  (alloc h t).2 !! (alloc h t).1 = Some t.
Proof. unfold alloc. simpl. by rewrite lookup_insert_eq. Qed.

Lemma alloc_other (h : gmap loc tensor) (t : tensor) (l : loc) :
  l ∈ dom h -> (alloc h t).2 !! l = h !! l.
Proof.
  intros Hl. unfold alloc. simpl. apply lookup_insert_ne.
  intros <-. by apply (is_fresh (dom h)).
Qed.

Lemma elem_of_owned (o : stored) (l : loc) :
  l ∈ owned o <->
  l = l_rs o \/ l = l_log_psis o \/ l = l_sign_psis o
  \/ l = l_forces o \/ l = l_ages o.
Proof. unfold owned. set_solver. Qed.

Lemma extends_refl c : extends c c.
Proof. split; [done |]. by intros l _ Hl. Qed.

Lemma extends_trans c1 c2 c3 :
  extends c1 c2 -> extends c2 c3 -> extends c1 c3.
Proof.
  intros [Hd1 Hf1] [Hd2 Hf2]. split; [by etrans |].
  intros l Hl Hn. destruct (Hf1 l Hl Hn) as [Hv1 Hn1].
  destruct (Hf2 l (Hd1 l Hl) Hn1) as [Hv2 Hn2].
  split; [by rewrite Hv2 | done].
Qed.

(** Destructs the allocations of a goal one at a time, recording that
    each new location is outside the store it was added to. *)
Ltac alloc_step :=
  match goal with
  | |- context [alloc ?h ?t] =>
      let l := fresh "l" in let h' := fresh "h" in
      let Hf := fresh "Hfresh" in let Hi := fresh "Hin" in
      let Hm := fresh "Hmono" in
      let Hl := fresh "Hlook" in let Ho := fresh "Hother" in
      pose proof (alloc_fresh h t) as Hf;
      pose proof (alloc_in h t) as Hi;
      pose proof (alloc_mono h t) as Hm;
      pose proof (alloc_lookup h t) as Hl;
      pose proof (alloc_other h t) as Ho;
      destruct (alloc h t) as [l h']; simpl in Hf, Hi, Hm, Hl, Ho;
      cbv beta iota
  end.

Section StorageFacts.

Variable wf : positions -> list Q * list Q.
Variable quantum_force :
  positions -> lu_info + (positions * (list Q * list Q)).
Variable clean_force : positions -> positions -> Q -> positions.
Variable exp : Q -> Q.
Variable sqrt : Q -> Q.
Variable cuda : bool.

Local Abbreviation sstep :=
  (stored_step quantum_force clean_force exp sqrt cuda).
Local Abbreviation srestart := (stored_restart wf quantum_force clean_force).
Local Abbreviation spropagate :=
  (stored_propagate_all wf quantum_force clean_force sqrt).
Local Abbreviation srun :=
  (run_calls wf quantum_force clean_force exp sqrt cuda).

(** A step writes to the instance's own tensors and to new ones only;
    the three tensors it returns are new, hold the returned values and
    are not among the instance's tensors afterwards. *)
Lemma stored_step_extends d c r c' :
  sstep d c = (r, c') -> well_stored c ->
  well_stored c' /\ extends c c'
  /\ forall smp, r = inr smp ->
       (ref_rs smp ∉ dom c.1) /\ (ref_log_psis smp ∉ dom c.1)
       /\ (ref_sign_psis smp ∉ dom c.1)
       /\ (ref_rs smp ∈ dom c'.1) /\ (ref_log_psis smp ∈ dom c'.1)
       /\ (ref_sign_psis smp ∈ dom c'.1)
       /\ (ref_rs smp ∉ owned c'.2) /\ (ref_log_psis smp ∉ owned c'.2)
       /\ (ref_sign_psis smp ∉ owned c'.2)
       /\ c'.1 !! ref_rs smp = Some (TPos (rs (state c'.2)))
       /\ c'.1 !! ref_log_psis smp = Some (TVec (log_psis (state c'.2)))
       /\ c'.1 !! ref_sign_psis smp = Some (TVec (sign_psis (state c'.2)))
       /\ (cuda = false -> ref_age smp = l_ages c'.2).
Proof.
  destruct c as [h o]. unfold stored_step, well_stored, extends.
  cbn [fst snd]. intros Hr Hw. revert Hr.
  pose proof (fun s l => write_back_mono o s h l) as Hwm.
  pose proof (fun s l => write_back_other o s h l) as Hwo.
  destruct (step _ _ _ _ d (state o)) as [[e | smp] s'] eqn:Es.
  - intros [= <- <-]. cbn [fst snd].
    split_and!; [| | | done].
    + intros x Hx. auto.
    + intros x Hx. auto.
    + intros l Hl Hn. split; [by apply Hwo | done].
  - specialize (Hwm s'). specialize (Hwo s').
    set (h1 := write_back o s' h) in *.
    assert (exists a h2, (if cuda then alloc h1 (TInt (age (sample_info smp)))
                          else (l_ages o, h1)) = (a, h2)
              /\ (forall l, l ∈ dom h1 -> l ∈ dom h2)
              /\ (forall l, l ∈ dom h1 -> h2 !! l = h1 !! l)
              /\ (cuda = false -> a = l_ages o))
      as (a & h2 & Hif & Hd2 & Hv2 & Ha).
    { destruct cuda.
      - eexists _, _. split; [apply surjective_pairing |].
        split_and!; [| | done].
        + intros l Hl. by apply alloc_mono.
        + intros l Hl. by apply alloc_other.
      - by exists (l_ages o), h1. }
    apply step_inr in Es as (Ps & lg & sg & ex & Es). cbv zeta in Es.
    destruct Es as (_ & _ & _ & _ & _ & _ & _ & _ & _ & _ & _ & _ & Hsmp).
    rewrite Hif. cbv beta iota. repeat alloc_step.
    intros [= <- <-]. cbn [fst snd l_rs l_log_psis l_sign_psis l_forces
      l_ages state ref_rs ref_log_psis ref_sign_psis ref_age].
    assert (forall x, x ∈ owned o -> x ∈ dom h) as Hw' by exact Hw.
    replace (owned (Stored s' (l_rs o) (l_log_psis o) (l_sign_psis o)
                      (l_forces o) (l_ages o))) with (owned o) by done.
    split_and!.
    + intros x Hx. auto 10.
    + intros x Hx. auto 10.
    + intros x Hx Hn. split; [| done].
      rewrite Hother1, Hother0, Hother, Hv2, Hwo by auto 10. done.
    + intros ? [= <-]. cbn [ref_rs ref_log_psis ref_sign_psis ref_age].
      split_and!.
      * intros Hc. apply Hfresh. auto 10.
      * intros Hc. apply Hfresh0. auto 10.
      * intros Hc. apply Hfresh1. auto 10.
      * auto 10.
      * auto 10.
      * auto 10.
      * intros Hc. apply Hfresh. auto 10.
      * intros Hc. apply Hfresh0. auto 10.
      * intros Hc. apply Hfresh1. auto 10.
      * rewrite Hother1, Hother0 by auto 10. by rewrite Hlook, Hsmp.
      * rewrite Hother1 by auto 10. by rewrite Hlook0, Hsmp.
      * by rewrite Hlook1, Hsmp.
      * exact Ha.
Qed.

(** A restart binds attributes to new tensors and writes to no
    existing one. *)
Lemma stored_restart_extends c r c' :
  srestart c = (r, c') -> well_stored c ->
  well_stored c' /\ extends c c'.
Proof.
  destruct c as [h o]. unfold stored_restart, well_stored, extends.
  cbn [fst snd]. intros Hr Hw. revert Hr.
  assert (forall x, x ∈ owned o -> x ∈ dom h) as Hw' by exact Hw.
  destruct (restart _ _ _ (state o)) as [[e | u] s'] eqn:Es.
  - intros [= <- <-]. cbn [fst snd]. split_and!; [done | done |].
    by intros l Hl Hn.
  - assert (exists f h1, match kind s' with
                         | Langevin => alloc h (TPos (forces s'))
                         | Metropolis => (l_forces o, h)
                         end = (f, h1)
              /\ (forall l, l ∈ dom h -> l ∈ dom h1)
              /\ (forall l, l ∈ dom h -> h1 !! l = h !! l)
              /\ f ∈ dom h1
              /\ (f ∈ dom h -> f = l_forces o))
      as (f & h1 & Hm & Hd1 & Hv1 & Hf1 & Hf2).
    { destruct (kind s').
      - exists (l_forces o), h.
        split_and!; [done | done | done | | done].
        apply Hw'. apply elem_of_owned. auto.
      - eexists _, _. split; [apply surjective_pairing |].
        pose proof (alloc_fresh h (TPos (forces s'))) as Hfr.
        split_and!.
        + intros l Hl. by apply alloc_mono.
        + intros l Hl. by apply alloc_other.
        + apply alloc_in.
        + intros Hc. by destruct Hfr. }
    rewrite Hm. cbv beta iota. repeat alloc_step.
    intros [= <- <-]. cbn [fst snd].
    assert (l_rs o ∈ dom h) as Mrs by (apply Hw', elem_of_owned; auto).
    split_and!.
    + intros x Hx. apply elem_of_owned in Hx.
      cbn [l_rs l_log_psis l_sign_psis l_forces l_ages] in Hx.
      destruct Hx as [-> | [-> | [-> | [-> | ->]]]]; auto 10.
    + intros x Hx. auto 10.
    + intros x Hx Hn. split.
      * rewrite Hother1, Hother0, Hother, Hv1 by auto 10. done.
      * intros Hc. apply elem_of_owned in Hc.
        cbn [l_rs l_log_psis l_sign_psis l_forces l_ages] in Hc.
        destruct Hc as [-> | [-> | [-> | [-> | ->]]]].
        -- apply Hn, elem_of_owned. auto.
        -- apply Hfresh. auto 10.
        -- apply Hfresh0. auto 10.
        -- apply Hn. rewrite (Hf2 Hx). apply elem_of_owned. auto 10.
        -- apply Hfresh1. auto 10.
Qed.

Lemma stored_propagate_all_extends noise c r c' :
  spropagate noise c = (r, c') -> well_stored c ->
  well_stored c' /\ extends c c'.
Proof.
  destruct c as [h o]. unfold stored_propagate_all.
  alloc_step. intros Hr Hw.
  assert (forall x, x ∈ owned o -> x ∈ dom h) as Hw' by exact Hw.
  set (c1 := (h0, Stored _ l _ _ _ _)) in Hr.
  assert (well_stored c1) as Hw1.
  { unfold well_stored. cbn [fst snd]. intros x Hx.
    apply elem_of_owned in Hx.
    cbn [l_rs l_log_psis l_sign_psis l_forces l_ages] in Hx.
    destruct Hx as [-> | [-> | [-> | [-> | ->]]]]; [done | ..];
      apply Hmono, Hw', elem_of_owned; auto 10. }
  assert (extends (h, o) c1) as He1.
  { unfold extends. cbn [fst snd].
    split; [exact Hmono |]. intros x Hx Hn.
    split; [by apply Hother |].
    intros Hc. apply elem_of_owned in Hc.
    cbn [l_rs l_log_psis l_sign_psis l_forces l_ages] in Hc.
    destruct Hc as [-> | [-> | [-> | [-> | ->]]]]; [by apply Hfresh | ..];
      apply Hn, elem_of_owned; auto 10. }
  destruct (stored_restart_extends _ _ _ Hr Hw1) as [Hw2 He2].
  split; [done | by eapply extends_trans].
Qed.

Lemma run_call_extends op c :
  well_stored c ->
  well_stored (run_call wf quantum_force clean_force exp sqrt cuda op c)
  /\ extends c (run_call wf quantum_force clean_force exp sqrt cuda op c).
Proof.
  intros Hw. destruct op as [d | | noise]; cbn [run_call].
  - destruct (sstep d c) as [r c'] eqn:E.
    by destruct (stored_step_extends _ _ _ _ E Hw) as (? & ? & _).
  - destruct (srestart c) as [r c'] eqn:E.
    by apply (stored_restart_extends _ _ _ E).
  - destruct (spropagate noise c) as [r c'] eqn:E.
    by apply (stored_propagate_all_extends _ _ _ _ E).
Qed.

Lemma run_calls_extends ops :
  forall c, well_stored c -> well_stored (srun ops c) /\ extends c (srun ops c).
Proof.
  induction ops as [| op ops IH]; intros c Hw; cbn [run_calls fold_left].
  - split; [done | apply extends_refl].
  - destruct (run_call_extends op c Hw) as [Hw1 He1].
    destruct (IH _ Hw1) as [Hw2 He2].
    split; [done | by eapply extends_trans].
Qed.

(** A restart leaves the positions alone. *)
Lemma restart_rs s r s' :
  restart wf quantum_force clean_force s = (r, s') -> rs s' = rs s.
Proof.
  unfold restart, recompute_psi, mbind, M_bind, modify, get.
  cbn [set_step kind rs].
  destruct (kind s).
  - destruct (wf (rs s)) as [lp sg]. cbn. by intros [= _ <-].
  - destruct (qforce _ _ _ _) as [[e | [f [lp sg]]] s1] eqn:Eq;
      apply qforce_pure in Eq as ->; cbn; by intros [= _ <-].
Qed.

(** The constructor clones the caller's tensor and touches nothing that
    was in the store. *)
Lemma stored_init_extends h rs0 x k t ma nf thr ta nd nc h' o :
  h !! rs0 = Some (TPos x) ->
  stored_init wf quantum_force clean_force h rs0 k t ma nf thr ta nd nc
    = inr (h', o) ->
  well_stored (h', o)
  /\ l_rs o <> rs0
  /\ h' !! l_rs o = Some (TPos x)
  /\ dom h ⊆ dom h'
  /\ forall l, l ∈ dom h -> h' !! l = h !! l /\ (l ∉ owned o).
Proof.
  intros Hx. unfold stored_init. rewrite Hx.
  destruct (init _ _ _ k x t ma nf thr ta nd nc) as [e | s] eqn:Ei; [done |].
  assert (rs s = x) as Hrs.
  { unfold init in Ei.
    destruct ((restart _ _ _;; modify (set_totalstep 0%Z)) _)
      as [[e | u] s1] eqn:Er; [done |].
    injection Ei as <-.
    apply bind_inr in Er as (u1 & s2 & Er & Em).
    unfold modify in Em. injection Em as _ <-.
    by apply restart_rs in Er. }
  repeat alloc_step. intros [= <- <-].
  unfold well_stored. cbn [fst snd].
  assert (rs0 ∈ dom h) as Hin' by (apply elem_of_dom; eauto).
  split_and!.
  - intros y Hy. apply elem_of_owned in Hy.
    cbn [l_rs l_log_psis l_sign_psis l_forces l_ages] in Hy.
    destruct Hy as [-> | [-> | [-> | [-> | ->]]]]; auto 10.
  - cbn [l_rs]. intros ->. by apply Hfresh.
  - cbn [l_rs]. rewrite Hother3, Hother2, Hother1, Hother0 by auto 10.
    by rewrite Hlook, Hrs.
  - intros y Hy. auto 10.
  - intros y Hy. split.
    + rewrite Hother3, Hother2, Hother1, Hother0, Hother by auto 10. done.
    + intros Hc. apply elem_of_owned in Hc.
      cbn [l_rs l_log_psis l_sign_psis l_forces l_ages] in Hc.
      destruct Hc as [-> | [-> | [-> | [-> | ->]]]].
      * by apply Hfresh.
      * apply Hfresh1. auto 10.
      * apply Hfresh2. auto 10.
      * apply Hfresh0. auto 10.
      * apply Hfresh3. auto 10.
Qed.

End StorageFacts.

(** The [age] array of the returned diagnostics is not one of the
    clones: on the CPU it is the tensor of age counters itself. *)
Lemma info_age_is_the_counter_tensor
    (quantum_force : positions -> lu_info + (positions * (list Q * list Q)))
    (clean_force : positions -> positions -> Q -> positions)
    (exp sqrt : Q -> Q) (d : draws) (c c' : gmap loc tensor * stored)
    (smp : stored_sample) :
  well_stored c ->
  stored_step quantum_force clean_force exp sqrt false d c = (inr smp, c') ->
  ref_age smp = l_ages c'.2 /\ ref_age smp ∈ owned c'.2.
Proof.
  intros Hw Hs.
  destruct (stored_step_extends _ _ _ _ _ _ _ _ _ Hs Hw) as (_ & _ & Hsmp).
  destruct (Hsmp smp eq_refl) as (_ & _ & _ & _ & _ & _ & _ & _ & _ & _ & _
                                   & _ & Ha).
  rewrite (Ha eq_refl). split; [done |]. apply elem_of_owned. auto 10.
Qed.


(** ** [sample_wf]: further properties of the loop *)

Section SampleWfMore.

Variable pairwise_self_distance : positions -> list (list Q).
Variable local_energy : positions -> list Q.
Variable block_size : nat.

Local Abbreviation iter :=
  (sample_wf_iter pairwise_self_distance local_energy block_size).
Local Abbreviation run :=
  (sample_wf_run pairwise_self_distance local_energy block_size).
Local Abbreviation accum := (accumulate local_energy block_size).

(** A window that still starts with two zeros cannot declare
    equilibrium: after the push its oldest slot is zero. *)
Lemma iter_leading_zero st step rs z v :
  calculating_energy st = false ->
  (if (step =? 0)%Z then Some (repeat 0%Q (5 * block_size))
   else dist_means st) = Some (repeat 0%Q (S (S z)) ++ v) ->
  iter st step rs
  = inr (WfState (blocks st) false (buffer st) (buffer_rs st)
           (Some (repeat 0%Q (S z)
                  ++ v ++ [mean (concat (pairwise_self_distance rs))])),
         []).
Proof.
  intros Hc Hw. unfold sample_wf_iter. rewrite Hw, Hc.
  cbn [repeat app push_window]. rewrite <- app_assoc.
  unfold equilibrated. cbn [repeat app hd]. done.
Qed.

Lemma run_warming ins :
  forall st,
  calculating_energy st = false ->
  length ins < 5 * block_size ->
  match ins with
  | [] => True
  | (step, _) :: _ =>
      step = 0%Z
      \/ exists z v, dist_means st = Some (repeat 0%Q z ++ v) /\ length ins < z
  end ->
  exists st',
    run st ins = ([], inr st')
    /\ calculating_energy st' = false
    /\ blocks st' = blocks st /\ buffer st' = buffer st.
Proof.
  induction ins as [| [step rs] ins IH]; intros st Hc Hlen Hw.
  - by exists st.
  - cbn [length] in Hlen.
    assert (exists z v,
      (if (step =? 0)%Z then Some (repeat 0%Q (5 * block_size))
       else dist_means st) = Some (repeat 0%Q (S (S z)) ++ v)
      /\ length ins < S z) as (z & v & Hb & Hz).
    { destruct (step =? 0)%Z eqn:E.
      - destruct (5 * block_size) as [| [| z]] eqn:E5; [lia | lia |].
        exists z, []. rewrite app_nil_r. split; [done | lia].
      - apply Z.eqb_neq in E. destruct Hw as [-> | (z & v & Hd & Hz)]; [done |].
        cbn [length] in Hz. destruct z as [| [| z]]; [lia | lia |].
        exists z, v. split; [done | lia]. }
    cbn [sample_wf_run]. rewrite (iter_leading_zero _ _ _ _ _ Hc Hb).
    set (st1 := WfState _ _ _ _ _).
    destruct (IH st1) as (st' & -> & Hc' & Hbl & Hbu);
      [done | lia | | by exists st'].
    destruct ins as [| [step' rs'] ins]; [done |].
    right. exists (S z), (v ++ [mean (concat (pairwise_self_distance rs))]).
    split; [done | exact Hz].
Qed.

(** X1.  With equilibration detection on, a run that begins at step 0
    yields nothing and commits nothing during its first
    [5 * block_size - 1] turns, whatever the samples and whatever the
    later step indices: the oldest slot of the window is still one of
    the zeros it was created with. *)
Theorem no_yield_while_window_fills (blocks0 : option (list block))
    (rs0 : positions) (rest : list (Z * positions)) :
  S (length rest) < 5 * block_size ->
  exists st',
    run (sample_wf_init blocks0 true) ((0%Z, rs0) :: rest) = ([], inr st')
    /\ calculating_energy st' = false
    /\ blocks st' = default [] blocks0
    /\ buffer st' = [].
Proof.
  intros Hlen.
  destruct (run_warming ((0%Z, rs0) :: rest) (sample_wf_init blocks0 true))
    as (st' & Hr & Hc & Hbl & Hbu); [done | done | by left |].
  by exists st'.
Qed.

(** X2.  The window is created by the turn that sees step 0.  A run
    from the initial state whose first step index is not 0 raises
    [UnboundLocalError] at once; with [block_size = 0] the window is
    empty and the first turn raises [IndexError]. *)
Theorem first_turn_errors (blocks0 : option (list block))
    (equilibrate : bool) (step : Z) (rs0 : positions)
    (rest : list (Z * positions)) :
  step <> 0%Z \/ block_size = 0 ->
  run (sample_wf_init blocks0 equilibrate) ((step, rs0) :: rest)
  = ([], inl (if (step =? 0)%Z then IndexError else UnboundLocalError)).
Proof.
  intros H. cbn [sample_wf_run]. unfold sample_wf_iter.
  destruct (step =? 0)%Z eqn:E.
  - apply Z.eqb_eq in E. destruct H as [H | ->]; [done |]. done.
  - done.
Qed.

(** [accumulate], by cases on whether the buffer becomes full. *)
Lemma accumulate_cases st step rs :
  accum st step rs
  = if S (length (buffer st)) =? block_size
    then (WfState (blocks st ++ [make_block (buffer st ++ [local_energy rs])])
            true [] [] (dist_means st),
          [Yield step
             (Some (energy_estimate
                      (blocks st
                       ++ [make_block (buffer st ++ [local_energy rs])])))
             (Some (buffer_rs st ++ [rs]))])
    else (WfState (blocks st) true (buffer st ++ [local_energy rs])
            (buffer_rs st ++ [rs]) (dist_means st), []).
Proof.
  unfold accumulate.
  replace (length (buffer st ++ [local_energy rs]))
    with (S (length (buffer st))) by (rewrite length_app; simpl; lia).
  destruct (S (length (buffer st)) =? block_size); [done |].
  by destruct (buffer st).
Qed.

(** An accumulating turn with a usable window. *)
Lemma iter_accumulating_exact st step rs :
  1 <= block_size -> step = 0%Z \/ window_ok st ->
  calculating_energy st = true ->
  exists w,
    w <> []
    /\ iter st step rs
       = inr (accum (WfState (blocks st) true (buffer st) (buffer_rs st)
                       (Some w)) step rs).
Proof.
  intros Hbs Hw Hc. unfold sample_wf_iter. rewrite Hc.
  assert (exists x tl,
    (if (step =? 0)%Z then Some (repeat 0%Q (5 * block_size))
     else dist_means st) = Some (x :: tl)) as (x & tl & ->).
  { destruct (step =? 0)%Z eqn:E.
    - destruct block_size as [| n]; [lia |]. simpl. eauto.
    - destruct Hw as [-> | (w1 & -> & Hne)]; [done |].
      destruct w1; [done | eauto]. }
  cbn -[Nat.eqb accumulate equilibrated].
  exists (tl ++ [mean (concat (pairwise_self_distance rs))]).
  split; [by destruct tl |].
  by destruct (accumulate _ _ _ step rs).
Qed.

(** The turns that fill the buffer: nothing is yielded before the last
    one, which commits the block and yields. *)
Lemma run_fills_block ins :
  forall st step rs,
  calculating_energy st = true -> starts_ok st (ins ++ [(step, rs)]) ->
  length (buffer st) = length (buffer_rs st) ->
  length (buffer st) + S (length ins) = block_size ->
  let blk := make_block
               (buffer st
                ++ map (fun x => local_energy x.2) (ins ++ [(step, rs)])) in
  exists w,
    w <> []
    /\ run st (ins ++ [(step, rs)])
       = ([Yield step (Some (energy_estimate (blocks st ++ [blk])))
             (Some (buffer_rs st ++ map snd (ins ++ [(step, rs)])))],
          inr (WfState (blocks st ++ [blk]) true [] [] (Some w))).
Proof.
  induction ins as [| [step0 rs0] ins IH]; intros st step rs Hc Hs Hl Hlen blk.
  - cbn [app] in *. cbn [length] in Hlen.
    destruct (iter_accumulating_exact st step rs) as (w & Hw & Hi);
      [lia | done | done |].
    exists w. split; [done |].
    cbn [sample_wf_run]. rewrite Hi, accumulate_cases. cbn [buffer blocks].
    assert ((S (length (buffer st)) =? block_size) = true) as ->
      by (apply Nat.eqb_eq; lia).
    done.
  - cbn [app length] in *.
    destruct (iter_accumulating_exact st step0 rs0) as (w & Hw & Hi);
      [lia | done | done |].
    cbn [sample_wf_run]. rewrite Hi, accumulate_cases. cbn [buffer blocks].
    assert ((S (length (buffer st)) =? block_size) = false) as ->
      by (apply Nat.eqb_neq; lia).
    set (st1 := WfState _ _ _ _ _).
    destruct (IH st1 step rs) as (w' & Hw' & Hr).
    + done.
    + destruct ins as [| [? ?] ?]; right; by exists w.
    + unfold st1. cbn [buffer buffer_rs]. rewrite !length_app. simpl. lia.
    + unfold st1. cbn [buffer]. rewrite length_app. simpl. lia.
    + exists w'. split; [done |]. rewrite Hr. unfold st1, blk.
      cbn [buffer buffer_rs blocks map snd app]. by rewrite <- !app_assoc.
Qed.

(** X3.  Once energies are being accumulated and the buffer is empty,
    [block_size] consecutive turns yield exactly once, at the last of
    them: the step index of that turn, the estimate over all blocks
    including the new one, and the positions of all [block_size] turns.
    The new block is made of the local energies of those turns, and the
    buffers are empty again. *)
Theorem one_block_per_block_size_turns (st : wf_state)
    (ins : list (Z * positions)) (step : Z) (rs : positions) :
  calculating_energy st = true ->
  buffer st = [] -> buffer_rs st = [] ->
  starts_ok st (ins ++ [(step, rs)]) ->
  S (length ins) = block_size ->
  let blk := make_block
               (map (fun x => local_energy x.2) (ins ++ [(step, rs)])) in
  exists w,
    run st (ins ++ [(step, rs)])
    = ([Yield step (Some (energy_estimate (blocks st ++ [blk])))
          (Some (map snd (ins ++ [(step, rs)])))],
       inr (WfState (blocks st ++ [blk]) true [] [] (Some w))).
Proof.
  intros Hc Hb Hbr Hs Hlen blk.
  destruct (run_fills_block ins st step rs) as (w & _ & Hr);
    [done | done | by rewrite Hb, Hbr | by rewrite Hb |].
  exists w. rewrite Hr, Hb, Hbr. done.
Qed.

(** One turn: blocks are only appended, and what is yielded besides the
    transition signal is one record per appended block. *)
Lemma iter_yields_per_block st step rs st' ys :
  iter st step rs = inr (st', ys) ->
  exists new,
    blocks st' = blocks st ++ new
    /\ length ys = length (filter is_transition ys) + length new.
Proof.
  unfold sample_wf_iter.
  destruct (if (step =? 0)%Z then _ else _) as [w0 |]; [| done].
  destruct (push_window w0 _) as [e | w]; [done |].
  set (declared := negb (calculating_energy st) && equilibrated block_size w).
  cbn [calculating_energy].
  destruct (calculating_energy st || declared).
  - rewrite accumulate_cases. cbn [buffer blocks buffer_rs dist_means].
    destruct (S (length (buffer st)) =? block_size); intros [= <- <-].
    + eexists [_]. split; [done |].
      destruct declared; done.
    + exists []. rewrite app_nil_r. split; [done |].
      destruct declared; done.
  - intros [= <- <-]. exists []. rewrite app_nil_r. split; [done |].
    destruct declared; done.
Qed.

(** X4.  Whatever the state and the input, a run that does not raise
    only appends to the list of blocks, and it yields an estimate
    exactly once per appended block: the records that are not the
    transition signal are as many as the new blocks. *)
Theorem one_estimate_per_block (ins : list (Z * positions)) :
  forall (st st' : wf_state) (ys : list wf_yield),
  run st ins = (ys, inr st') ->
  exists new,
    blocks st' = blocks st ++ new
    /\ length ys = length (filter is_transition ys) + length new.
Proof.
  induction ins as [| [step rs] ins IH]; intros st st' ys Hr;
    cbn [sample_wf_run] in Hr.
  - injection Hr as <- <-. exists []. by rewrite app_nil_r.
  - destruct (iter st step rs) as [e | [st1 ys1]] eqn:Hi; [done |].
    destruct (run st1 ins) as [ys2 r2] eqn:Hr2. injection Hr as <- ->.
    destruct (iter_yields_per_block _ _ _ _ _ Hi) as (new1 & Hb1 & Hl1).
    destruct (IH _ _ _ Hr2) as (new2 & Hb2 & Hl2).
    exists (new1 ++ new2). split.
    + by rewrite Hb2, Hb1, app_assoc.
    + rewrite filter_app, !length_app. lia.
Qed.

End SampleWfMore.

(** X5.  With a single walker the reported error of the energy is
    exactly zero, whatever the blocks hold: the deviation is taken
    across walkers. *)
Theorem single_walker_error_is_zero (bl : list block) :
  bl <> [] -> Forall (fun b => length b = 1) bl ->
  std_eq (std_dev (energy_estimate bl)) (Some (Sqrt 0)).
Proof.
  intros Hne Hbl. unfold energy_estimate, blocks_arr. cbn [std_dev].
  rewrite (columns_cols 1).
  - unfold cols. cbn [seq map]. unfold np_std, std. cbn [length Nat.ltb Nat.leb].
    cbn [div_sqrt std_eq radicand]. unfold variance, sq_dev, Qlen.
    cbn [map Qsum fold_right length].
    set (m := mean _).
    assert (mean [m] == m)%Q as Hm.
    { unfold mean, Qlen. cbn. field. }
    rewrite Hm. field. by cbn.
  - by destruct bl.
  - apply Forall_map. eapply Forall_impl; [exact Hbl |].
    intros b Hb. cbn. by rewrite length_map.
Qed.

(** ** The estimate as an average of local energies *)

Lemma Qsum_map_Qeq {A} (f g : A -> Q) (xs : list A) :
  Forall (fun x => (f x == g x)%Q) xs ->
  (Qsum (map f xs) == Qsum (map g xs))%Q.
Proof.
  induction 1 as [| x xs Hx _ IH]; cbn [map Qsum fold_right]; [reflexivity |].
  change (fold_right Qplus 0%Q (map f xs)) with (Qsum (map f xs)).
  change (fold_right Qplus 0%Q (map g xs)) with (Qsum (map g xs)).
  by rewrite Hx, IH.
Qed.

Lemma length_concat_uniform {A} (w : nat) (rows : list (list A)) :
  Forall (fun r => length r = w) rows ->
  length (concat rows) = length rows * w.
Proof.
  induction 1 as [| r rows Hr _ IH]; [done |].
  cbn [concat length]. rewrite length_app, IH, Hr. lia.
Qed.

(** The mean of a block over its walkers is the mean of the local
    energies that went into it. *)
Lemma block_mean_make_block (w B : nat) (buf : list (list Q)) :
  0 < B -> length buf = B -> Forall (fun r => length r = w) buf ->
  length (make_block buf) = w
  /\ (block_mean (make_block buf)
      == Qsum (map Qsum buf) / inject_Z (Z.of_nat B)
         / inject_Z (Z.of_nat w))%Q.
Proof.
  intros HB Hlen Hrows.
  assert (buf <> []) as Hne by (destruct buf; [simpl in Hlen; lia | done]).
  unfold make_block, block_mean. rewrite (columns_cols w) by done.
  split; [by rewrite length_map, length_cols |].
  rewrite map_map. cbn [nominal_value].
  unfold mean at 1, Qlen. rewrite length_map, length_cols.
  assert (map (fun col => mean col) (cols w buf)
          = map (fun col => (Qsum col / inject_Z (Z.of_nat B))%Q) (cols w buf))
    as ->.
  { unfold cols. rewrite !map_map. apply map_ext_in. intros j Hj.
    apply in_seq in Hj. unfold mean, Qlen.
    rewrite (length_column_full j w) by (done || lia). by rewrite Hlen. }
  rewrite (Qsum_map_div Qsum), Qsum_cols by done. reflexivity.
Qed.

(** X6.  When every block was made from [B] rows of local energies,
    one entry per walker, the nominal value of the estimate is the
    plain average of all local energies that were accumulated. *)
Theorem energy_is_grand_mean (w B : nat) (bufs : list (list (list Q))) :
  0 < w -> 0 < B -> bufs <> [] ->
  Forall (fun buf => length buf = B /\ Forall (fun r => length r = w) buf)
    bufs ->
  (nominal_value (energy_estimate (map make_block bufs))
   == mean (concat (concat bufs)))%Q.
Proof.
  intros Hw HB Hne Hall.
  assert (Forall (fun b => length b = w) (map make_block bufs)) as Hbl.
  { apply Forall_map. eapply Forall_impl; [exact Hall |].
    intros buf [Hl Hr]. cbn. by apply (block_mean_make_block w B). }
  rewrite (energy_nominal_mean_of_block_means w);
    [| done | by destruct bufs | done].
  unfold mean, Qlen. rewrite map_map, length_map.
  rewrite (Qsum_map_Qeq _
             (fun buf => Qsum (map Qsum buf) / inject_Z (Z.of_nat B)
                         / inject_Z (Z.of_nat w))%Q).
  2:{ eapply Forall_impl; [exact Hall |].
      intros buf [Hl Hr]. cbn. by apply (block_mean_make_block w B). }
  rewrite (Qsum_map_div
             (fun buf => Qsum (map Qsum buf) / inject_Z (Z.of_nat B))%Q).
  rewrite (Qsum_map_div (fun buf => Qsum (map Qsum buf))).
  rewrite Qsum_concat, concat_map, Qsum_concat, map_map.
  assert (length (concat (concat bufs)) = length bufs * B * w) as ->.
  { rewrite (length_concat_uniform w).
    - f_equal. apply length_concat_uniform.
      eapply Forall_impl; [exact Hall |]. by intros buf [Hl _].
    - apply Forall_concat. eapply Forall_impl; [exact Hall |].
      by intros buf [_ Hr]. }
  rewrite !Nat2Z.inj_mul, !inject_Z_mult.
  assert (~ (inject_Z (Z.of_nat w) == 0)%Q) as Hw0
    by (unfold Qeq; simpl; lia).
  assert (~ (inject_Z (Z.of_nat B) == 0)%Q) as HB0
    by (unfold Qeq; simpl; lia).
  assert (~ (inject_Z (Z.of_nat (length bufs)) == 0)%Q) as Hk0.
  { unfold Qeq. simpl. destruct bufs; [done | simpl; lia]. }
  revert Hw0 HB0 Hk0.
  generalize (Qsum (map (fun x => Qsum (map Qsum x)) bufs))
    (inject_Z (Z.of_nat w)) (inject_Z (Z.of_nat B))
    (inject_Z (Z.of_nat (length bufs))).
  intros T a b c Ha Hb Hc. field. by split_and!.
Qed.

(** ** Blocks of a single sample *)

Lemma torch_std_short (xs : list Q) : length xs <= 1 -> torch_std xs = None.
Proof.
  intros H. unfold torch_std, std.
  destruct (1 <? length xs) eqn:E; [| done].
  apply Nat.ltb_lt in E. lia.
Qed.

Lemma equilibrated_one (w : list Q) : equilibrated 1 w = false.
Proof.
  unfold equilibrated. rewrite (torch_std_short (take 1 w)).
  - cbn [float_lt]. apply andb_false_r.
  - rewrite length_take. lia.
Qed.

Section BlockOfOne.

Variable pairwise_self_distance : positions -> list (list Q).
Variable local_energy : positions -> list Q.

Local Abbreviation run1 :=
  (sample_wf_run pairwise_self_distance local_energy 1).

Lemma run_never_equilibrates ins :
  forall st,
  calculating_energy st = false -> starts_ok st ins ->
  exists st',
    run1 st ins = ([], inr st')
    /\ calculating_energy st' = false /\ blocks st' = blocks st.
Proof.
  induction ins as [| [step rs] ins IH]; intros st Hc Hs.
  - by exists st.
  - cbn [sample_wf_run]. unfold sample_wf_iter.
    assert (exists x tl,
      (if (step =? 0)%Z then Some (repeat 0%Q (5 * 1))
       else dist_means st) = Some (x :: tl)) as (x & tl & ->).
    { destruct (step =? 0)%Z eqn:E; [cbn; eauto |].
      apply Z.eqb_neq in E. destruct Hs as [-> | (w1 & -> & Hne)]; [done |].
      destruct w1; [done | eauto]. }
    cbn [push_window]. rewrite Hc, equilibrated_one. cbn.
    set (st1 := WfState _ _ _ _ _).
    destruct (IH st1) as (st' & -> & Hc' & Hb); [done | |].
    + destruct ins as [| [? ?] ?]; [done |]. right.
      eexists. split; [reflexivity |]. by destruct tl.
    + by exists st'.
Qed.

(** X25.  With [block_size = 1] both standard deviations of the
    equilibrium test are taken over a single value and are NaN, so the
    test never passes: with equilibration detection on, a run that
    begins at step 0 never yields and never commits a block, however
    long it is. *)
Theorem block_size_one_never_equilibrates (blocks0 : option (list block))
    (rs0 : positions) (rest : list (Z * positions)) :
  exists st',
    run1 (sample_wf_init blocks0 true) ((0%Z, rs0) :: rest) = ([], inr st')
    /\ calculating_energy st' = false
    /\ blocks st' = default [] blocks0.
Proof.
  destruct (run_never_equilibrates ((0%Z, rs0) :: rest)
              (sample_wf_init blocks0 true)) as (st' & Hr & Hc & Hb);
    [done | by left |].
  by exists st'.
Qed.

End BlockOfOne.

Lemma length_column_one {A} (j : nat) (row : list A) :
  length (column j [row]) <= 1.
Proof. unfold column. cbn. destruct (row !! j); cbn; lia. Qed.

(** X26.  A block made from a single row of local energies carries a
    mean and a NaN uncertainty for every walker: the Bessel-corrected
    deviation of one value is undefined. *)
Theorem block_of_one_sample_has_nan_errors (row : list Q) :
  length (make_block [row]) = length row
  /\ Forall (fun u => std_dev u = None) (make_block [row])
  /\ forall j x, row !! j = Some x ->
       exists u, make_block [row] !! j = Some u
                 /\ (nominal_value u == x)%Q.
Proof.
  unfold make_block, columns, cols. cbn [hd]. split_and!.
  - by rewrite !length_map, length_seq.
  - apply Forall_map, Forall_map, Forall_forall. intros j _.
    cbn [std_dev].
    by rewrite (torch_std_short _ (length_column_one j row)).
  - intros j x Hj.
    exists (UFloat (mean (column j [row]))
              (div_sqrt (torch_std (column j [row])) (Qlen [row]))).
    split.
    + rewrite map_map.
      unfold block.
      rewrite list_lookup_fmap, lookup_seq_lt by by eapply lookup_lt_Some.
      done.
    + cbn. unfold column. cbn. rewrite Hj. cbn. unfold mean, Qlen. cbn.
      field.
Qed.

(** ** A restart that fails *)

Lemma gather_in_range (x : positions) (idx : list nat) :
  Forall (fun i => i < length x) idx ->
  gather x idx = inr (omap (fun i => x !! i) idx).
Proof.
  intros Hall. unfold gather.
  destruct (mapM (fun i => x !! i) idx) as [l |] eqn:E.
  - f_equal. symmetry. revert l E.
    induction idx as [| i idx IH]; intros l; cbn.
    + by intros [= <-].
    + apply Forall_cons in Hall as [Hi Hall].
      destruct (x !! i) as [y |]; cbn; [| done].
      destruct (mapM (fun i => x !! i) idx) as [l' |]; cbn; [| done].
      intros [= <-]. by rewrite (IH Hall l').
  - exfalso. apply mapM_None, Exists_exists in E as (i & Hi & Hn).
    rewrite Forall_forall in Hall. specialize (Hall i Hi).
    apply lookup_ge_None in Hn. lia.
Qed.

Section RestartFails.

Variable wf : positions -> list Q * list Q.
Variable quantum_force :
  positions -> lu_info + (positions * (list Q * list Q)).
Variable clean_force : positions -> positions -> Q -> positions.
Variable sqrt : Q -> Q.

Local Abbreviation restart' := (restart wf quantum_force clean_force).
Local Abbreviation propagate_all' :=
  (propagate_all wf quantum_force clean_force sqrt).

Lemma restart_fails (s : sampler) (info : lu_info) :
  kind s = Langevin ->
  quantum_force (rs s) = inl info ->
  Forall (fun i => i < length (rs s)) (idxs info) ->
  restart' s
  = (inl (LUFactError
            (LuInfo (idxs info) (Some (omap (fun i => rs s !! i) (idxs info))))),
     set_step 0%Z s).
Proof.
  intros Hk Hq Hin.
  unfold restart, recompute_psi, qforce, mbind, M_bind, modify, get, lift,
    raise, mret, M_ret.
  cbn. rewrite Hk, Hq, gather_in_range by done. done.
Qed.

(** X27.  Unlike a step, a restart that fails in the force computation
    does not leave the Langevin sampler as it was: the step counter has
    already been reset, and after a failed [propagate_all] the positions
    are already the proposed ones, while log-amplitudes, signs, forces
    and ages still belong to the old positions. *)
Theorem failed_restart_is_not_rolled_back (noise : positions) (s : sampler)
    (x : positions) (info : lu_info) :
  kind s = Langevin ->
  quantum_force x = inl info ->
  Forall (fun i => i < length x) (idxs info) ->
  let e := LUFactError
             (LuInfo (idxs info) (Some (omap (fun i => x !! i) (idxs info)))) in
  (x = rs s -> restart' s = (inl e, set_step 0%Z s))
  /\ (x = proposal sqrt s noise ->
      propagate_all' noise s = (inl e, set_step 0%Z (set_rs x s))).
Proof.
  intros Hk Hq Hin e. split.
  - intros ->. by apply restart_fails.
  - intros Hx. unfold propagate_all.
    erewrite bind_eval by reflexivity. rewrite <- Hx.
    by apply restart_fails.
Qed.

End RestartFails.

(** ** The step: further properties *)

Lemma zip_with3_all_true {A} (x y : list A) (l : list bool) :
  length x = length l -> length y = length l ->
  zip_with3 (fun a b (m : bool) => if m then b else a) x y
    (map (fun _ => true) l) = y.
Proof.
  revert y l. induction x as [| a x IH]; intros [| b y] [| m l]; try done.
  cbn [length map zip_with3]. intros [=] [=]. f_equal. by apply IH.
Qed.

Lemma assign_where_all_true {A} (x y z : list A) (l : list bool) :
  assign_where x y (map (fun _ => true) l) = inr z -> z = y.
Proof.
  unfold assign_where. rewrite length_map.
  destruct (length x =? length l) eqn:Ex; [| done].
  destruct (length y =? length l) eqn:Ey; [| done].
  apply Nat.eqb_eq in Ex, Ey. intros [= <-]. by apply zip_with3_all_true.
Qed.

Lemma count_occ_all_true {A} (l : list A) :
  count_occ bool_dec (map (fun _ => true) l) true = length l.
Proof. induction l as [| a l IH]; [done |]. cbn. by rewrite IH. Qed.

Lemma ages_all_reset (ages : list Z) (l : list bool) :
  length l = length ages ->
  zip_with (fun a (m : bool) => if m then 0%Z else wrap64 (a + 1)) ages
    (map (fun _ => true) l)
  = map (fun _ => 0%Z) ages.
Proof.
  revert l. induction ages as [| a ages IH]; intros [| m l]; try done.
  cbn [length map zip_with]. intros [=]. f_equal. by apply IH.
Qed.

(** The accepted walkers are those whose age is zero afterwards. *)
Lemma count_reset_ages (ages : list Z) (accepted : list bool) :
  length accepted = length ages ->
  Forall (fun a => (0 <= a < 2 ^ 63 - 1)%Z) ages ->
  count_occ Z.eq_dec
    (zip_with (fun a (m : bool) => if m then 0%Z else wrap64 (a + 1)) ages
       accepted) 0%Z
  = count_occ bool_dec accepted true.
Proof.
  revert accepted.
  induction ages as [| a ages IH]; intros [| m accepted] Hlen Hall; try done.
  apply Forall_cons in Hall as [Ha Hall]. injection Hlen as Hlen.
  cbn [zip_with]. destruct m.
  - rewrite !count_occ_cons_eq by done. f_equal. by apply IH.
  - rewrite wrap64_small by lia.
    rewrite !count_occ_cons_neq by (done || lia). by apply IH.
Qed.

Lemma count_occ_le_length {A} (dec : forall x y : A, {x = y} + {x <> y})
    (l : list A) (x : A) :
  count_occ dec l x <= length l.
Proof.
  induction l as [| a l IH]; [done |]. cbn. destruct (dec a x); lia.
Qed.

Lemma Qfraction_unit (c n : nat) :
  c <= n -> 0 < n ->
  (0 <= inject_Z (Z.of_nat c) / inject_Z (Z.of_nat n) <= 1)%Q.
Proof.
  intros Hc Hn.
  assert (0 < inject_Z (Z.of_nat n))%Q as Hpos
    by (unfold Qlt; simpl; lia).
  split.
  - apply Qle_shift_div_l; [done |]. unfold Qle. simpl. lia.
  - apply Qle_shift_div_r; [done |]. unfold Qle. simpl. lia.
Qed.

Lemma Qpos_neq0 (x : Q) : (0 < x)%Q -> ~ (x == 0)%Q.
Proof. intros H Hz. rewrite Hz in H. by apply Qlt_irrefl in H. Qed.

Section StepMore.

Variable wf : positions -> list Q * list Q.
Variable quantum_force :
  positions -> lu_info + (positions * (list Q * list Q)).
Variable clean_force : positions -> positions -> Q -> positions.
Variable exp : Q -> Q.
Variable sqrt : Q -> Q.

Local Abbreviation acceptance_prob' :=
  (acceptance_prob quantum_force clean_force exp).
Local Abbreviation step' := (step quantum_force clean_force exp sqrt).
Local Abbreviation iter' :=
  (iter_with_info quantum_force clean_force exp sqrt).
Local Abbreviation restart' := (restart wf quantum_force clean_force).
Local Abbreviation propagate_all' :=
  (propagate_all wf quantum_force clean_force sqrt).

(** X7.  An instance of the base class can be restarted, which only
    evaluates the wave function, but it cannot take a step: the step
    raises in [acceptance_prob] before any attribute is written, and so
    does the sequence built on it at its first turn. *)
Theorem metropolis_sampler_cannot_step (d : draws) (ds : list draws) (i : Z)
    (s : sampler) :
  kind s = Metropolis ->
  step' d s = (inl AttributeError, s)
  /\ iter' i (d :: ds) s = (inl AttributeError, s)
  /\ exists s',
       restart' s = (inr tt, s')
       /\ kind s' = Metropolis /\ rs s' = rs s
       /\ (log_psis s', sign_psis s') = wf (rs s).
Proof.
  intros Hk.
  assert (step' d s = (inl AttributeError, s)) as Hstep.
  { unfold step. erewrite bind_eval by reflexivity.
    apply bind_raise. unfold acceptance_prob.
    erewrite bind_eval by reflexivity. by rewrite Hk. }
  split_and!; [done | |].
  - cbn [iter_with_info]. by apply bind_raise.
  - unfold restart, recompute_psi, mbind, M_bind, modify, get. cbn.
    rewrite Hk. destruct (wf (rs s)) as [lp sg]. cbn.
    eexists. by split_and!.
Qed.

(** What [acceptance_mask] returns during the certain first steps. *)
Lemma acceptance_mask_certain s Ps_acc uniform new_log :
  (_step s < n_first_certain s)%Z ->
  exists l : list bool,
    acceptance_mask s Ps_acc uniform new_log = map (fun _ => true) l.
Proof.
  intros H. unfold acceptance_mask.
  apply Z.ltb_lt in H. rewrite H. eauto.
Qed.

(** A completed step taken while the step counter is below
    [n_first_certain]. *)
Lemma step_all_accepted (d : draws) (s s' : sampler) (smp : sample) :
  step' d s = (inr smp, s') ->
  (_step s < n_first_certain s)%Z ->
  exists Ps_acc cand_log cand_sign cand_force,
    acceptance_prob' (proposal sqrt s (randn d)) s
      = (inr (Ps_acc, cand_log, cand_sign, [cand_force]), s)
    /\ rs s' = proposal sqrt s (randn d)
    /\ log_psis s' = cand_log
    /\ sign_psis s' = cand_sign
    /\ forces s' = cand_force
    /\ _ages s' = map (fun _ => 0%Z) (_ages s)
    /\ (acceptance (sample_info smp) == 1)%Q.
Proof.
  intros (Ps & lg & sg & ex & Hacc & Hlen & Hages & Hrs & Hlog & Hsign
          & Hextra & _ & _ & _ & _ & Hw & ->)%step_inr Hn.
  cbv zeta in *.
  destruct (acceptance_prob_extra _ _ _ _ _ _ _ _ _ _ Hacc) as (Hk & f & ->).
  unfold extra_vars in Hextra. rewrite Hk in Hextra.
  destruct (acceptance_mask_certain s Ps (rand d) lg Hn) as [l Hl].
  rewrite Hl in *. rewrite length_map in Hlen.
  pose proof Hrs as Hrs'. apply assign_where_inr in Hrs' as (Hl1 & _).
  rewrite length_map in Hl1.
  apply assign_where_all_true in Hrs, Hlog, Hsign, Hextra.
  exists Ps, lg, sg, f. split_and!; try done.
  - rewrite Hages. by apply ages_all_reset.
  - cbn [sample_info acceptance]. rewrite count_occ_all_true.
    unfold Qlen. rewrite Hl1.
    assert (~ (inject_Z (Z.of_nat (length l)) == 0)%Q) as Hne
      by (unfold Qeq; simpl; lia).
    field. done.
Qed.

(** X8.  While the step counter is below [n_first_certain], a
    completed step accepts every walker whatever was drawn: positions,
    log-amplitudes, signs and forces are the candidate's, every age is
    zero and the reported acceptance is 1. *)
Theorem first_steps_accept_everything (d : draws) (s s' : sampler)
    (smp : sample) :
  step' d s = (inr smp, s') ->
  (_step s < n_first_certain s)%Z ->
  exists Ps_acc cand_log cand_sign cand_force,
    acceptance_prob' (proposal sqrt s (randn d)) s
      = (inr (Ps_acc, cand_log, cand_sign, [cand_force]), s)
    /\ rs s' = proposal sqrt s (randn d)
    /\ log_psis s' = cand_log
    /\ sign_psis s' = cand_sign
    /\ forces s' = cand_force
    /\ _ages s' = map (fun _ => 0%Z) (_ages s)
    /\ (acceptance (sample_info smp) == 1)%Q.
Proof. apply step_all_accepted. Qed.

(** A walker that has reached the maximal age is accepted. *)
Lemma acceptance_mask_max_age s Ps_acc uniform new_log m i a (b : bool) :
  max_age s = Some m ->
  acceptance_mask s Ps_acc uniform new_log !! i = Some b ->
  _ages s !! i = Some a -> (m <= a)%Z -> b = true.
Proof.
  intros Hm Hb Ha Hle. unfold acceptance_mask in Hb. rewrite Hm in Hb.
  destruct (_step s <? n_first_certain s)%Z.
  - rewrite list_lookup_fmap in Hb.
    destruct (_ !! i); [by injection Hb as <- | done].
  - apply lookup_zip_with_Some in Hb as (x & y & -> & _ & Hy).
    rewrite list_lookup_fmap, Ha in Hy. injection Hy as <-.
    apply Z.leb_le in Hle. rewrite Hle. apply orb_true_r.
Qed.

(** X9.  With a maximal age [m] set, ages never exceed it: when every
    age is between 0 and [m] before a completed step, so it is
    afterwards, and a walker whose age had reached [m] has moved (its
    age is 0). *)
Theorem max_age_bounds_ages (d : draws) (s s' : sampler) (smp : sample)
    (m : Z) :
  step' d s = (inr smp, s') ->
  max_age s = Some m -> (0 <= m < 2 ^ 63)%Z ->
  Forall (fun a => (0 <= a <= m)%Z) (_ages s) ->
  Forall (fun a => (0 <= a <= m)%Z) (_ages s')
  /\ forall i a, _ages s !! i = Some a -> (m <= a)%Z ->
       _ages s' !! i = Some 0%Z
       /\ rs s' !! i = proposal sqrt s (randn d) !! i.
Proof.
  intros (Ps & lg & sg & ex & Hacc & Hlen & Hages & Hrs & _)%step_inr
         Hm Hrange Hall.
  cbv zeta in *. split.
  - apply Forall_lookup. intros i a' Hi. rewrite Hages in Hi.
    apply lookup_zip_with_Some in Hi as (a & b & -> & Ha & Hb).
    pose proof (Forall_lookup_1 _ _ _ _ Hall Ha) as Hbound. cbn in Hbound.
    destruct b; [lia |].
    destruct (Z_lt_le_dec a m) as [Hlt | Hge].
    + rewrite wrap64_small by lia. lia.
    + by pose proof (acceptance_mask_max_age _ _ _ _ _ _ _ _ Hm Hb Ha Hge).
  - intros i a Ha Hge.
    destruct (lookup_lt_is_Some_2
                (acceptance_mask s Ps (rand d) lg) i) as [b Hb].
    { rewrite Hlen. by eapply lookup_lt_Some. }
    pose proof (acceptance_mask_max_age _ _ _ _ _ _ _ _ Hm Hb Ha Hge) as ->.
    split.
    + rewrite Hages, lookup_zip_with, Ha, Hb. done.
    + apply assign_where_inr in Hrs as (_ & _ & _ & Hrs).
      exact (Hrs i true Hb).
Qed.

(** The acceptance a completed step reports is a fraction. *)
Lemma acceptance_in_unit_interval (d : draws) (s s' : sampler)
    (smp : sample) :
  step' d s = (inr smp, s') ->
  (0 <= acceptance (sample_info smp) <= 1)%Q.
Proof.
  intros (Ps & lg & sg & ex & Hacc & Hlen & Hages & Hrs & _ & _ & _ & _ & _
          & _ & _ & Hw & ->)%step_inr.
  cbv zeta in *. cbn [sample_info acceptance].
  apply assign_where_inr in Hrs as (Hl1 & _).
  unfold Qlen. apply Qfraction_unit; [| lia].
  rewrite Hl1. apply count_occ_le_length.
Qed.

(** X10.  The acceptance a completed step reports lies between 0 and 1,
    and, when the ages were non-negative and inside the int64 range
    before the step, it is the fraction of the entries of the reported
    ages that are zero. *)
Theorem acceptance_is_fraction_of_reset_ages (d : draws) (s s' : sampler)
    (smp : sample) :
  step' d s = (inr smp, s') ->
  (0 <= acceptance (sample_info smp) <= 1)%Q
  /\ (Forall (fun a => (0 <= a < 2 ^ 63 - 1)%Z) (_ages s) ->
      acceptance (sample_info smp)
      = (inject_Z (Z.of_nat (count_occ Z.eq_dec (age (sample_info smp)) 0%Z))
         / Qlen (sample_rs smp))%Q).
Proof.
  intros (Ps & lg & sg & ex & Hacc & Hlen & Hages & Hrs & _ & _ & _ & _ & _
          & _ & _ & Hw & ->)%step_inr.
  cbv zeta in *. cbn [sample_info acceptance age sample_rs].
  apply assign_where_inr in Hrs as (Hl1 & _ & Hl2 & _).
  split.
  - unfold Qlen. apply Qfraction_unit; [| lia].
    rewrite Hl1. apply count_occ_le_length.
  - intros Hall. rewrite Hages, count_reset_ages by done.
    unfold Qlen. by rewrite Hl2, Hl1.
Qed.

(** X11.  With a positive target acceptance [t], one completed step
    keeps a positive step size positive and changes it by a factor
    between [0.05 / t] and [1 / t]. *)
Theorem step_size_change_is_bounded (d : draws) (s s' : sampler)
    (smp : sample) (t : Q) :
  step' d s = (inr smp, s') ->
  target_acceptance s = Some t -> (0 < t)%Q -> (0 < tau s)%Q ->
  (0 < tau s')%Q
  /\ (tau s * (5 # 100) / t <= tau s')%Q
  /\ (tau s' <= tau s / t)%Q.
Proof.
  intros Hstep Ht Htpos Htau.
  destruct (acceptance_in_unit_interval _ _ _ _ Hstep) as [_ Hle].
  apply step_inr in Hstep
    as (Ps & lg & sg & ex & _ & _ & _ & _ & _ & _ & _ & Hs' & _ & _ & _ & _
        & ->).
  cbv zeta in *. cbn [sample_info acceptance] in Hle.
  rewrite Ht in Hs'.
  assert (Qtruthy t = true) as Htr.
  { unfold Qtruthy. apply negb_true_iff, not_true_iff_false.
    rewrite Qeq_bool_iff. by apply Qpos_neq0. }
  rewrite Htr in Hs'.
  set (a := (inject_Z _ / Qlen (rs s))%Q) in *.
  set (pm := py_max a (5 # 100)) in *.
  assert (5 # 100 <= pm)%Q as Hlo by apply py_max_lower.
  assert (pm <= 1)%Q as Hhi.
  { unfold pm. destruct (py_max_cases a (5 # 100)) as [[_ ->] | [_ ->]];
      [done | exact Hle]. }
  assert (0 < pm)%Q as Hpm by (eapply Qlt_le_trans; [| exact Hlo]; done).
  assert (tau s' == tau s * pm / t)%Q as Heq.
  { rewrite Hs'. field. split; by apply Qpos_neq0. }
  rewrite Heq. split_and!.
  - apply Qlt_shift_div_l; [done |]. rewrite Qmult_0_l.
    apply Qmult_lt_0_compat; done.
  - apply Qle_shift_div_l; [done |].
    unfold Qdiv. rewrite <- Qmult_assoc, (Qmult_comm (/ t)), Qmult_assoc.
    rewrite <- (Qmult_assoc _ t), Qmult_inv_r, Qmult_1_r.
    + apply Qmult_le_l; done.
    + by apply Qpos_neq0.
  - apply Qle_shift_div_l; [done |].
    unfold Qdiv. rewrite <- Qmult_assoc, (Qmult_comm (/ t)), Qmult_inv_r,
      Qmult_1_r.
    + rewrite <- (Qmult_1_r (tau s)) at 2. apply Qmult_le_l; done.
    + by apply Qpos_neq0.
Qed.

(** X12.  [restart] is idempotent: a second restart right after the
    first returns or raises the same and leaves the same instance. *)
Theorem restart_is_idempotent (s : sampler) :
  (restart';; restart') s = restart' s.
Proof.
  destruct s as [k r t ma nf thr ta nd nc lp0 sg0 f0 ag st ts].
  unfold restart, recompute_psi, qforce, mbind, M_bind, modify, get, lift,
    raise, mret, M_ret.
  cbn. destruct k.
  - destruct (wf r) as [lp sg] eqn:E. cbn. by rewrite E.
  - destruct (quantum_force r) as [info | [f [lp sg]]] eqn:E; cbn.
    + by destruct (gather r (idxs info)).
    + by rewrite E.
Qed.

(** [restart] that returns, unfolded. *)
Lemma restart_inr (s s' : sampler) :
  restart' s = (inr tt, s') ->
  rs s' = rs s /\ tau s' = tau s /\ _totalstep s' = _totalstep s
  /\ same_config s s' /\ _step s' = 0%Z
  /\ _ages s' = map (fun _ => 0%Z) (log_psis s').
Proof.
  destruct s as [k r t ma nf thr ta nd nc lp0 sg0 f0 ag st ts].
  unfold restart, recompute_psi, qforce, mbind, M_bind, modify, get, lift,
    raise, mret, M_ret, same_config.
  cbn. destruct k.
  - destruct (wf r) as [lp sg]. cbn. intros [= <-]. cbn. by split_and!.
  - destruct (quantum_force r) as [info | [f [lp sg]]]; cbn.
    + by destruct (gather r (idxs info)).
    + intros [= <-]. cbn. by split_and!.
Qed.

(** X13.  [restart] and [propagate_all] reset the step counter and the
    ages, one zero per log-amplitude, and keep the step size, the total
    step count and the configuration; [restart] keeps the positions,
    [propagate_all] replaces all of them by the proposal.  With
    [n_first_certain] positive, the step that follows either of them
    accepts every walker. *)
Theorem restart_resets_the_chain (noise : positions) (d : draws)
    (s s1 s2 : sampler) (smp : sample) :
  restart' s = (inr tt, s1) \/ propagate_all' noise s = (inr tt, s1) ->
  tau s1 = tau s /\ _totalstep s1 = _totalstep s /\ same_config s s1
  /\ _step s1 = 0%Z /\ _ages s1 = map (fun _ => 0%Z) (log_psis s1)
  /\ (restart' s = (inr tt, s1) -> rs s1 = rs s)
  /\ (propagate_all' noise s = (inr tt, s1) -> rs s1 = proposal sqrt s noise)
  /\ ((0 < n_first_certain s)%Z -> step' d s1 = (inr smp, s2) ->
      rs s2 = proposal sqrt s1 (randn d)
      /\ (acceptance (sample_info smp) == 1)%Q).
Proof.
  intros H.
  assert (forall s0, propagate_all' noise s0 = (inr tt, s1) ->
            restart' (set_rs (proposal sqrt s0 noise) s0) = (inr tt, s1))
    as Hprop.
  { intros s0 Hp. unfold propagate_all in Hp.
    apply bind_inr in Hp as ([] & s3 & E & Hp).
    unfold modify in E. by injection E as <-. }
  assert (tau s1 = tau s /\ _totalstep s1 = _totalstep s /\ same_config s s1
          /\ _step s1 = 0%Z /\ _ages s1 = map (fun _ => 0%Z) (log_psis s1))
    as (Ht & Hts & Hcfg & Hst & Hag).
  { destruct H as [H | H].
    - apply restart_inr in H. tauto.
    - apply Hprop, restart_inr in H. cbn in H. unfold same_config in *.
      cbn in H. tauto. }
  split_and!; try done.
  - by intros (? & _)%restart_inr.
  - by intros (? & _)%Hprop%restart_inr.
  - intros Hn Hstep.
    destruct (step_all_accepted d s1 s2 smp Hstep)
      as (? & ? & ? & ? & _ & Hrs & _ & _ & _ & _ & Hacc); [| done].
    rewrite Hst. destruct Hcfg as (_ & _ & -> & _). done.
Qed.

End StepMore.

(** ** The Langevin acceptance ratio *)

Lemma log_G_ratio_nil_l (t : Q) (g r x : walker) :
  log_G_ratio t [] g r x = 0%Q.
Proof. done. Qed.

(** X14.  The logarithm of the ratio of proposal densities changes sign
    when the move is reversed, and so does the whole exponent of the
    Langevin acceptance probability: the forward and the backward move
    between two configurations have reciprocal acceptance ratios. *)
Theorem log_G_ratio_antisymmetric (t : Q) (f_old f_new r_old r_new : walker)
    (cur new : Q) :
  (log_G_ratio t f_old f_new r_old r_new
   == - log_G_ratio t f_new f_old r_new r_old)%Q
  /\ (log_G_ratio t f_old f_new r_old r_new + 2 * (new - cur)
      == - (log_G_ratio t f_new f_old r_new r_old + 2 * (cur - new)))%Q.
Proof.
  assert (log_G_ratio t f_old f_new r_old r_new
          == - log_G_ratio t f_new f_old r_new r_old)%Q as H.
  { unfold log_G_ratio. revert f_new r_old r_new.
    induction f_old as [| a f_old IH]; intros [| b f_new] [| c r_old]
      [| e r_new]; try reflexivity.
    cbn [zip_with map Qsum fold_right].
    specialize (IH f_new r_old r_new). unfold Qsum in IH. rewrite IH. ring. }
  split; [exact H |]. rewrite H. ring.
Qed.

(** ** The lazy sequences: further properties *)

(** Binding [mret] changes nothing. *)
Lemma bind_mret {A} (m : M A) (s : sampler) :
  (a ← m; mret a) s = m s.
Proof. unfold mbind, M_bind. by destruct (m s) as [[e | a] s1]. Qed.

Section SequenceMore.

Variable wf : positions -> list Q * list Q.
Variable quantum_force :
  positions -> lu_info + (positions * (list Q * list Q)).
Variable clean_force : positions -> positions -> Q -> positions.
Variable exp : Q -> Q.
Variable sqrt : Q -> Q.

Local Abbreviation step' := (step quantum_force clean_force exp sqrt).
Local Abbreviation iter' :=
  (iter_with_info quantum_force clean_force exp sqrt).
Local Abbreviation steps' := (run_steps quantum_force clean_force exp sqrt).
Local Abbreviation take' := (gen_take quantum_force clean_force exp sqrt).
Local Abbreviation samples_from' :=
  (samples_from quantum_force clean_force exp sqrt).
Local Abbreviation epoch' :=
  (iter_batches_epoch wf quantum_force clean_force exp sqrt).

Lemma step_counters d s smp s' :
  step' d s = (inr smp, s') ->
  _totalstep s' = (_totalstep s + 1)%Z /\ _step s' = (_step s + 1)%Z
  /\ n_decorrelate s' = n_decorrelate s /\ n_discard s' = n_discard s.
Proof.
  intros (? & ? & ? & ? & _ & _ & _ & _ & _ & _ & _ & _ & H1 & H2 & Hc & _)
         %step_inr.
  destruct Hc as (_ & _ & _ & _ & _ & ? & ?). by split_and!.
Qed.

Lemma run_steps_config ds :
  forall s all s',
  steps' ds s = (inr all, s') ->
  n_decorrelate s' = n_decorrelate s /\ n_discard s' = n_discard s
  /\ _totalstep s' = (_totalstep s + Z.of_nat (length ds))%Z.
Proof.
  induction ds as [| d ds IH]; intros s all s' H; cbn [run_steps] in H.
  - minv. split_and!; [done | done | cbn; lia].
  - minv. apply step_counters in E as (Ht & _ & Hc & Hd).
    apply IH in E0 as (Hc' & Hd' & Ht').
    rewrite Hc', Hd', Ht', Hc, Hd, Ht. split_and!; [done | done |].
    cbn [length]. lia.
Qed.

(** What the test of line 272 returns, read backwards. *)
Lemma yields_at_inr s i (y : bool) :
  (0 < n_decorrelate s + 1)%Z ->
  yields_at s i = inr y ->
  if y then (0 <= i)%Z /\ (i mod (n_decorrelate s + 1) = 0)%Z
  else (i < 0)%Z \/ (i mod (n_decorrelate s + 1) <> 0)%Z.
Proof.
  intros Hm. unfold yields_at.
  destruct (0 <=? i)%Z eqn:Ei.
  - apply Z.leb_le in Ei.
    destruct (n_decorrelate s + 1 =? 0)%Z eqn:Em; [done |].
    intros [= <-].
    destruct (i mod (n_decorrelate s + 1) =? 0)%Z eqn:Er.
    + by apply Z.eqb_eq in Er.
    + apply Z.eqb_neq in Er. by right.
  - apply Z.leb_gt in Ei. intros [= <-]. by left.
Qed.

Lemma gen_take_0 i ds s : take' 0 i ds s = (inr (Some []), s).
Proof. by destruct ds. Qed.

(** The number of steps [gen_take] executes for [S n] samples. *)
Lemma gen_take_cost ds :
  forall n i s r s',
  (0 < n_decorrelate s + 1)%Z ->
  take' (S n) i ds s = (inr r, s') ->
  let cost := (Z.of_nat (turns_before_yield (n_decorrelate s + 1) i) + 1
               + Z.of_nat n * (n_decorrelate s + 1))%Z in
  match r with
  | Some smps =>
      _totalstep s' = (_totalstep s + cost)%Z
      /\ _step s' = (_step s + cost)%Z
  | None => (Z.of_nat (length ds) < cost)%Z
  end.
Proof.
  induction ds as [| d ds IH]; intros n i s r s' Hm H cost;
    cbn [gen_take] in H.
  - unfold mret, M_ret in H. injection H as <- <-. unfold cost.
    cbn [length]. nia.
  - minv. rename E1 into Hy.
    apply step_counters in E as (Ht & Hst & Hc & _).
    rewrite <- Hc in Hm. apply (yields_at_inr _ _ _ Hm) in Hy.
    rewrite Hc in *. set (m := (n_decorrelate s + 1)%Z) in *.
    destruct a1.
    + destruct Hy as [Hi Hr].
      destruct (turns_yield m i Hm Hi Hr) as [Ht0 Ht1].
      minv. destruct n as [| n].
      * rewrite gen_take_0 in E. injection E as <- <-.
        cbn [fmap option_fmap option_map]. unfold cost. rewrite Ht0.
        split; lia.
      * specialize (IH n (i + 1)%Z s0 a0 s1). rewrite Hc in IH.
        specialize (IH Hm E). cbv zeta in IH. fold m in IH.
        rewrite Ht1 in IH.
        unfold cost. rewrite Ht0.
        destruct a0 as [rest |]; cbn [fmap option_fmap option_map].
        -- destruct IH as [IH1 IH2]. rewrite IH1, IH2, Ht, Hst. split; lia.
        -- cbn [length]. lia.
    + pose proof (turns_skip m i Hm Hy) as Hsk.
      specialize (IH n (i + 1)%Z s0 r s'). rewrite Hc in IH.
      specialize (IH Hm H). cbv zeta in IH. fold m in IH.
      unfold cost. rewrite Hsk.
      destruct r as [smps |].
      * destruct IH as [IH1 IH2]. rewrite IH1, IH2, Ht, Hst. split; lia.
      * cbn [length]. lia.
Qed.

(** X15.  Drawing [n] samples with [samples_from] executes exactly
    [n_discard + 1 + (n - 1) * (n_decorrelate + 1)] steps, the burn-in
    included, and returns one row per walker and sample; when fewer
    draws are supplied than that, the model runs out of draws. *)
Theorem samples_from_cost (n : nat) (ds : list draws) (s s' : sampler)
    (r : option (list row)) :
  (0 <= n_discard s)%Z -> (0 <= n_decorrelate s)%Z ->
  samples_from' n ds s = (inr r, s') ->
  let cost := (n_discard s + 1
               + (Z.of_nat n - 1) * (n_decorrelate s + 1))%Z in
  match r with
  | Some pool =>
      _totalstep s' = (_totalstep s + cost)%Z
      /\ _step s' = (_step s + cost)%Z
      /\ length pool = length (rs s) * n
  | None => (Z.of_nat (length ds) < cost)%Z
  end.
Proof.
  intros Hd Hc H cost.
  assert (Z.of_nat (turns_before_yield (n_decorrelate s + 1) (- n_discard s))
          = n_discard s) as Ht.
  { unfold turns_before_yield.
    destruct (- n_discard s <? 0)%Z eqn:E; [lia |].
    apply Z.ltb_ge in E. assert (n_discard s = 0%Z) as -> by lia.
    simpl. by rewrite ?Z.mod_0_l by lia. }
  pose proof H as Hlen.
  unfold samples_from in H. minv.
  destruct n as [| n].
  { rewrite gen_take_0 in E0. injection E0 as <- <-. discriminate H. }
  apply gen_take_cost in E0; [| lia]. cbv zeta in E0. rewrite Ht in E0.
  destruct a0 as [smps |].
  - destruct smps as [| smp smps]; [discriminate H |].
    unfold mret, M_ret in H. injection H as <- <-.
    apply samples_from_length in Hlen. destruct E0 as [E1 E2].
    unfold cost. rewrite E1, E2. split_and!; [lia | lia | done].
  - unfold mret, M_ret in H. injection H as <- <-. unfold cost. lia.
Qed.

(** X16.  The [n] samples that [zip(range(n), sampler)] takes are what
    [iter_with_info] yields over the steps executed, and the sequence
    is left right after the step that produced the last of them: no
    step is executed whose sample would be thrown away. *)
Theorem gen_take_is_a_prefix_of_the_sequence (n : nat) (i : Z)
    (ds : list draws) (s s' : sampler) (smps : list sample) :
  take' n i ds s = (inr (Some smps), s') ->
  length smps = n
  /\ exists k,
       k <= length ds
       /\ iter' i (take k ds) s = (inr smps, s')
       /\ (n = 0 -> k = 0)
       /\ forall all s1,
            steps' (take k ds) s = (inr all, s1) ->
            s1 = s' /\ (0 < n -> last smps = last all).
Proof.
  revert n i s s' smps.
  induction ds as [| d ds IH]; intros [| n] i s s' smps H;
    cbn [gen_take] in H.
  - unfold mret, M_ret in H. injection H as <- <-.
    split; [done |]. exists 0. split_and!; [lia | done | done |].
    cbn [take run_steps]. intros all s1 [= <- <-]. split; [done | lia].
  - unfold mret, M_ret in H. discriminate H.
  - unfold mret, M_ret in H. injection H as <- <-.
    split; [done |]. exists 0. split_and!; [lia | done | done |].
    cbn [take run_steps]. intros all s1 [= <- <-]. split; [done | lia].
  - minv. rename E1 into Hy. destruct a1.
    + minv. destruct a0 as [rest |]; [| discriminate H].
      unfold mret, M_ret in H. cbn in H. injection H as <- <-.
      destruct (IH _ _ _ _ _ E0) as (Hn & k & Hk & Hi & Hk0 & Hall).
      split; [cbn; by rewrite Hn |].
      exists (S k). split; [cbn; lia |]. split; [| split; [done |]].
      * cbn [take iter_with_info].
        erewrite bind_eval by exact E. erewrite bind_eval by reflexivity.
        erewrite bind_eval by (unfold lift; by rewrite Hy).
        by erewrite bind_eval by exact Hi.
      * intros all sf Hs. cbn [take run_steps] in Hs.
        erewrite bind_eval in Hs by exact E. minv.
        destruct (Hall _ _ E1) as [-> Hlast]. split; [done |]. intros _.
        destruct n as [| n].
        -- rewrite (Hk0 eq_refl) in E1. cbn in E1.
           unfold mret, M_ret in E1. injection E1 as <- _.
           by destruct rest.
        -- by rewrite !last_cons, (Hlast ltac:(lia)).
    + destruct (IH _ _ _ _ _ H) as (Hn & k & Hk & Hi & Hk0 & Hall).
      split; [done |].
      exists (S k). split; [cbn; lia |]. split; [| split; [done |]].
      * cbn [take iter_with_info].
        erewrite bind_eval by exact E. erewrite bind_eval by reflexivity.
        erewrite bind_eval by (unfold lift; by rewrite Hy).
        by erewrite bind_eval by exact Hi.
      * intros all sf Hs. cbn [take run_steps] in Hs.
        erewrite bind_eval in Hs by exact E. minv.
        destruct (Hall _ _ E0) as [-> Hlast]. split; [done |]. intros _.
        specialize (Hlast ltac:(lia)).
        rewrite last_cons, <- Hlast.
        destruct smps as [| s0' smps]; [done |].
        rewrite last_cons. by destruct (last smps).
Qed.

(** The burn-in: while the counter is negative the steps are executed
    and nothing is yielded. *)
Lemma iter_burn_in ds :
  forall i s all s1 rest,
  (i + Z.of_nat (length ds) <= 0)%Z ->
  steps' ds s = (inr all, s1) ->
  iter' i (ds ++ rest) s = iter' (i + Z.of_nat (length ds)) rest s1.
Proof.
  induction ds as [| d ds IH]; intros i s all s1 rest Hi H;
    cbn [run_steps] in H.
  - minv. cbn. by rewrite Z.add_0_r.
  - minv. cbn [app iter_with_info length] in *.
    erewrite bind_eval by exact E. erewrite bind_eval by reflexivity.
    assert (yields_at s0 i = inr false) as Hy.
    { unfold yields_at. destruct (0 <=? i)%Z eqn:Ei; [| done].
      apply Z.leb_le in Ei. lia. }
    erewrite bind_eval by (unfold lift; by rewrite Hy).
    cbv iota. rewrite bind_mret.
    rewrite (IH (i + 1)%Z s0 a0 s2 rest ltac:(lia) E0).
    f_equal. lia.
Qed.

(** X17.  With [n_decorrelate = -1] the modulus of line 272 is zero:
    the sequence executes the burn-in and one more step, and raises
    [ZeroDivisionError] without having yielded anything. *)
Theorem zero_modulus_raises_after_burn_in (ds more : list draws) (d : draws)
    (s s1 s2 : sampler) (all : list sample) (smp : sample) :
  n_decorrelate s = (-1)%Z ->
  Z.of_nat (length ds) = n_discard s ->
  steps' ds s = (inr all, s1) ->
  step' d s1 = (inr smp, s2) ->
  iter' (- n_discard s) (ds ++ d :: more) s = (inl ZeroDivisionError, s2).
Proof.
  intros Hc Hd Hs Hstep.
  rewrite (iter_burn_in ds (- n_discard s)%Z s all s1 (d :: more)
             ltac:(lia) Hs).
  replace (- n_discard s + Z.of_nat (length ds))%Z with 0%Z by lia.
  cbn [iter_with_info].
  erewrite bind_eval by exact Hstep. erewrite bind_eval by reflexivity.
  apply run_steps_config in Hs as (Hc1 & _).
  apply step_counters in Hstep as (_ & _ & Hc2 & _).
  apply bind_raise. unfold lift, yields_at. cbn.
  by rewrite Hc2, Hc1, Hc.
Qed.

(** X18.  [iter_batches] with no walkers raises [ZeroDivisionError],
    and with [epoch_size = 0] or [batch_size = 0] it raises the
    [ValueError] of unpacking an empty [zip]; in both cases no step is
    taken and the instance is as it was. *)
Theorem iter_batches_degenerate_sizes (epoch_size batch_size : nat)
    (ds : list draws) (perm : list nat) (s : sampler) :
  length (rs s) = 0 \/ epoch_size * batch_size = 0 ->
  epoch' epoch_size batch_size ds perm s
  = (inl (if length (rs s) =? 0 then ZeroDivisionError else ValueError), s).
Proof.
  intros H. unfold iter_batches_epoch.
  erewrite bind_eval by reflexivity.
  destruct (length (rs s) =? 0) eqn:Ew.
  - by apply bind_raise.
  - apply Nat.eqb_neq in Ew. destruct H as [H | H]; [done |].
    erewrite bind_eval by reflexivity.
    apply bind_raise. rewrite H. unfold ceil_div.
    rewrite Nat.add_0_l, Nat.div_small by lia.
    unfold samples_from. erewrite bind_eval by reflexivity.
    by erewrite bind_eval by apply gen_take_0.
Qed.

End SequenceMore.

(** ** The loader *)

Lemma concat_chunks {A} (b : nat) (l : list A) (n : nat) :
  concat (map (fun k => take b (drop (k * b) l)) (seq 0 n)) = take (n * b) l.
Proof.
  induction n as [| n IH]; [by rewrite take_0 |].
  rewrite seq_S, map_app, concat_app, IH. cbn [map concat plus].
  rewrite app_nil_r, take_take_drop. f_equal. lia.
Qed.

Lemma omap_lookup_perm {A} (pool : list A) (perm : list nat) :
  perm ≡ₚ seq 0 (length pool) ->
  omap (fun i => pool !! i) perm ≡ₚ pool.
Proof.
  intros Hp. rewrite Hp. by rewrite omap_lookup_seq.
Qed.

(** X19.  When the loader's order is a permutation of the row indices,
    the batches of an epoch use every row at most once, and fewer than
    [batch_size] rows are left out. *)
Theorem batches_use_each_row_once (pool : list row) (batch_size : nat)
    (perm : list nat) :
  0 < batch_size -> perm ≡ₚ seq 0 (length pool) ->
  concat (data_loader pool batch_size perm) ⊆+ pool
  /\ length (concat (data_loader pool batch_size perm))
     = length pool / batch_size * batch_size
  /\ length pool - length (concat (data_loader pool batch_size perm))
     < batch_size.
Proof.
  intros Hb Hp. unfold data_loader. rewrite concat_chunks.
  pose proof (omap_lookup_perm pool perm Hp) as Hperm.
  assert (length (omap (fun i => pool !! i) perm) = length pool) as Hlen
    by by rewrite Hperm.
  rewrite Hlen.
  assert (length pool / batch_size * batch_size <= length pool) as Hle.
  { rewrite Nat.mul_comm. apply Nat.Div0.mul_div_le. }
  split_and!.
  - rewrite <- Hperm at 2. apply sublist_submseteq, sublist_take.
  - rewrite length_take. lia.
  - rewrite length_take, Hlen.
    pose proof (Nat.div_mod_eq (length pool) batch_size).
    pose proof (Nat.mod_upper_bound (length pool) batch_size). lia.
Qed.

(** ** [rand_from_mf]: where the electrons are put *)

Lemma try_map_inr {A B} (f : A -> torch_exn + B) (g : A -> B) (l : list A) :
  Forall (fun x => f x = inr (g x)) l -> try_map f l = inr (map g l).
Proof.
  induction 1 as [| x l Hx _ IH]; [done |].
  cbn [try_map map]. by rewrite Hx, IH.
Qed.

Lemma zip_with_concat_blocks {A B C} (f : A -> B -> C)
    (xss : list (list A)) (yss : list (list B)) :
  Forall2 (fun xs ys => length xs = length ys) xss yss ->
  zip_with f (concat xss) (concat yss)
  = concat (zip_with (zip_with f) xss yss).
Proof.
  induction 1 as [| xs ys xss yss Hl _ IH]; [done |].
  cbn [concat zip_with]. rewrite zip_with_app by done. by rewrite IH.
Qed.

Lemma chunks_S {A} (flat : list A) (n c : nat) :
  chunks flat (S n) c = take c flat :: chunks (drop c flat) n c.
Proof.
  unfold chunks. cbn [seq map]. rewrite Nat.mul_0_l, drop_0. f_equal.
  rewrite <- seq_shift, map_map. apply map_ext. intros i.
  by rewrite drop_drop.
Qed.

Lemma chunks_concat {A} (rows : list (list A)) (c : nat) :
  Forall (fun r => length r = c) rows ->
  chunks (concat rows) (length rows) c = rows.
Proof.
  induction 1 as [| r rows Hr _ IH]; [done |].
  cbn [length concat]. rewrite chunks_S.
  rewrite take_app_length', drop_app_length' by done. by rewrite IH.
Qed.

Lemma count_occ_replicate (n x a : nat) :
  count_occ Nat.eq_dec (replicate n x) a = if decide (x = a) then n else 0.
Proof.
  induction n as [| n IH]; cbn [replicate count_occ].
  - by destruct (decide _).
  - rewrite IH. destruct (Nat.eq_dec x a), (decide (x = a)); done.
Qed.

Lemma interleave_lower (reps : list Z) :
  forall s n x, x ∈ interleave (seq s n) reps -> s <= x.
Proof.
  unfold interleave.
  induction reps as [| r reps IH]; intros s [| n] x; cbn; try by inversion 1.
  rewrite elem_of_app. intros [Hx | Hx].
  - apply elem_of_replicate in Hx as [-> _]. done.
  - apply IH in Hx. lia.
Qed.

Lemma interleave_upper (reps : list Z) :
  forall s n x, x ∈ interleave (seq s n) reps -> x < s + n.
Proof.
  unfold interleave.
  induction reps as [| r reps IH]; intros s [| n] x; cbn; try by inversion 1.
  rewrite elem_of_app. intros [Hx | Hx].
  - apply elem_of_replicate in Hx as [-> _]. lia.
  - apply IH in Hx. lia.
Qed.

Lemma interleave_blocks (n : nat) (f : nat -> list Z) (l : list nat) :
  Forall (fun b => length (f b) = n) l ->
  interleave (concat (map (fun _ => seq 0 n) l)) (concat (map f l))
  = concat (map (fun b => interleave (seq 0 n) (f b)) l).
Proof.
  unfold interleave. induction 1 as [| b l Hb _ IH]; [done |].
  cbn [map concat]. rewrite zip_with_app, concat_app, IH; [done |].
  by rewrite length_seq, Hb.
Qed.

Lemma count_occ_interleave (reps : list Z) :
  forall s a r,
  reps !! a = Some r ->
  count_occ Nat.eq_dec (interleave (seq s (length reps)) reps) (s + a)
  = Z.to_nat r.
Proof.
  induction reps as [| r0 reps IH]; intros s a r Ha; [done |].
  unfold interleave in *.
  cbn [length seq zip_with concat]. rewrite count_occ_app, count_occ_replicate.
  destruct a as [| a]; cbn in Ha.
  - injection Ha as ->. rewrite Nat.add_0_r.
    rewrite decide_True by done.
    rewrite (proj1 (count_occ_not_In Nat.eq_dec _ _)); [lia |].
    intros Hin. apply list_elem_of_In in Hin.
    apply (interleave_lower reps (S s) (length reps) s) in Hin. lia.
  - rewrite decide_False by lia.
    replace (s + S a) with (S s + a) by lia. by rewrite (IH _ _ _ Ha).
Qed.

Lemma length_interleave (reps : list Z) :
  forall s, Forall (fun r => (0 <= r)%Z) reps ->
  Z.of_nat (length (interleave (seq s (length reps)) reps)) = Zsum reps.
Proof.
  unfold interleave.
  induction reps as [| r reps IH]; intros s Hall; [done |].
  apply Forall_cons in Hall as [Hr Hall].
  cbn [length seq zip_with concat Zsum fold_right].
  rewrite length_app, length_replicate, Nat2Z.inj_add, IH by done.
  unfold Zsum. lia.
Qed.

(** The sum of a row of [repeats] after the bump. *)
Lemma Zsum_imap_bump (drawn : list nat) (row : list Z) :
  forall s,
  Zsum (imap (fun a r => if bool_decide (s + a ∈ drawn) then (r + 1)%Z else r)
          row)
  = (Zsum row
     + Z.of_nat (length (filter (fun a => a ∈ drawn) (seq s (length row)))))%Z.
Proof.
  induction row as [| r row IH]; intros s; [done |].
  cbn [imap length seq Zsum fold_right]. rewrite Nat.add_0_r.
  rewrite filter_cons.
  assert (imap ((fun a r0 => if bool_decide (s + a ∈ drawn)
                             then (r0 + 1)%Z else r0) ∘ S) row
          = imap (fun a r0 => if bool_decide (S s + a ∈ drawn)
                              then (r0 + 1)%Z else r0) row) as ->.
  { apply imap_ext. intros i x _. cbn. by replace (s + S i) with (S (s + i)) by lia. }
  fold (Zsum (imap (fun a r0 => if bool_decide (S s + a ∈ drawn)
                                then (r0 + 1)%Z else r0) row)).
  rewrite IH. fold (Zsum row).
  destruct (decide (s ∈ drawn)) as [Hin | Hout].
  - rewrite bool_decide_true by done. cbn [length]. lia.
  - rewrite bool_decide_false by done. lia.
Qed.

Lemma filter_drawn (drawn : list nat) (n : nat) :
  NoDup drawn -> Forall (fun a => a < n) drawn ->
  length (filter (fun a => a ∈ drawn) (seq 0 n)) = length drawn.
Proof.
  intros Hnd Hall. apply Permutation_length, NoDup_Permutation.
  - apply NoDup_filter, NoDup_ListNoDup, seq_NoDup.
  - done.
  - intros a. rewrite list_elem_of_filter.
    split; [tauto |]. intros Ha. split; [done |].
    apply list_elem_of_In, in_seq.
    rewrite Forall_forall in Hall. specialize (Hall a Ha). lia.
Qed.

Lemma mapM_omap {A B} (f : A -> option B) (l : list A) (k : list B) :
  mapM f l = Some k -> omap f l = k.
Proof.
  revert k. induction l as [| x l IH]; intros k; cbn.
  - by intros [= <-].
  - destruct (f x) as [y |]; cbn; [| done].
    destruct (mapM f l) as [k' |]; cbn; [| done].
    intros [= <-]. by rewrite (IH k').
Qed.

Lemma index_select_perm {A} (row : list A) (perm : list nat) :
  perm ≡ₚ seq 0 (length row) ->
  index_select row perm = inr (omap (fun j => row !! j) perm)
  /\ omap (fun j => row !! j) perm ≡ₚ row.
Proof.
  intros Hp. unfold index_select.
  destruct (mapM (fun j => row !! j) perm) as [l |] eqn:E.
  - apply mapM_omap in E as <-. split; [done |].
    rewrite Hp. by rewrite omap_lookup_seq.
  - exfalso. apply mapM_None, Exists_exists in E as (j & Hj & Hn).
    rewrite Hp in Hj. apply list_elem_of_In, in_seq in Hj.
    apply lookup_ge_None in Hn. lia.
Qed.

Lemma index_select_in_range {A} (x : list A) (index : list nat) :
  Forall (fun j => j < length x) index ->
  index_select x index = inr (omap (fun j => x !! j) index)
  /\ length (omap (fun j => x !! j) index) = length index.
Proof.
  intros Hall. unfold index_select.
  destruct (mapM (fun j => x !! j) index) as [l |] eqn:E.
  - pose proof (length_mapM _ _ _ E) as Hl.
    apply mapM_omap in E as <-. by split.
  - exfalso. apply mapM_None, Exists_exists in E as (j & Hj & Hn).
    rewrite Forall_forall in Hall. specialize (Hall j Hj).
    apply lookup_ge_None in Hn. lia.
Qed.

Lemma replicate_as_map {A} (n : nat) (x : A) :
  replicate n x = map (fun _ => x) (seq 0 n).
Proof.
  generalize 0. induction n as [| n IH]; intros s; [done |].
  cbn [replicate seq map]. f_equal. apply IH.
Qed.

Lemma length_base mf : length (base mf) = n_atoms mf.
Proof. unfold base, cs, n_atoms. by rewrite !length_map. Qed.

Lemma mf_repeats_inr mf bs samples perms :
  good_draws mf bs samples perms ->
  mf_repeats mf bs samples = inr (map (reps_of mf samples) (seq 0 bs)).
Proof.
  intros Hg. unfold mf_repeats, reps_of.
  destruct (0 <? rem_size mf)%Z eqn:E.
  - apply try_map_inr, Forall_forall. intros b Hb.
    apply list_elem_of_In, in_seq in Hb. apply Z.ltb_lt in E.
    destruct (Hg b ltac:(lia)) as [Hs _].
    destruct (Hs E) as (_ & _ & Hall). unfold bump.
    rewrite length_base. rewrite (proj2 (forallb_forall _ _)); [done |].
    intros a Ha. apply Nat.ltb_lt.
    rewrite Forall_forall in Hall. by apply Hall, list_elem_of_In.
  - by rewrite replicate_as_map.
Qed.

Lemma reps_of_facts mf bs samples perms b :
  good_draws mf bs samples perms -> b < bs ->
  Forall (fun r => (0 <= r)%Z) (base mf) -> (0 <= rem_size mf)%Z ->
  length (reps_of mf samples b) = n_atoms mf
  /\ Forall (fun r => (0 <= r)%Z) (reps_of mf samples b)
  /\ Zsum (reps_of mf samples b) = n_electrons mf.
Proof.
  intros Hg Hb Hbase Hrem. destruct (Hg b Hb) as [Hs _]. unfold reps_of.
  destruct (0 <? rem_size mf)%Z eqn:E.
  - apply Z.ltb_lt in E. destruct (Hs E) as (Hnd & Hlen & Hall).
    split_and!.
    + by rewrite length_imap, length_base.
    + apply Forall_lookup. intros a r Ha.
      apply list_lookup_imap_Some in Ha as (r0 & Hr0 & ->).
      pose proof (Forall_lookup_1 _ _ _ _ Hbase Hr0) as H0. cbn in H0.
      destruct (bool_decide _); lia.
    + pose proof (Zsum_imap_bump (samples b) (base mf) 0) as Hsum.
      cbn [plus] in Hsum. rewrite Hsum, length_base, filter_drawn by done.
      unfold rem_size in *. lia.
  - apply Z.ltb_ge in E. split_and!; [apply length_base | done |].
    unfold rem_size in *. lia.
Qed.


(** [mf_idxs] under the contract of the draws. *)
Lemma mf_idxs_inr (mf : mean_field) (bs : nat)
    (samples perms : nat -> list nat) :
  0 < bs ->
  Forall (fun r => (0 <= r)%Z) (base mf) -> (0 <= rem_size mf)%Z ->
  good_draws mf bs samples perms ->
  exists idxs,
    mf_idxs mf bs samples perms = inr idxs
    /\ length idxs = bs
    /\ forall b row, idxs !! b = Some row ->
         Z.of_nat (length row) = n_electrons mf
         /\ Forall (fun a => a < n_atoms mf) row
         /\ forall a k, base mf !! a = Some k ->
              Z.of_nat (count_occ Nat.eq_dec row a)
              = (k + if bool_decide ((0 < rem_size mf)%Z /\ a ∈ samples b)
                     then 1 else 0)%Z.
Proof.
  intros Hbs Hbase Hrem Hg.
  set (n := n_atoms mf).
  set (rows := map (fun b => interleave (seq 0 n) (reps_of mf samples b))
                 (seq 0 bs)).
  set (g := fun b => omap (fun j => interleave (seq 0 n) (reps_of mf samples b)
                                      !! j) (perms b)).
  assert (forall b, b < bs ->
            Z.of_nat (length (interleave (seq 0 n) (reps_of mf samples b)))
            = n_electrons mf) as Hrow.
  { intros b Hb.
    destruct (reps_of_facts mf bs samples perms b Hg Hb Hbase Hrem)
      as (Hl & Hpos & Hsum).
    unfold n. rewrite <- Hl. rewrite length_interleave by done. exact Hsum. }
  assert (forall b, b < bs ->
            index_select (interleave (seq 0 n) (reps_of mf samples b))
              (perms b) = inr (g b)
            /\ g b ≡ₚ interleave (seq 0 n) (reps_of mf samples b)) as Hsel.
  { intros b Hb. apply index_select_perm.
    destruct (Hg b Hb) as [_ ->].
    replace (Z.to_nat (n_electrons mf))
      with (length (interleave (seq 0 n) (reps_of mf samples b)));
      [done |].
    specialize (Hrow b Hb). lia. }
  exists (map g (seq 0 bs)). split_and!.
  - unfold mf_idxs.
    rewrite (mf_repeats_inr mf bs samples perms Hg). cbn [and_then].
    unfold repeat_interleave.
    rewrite (proj2 (forallb_forall _ _)).
    2:{ intros r Hr. apply Z.leb_le.
        apply in_concat in Hr as (l & Hl & Hr).
        apply in_map_iff in Hl as (b & <- & Hb). apply in_seq in Hb.
        destruct (reps_of_facts mf bs samples perms b Hg ltac:(lia) Hbase Hrem)
          as (_ & Hpos & _).
        rewrite Forall_forall in Hpos. by apply Hpos, list_elem_of_In. }
    cbn [and_then]. rewrite replicate_as_map.
    fold (interleave (concat (map (fun _ => seq 0 (n_atoms mf)) (seq 0 bs)))
            (concat (map (reps_of mf samples) (seq 0 bs)))).
    assert (interleave (concat (map (fun _ => seq 0 (n_atoms mf)) (seq 0 bs)))
              (concat (map (reps_of mf samples) (seq 0 bs)))
            = concat rows) as ->.
    { unfold rows, n.
      apply interleave_blocks, Forall_forall. intros b Hb.
      apply list_elem_of_In, in_seq in Hb.
      by destruct (reps_of_facts mf bs samples perms b Hg ltac:(lia) Hbase
                     Hrem) as (Hl & _). }
    assert (Forall (fun r => length r = Z.to_nat (n_electrons mf)) rows)
      as Hrows.
    { unfold rows. apply Forall_map, Forall_forall. intros b Hb.
      apply list_elem_of_In, in_seq in Hb. cbn.
      specialize (Hrow b ltac:(lia)). lia. }
    assert (length rows = bs) as Hlr
      by (unfold rows; by rewrite length_map, length_seq).
    assert (0 <= n_electrons mf)%Z as Hne.
    { specialize (Hrow 0 Hbs). lia. }
    unfold view2.
    assert ((n_electrons mf =? -1)%Z = false) as ->
      by (apply Z.eqb_neq; lia).
    rewrite (proj2 (Z.leb_le _ _) Hne).
    rewrite (length_concat_uniform _ _ Hrows), Hlr, Nat.eqb_refl.
    pose proof (chunks_concat rows _ Hrows) as Hch. rewrite Hlr in Hch.
    cbn [andb and_then]. rewrite Hch.
    rewrite (try_map_inr _ g).
    + cbn [and_then]. unfold stack.
      destruct bs; [lia |]. done.
    + apply Forall_forall. intros b Hb.
      apply list_elem_of_In, in_seq in Hb.
      unfold rows. rewrite list_lookup_fmap, lookup_seq_lt by lia.
      cbn [fmap option_fmap option_map plus]. apply Hsel. lia.
  - by rewrite length_map, length_seq.
  - intros b row Hb. rewrite list_lookup_fmap in Hb.
    destruct (seq 0 bs !! b) as [b' |] eqn:Eb; [| done].
    apply lookup_seq in Eb as [-> Hlt]. cbn in Hb. injection Hb as <-.
    destruct (Hsel b Hlt) as [_ Hperm].
    split; [rewrite Hperm; by apply Hrow |].
    split.
    { apply Forall_forall. intros a Ha. rewrite Hperm in Ha.
      apply interleave_upper in Ha. exact Ha. }
    intros a k Ha.
    rewrite (proj1 (Permutation_count_occ Nat.eq_dec _ _) Hperm).
    destruct (reps_of_facts mf bs samples perms b Hg Hlt Hbase Hrem)
      as (Hl & Hpos & _).
    assert (exists r, reps_of mf samples b !! a = Some r
              /\ r = (k + if bool_decide ((0 < rem_size mf)%Z /\ a ∈ samples b)
                          then 1 else 0)%Z) as (r & Hr & ->).
    { unfold reps_of. destruct (0 <? rem_size mf)%Z eqn:E.
      - apply Z.ltb_lt in E. eexists. split.
        + rewrite list_lookup_imap, Ha. reflexivity.
        + destruct (decide (a ∈ samples b)) as [Hin | Hout].
          * by rewrite !bool_decide_true by done.
          * rewrite !bool_decide_false by tauto. lia.
      - apply Z.ltb_ge in E. exists k. split; [done |].
        rewrite bool_decide_false by lia. lia. }
    pose proof (Forall_lookup_1 _ _ _ _ Hpos Hr) as H0. cbn in H0.
    pose proof (count_occ_interleave _ 0 a _ Hr) as Hcnt.
    rewrite Hl in Hcnt. cbn [plus] in Hcnt. fold n in Hcnt.
    rewrite Hcnt. lia.
Qed.

(** X20.  When the integer parts of the atomic cs are not
    negative and do not exceed the electron count, and the draws are
    what torch returns, every one of the [bs] walkers gets exactly
    [n_electrons] electrons, and the number of them centred on an atom
    is the integer part of its population, plus one if the multinomial
    draw of that walker picked the atom. *)
Theorem rand_from_mf_places_every_electron (mf : mean_field) (bs : nat)
    (samples perms : nat -> list nat) :
  0 < bs ->
  Forall (fun r => (0 <= r)%Z) (base mf) -> (0 <= rem_size mf)%Z ->
  good_draws mf bs samples perms ->
  exists idxs,
    mf_idxs mf bs samples perms = inr idxs
    /\ length idxs = bs
    /\ forall b row, idxs !! b = Some row ->
         Z.of_nat (length row) = n_electrons mf
         /\ forall a k, base mf !! a = Some k ->
              Z.of_nat (count_occ Nat.eq_dec row a)
              = (k + if bool_decide ((0 < rem_size mf)%Z /\ a ∈ samples b)
                     then 1 else 0)%Z.
Proof.
  intros Hbs Hbase Hrem Hg.
  destruct (mf_idxs_inr mf bs samples perms Hbs Hbase Hrem Hg)
    as (idxs & Hi & Hl & Hall).
  exists idxs. split_and!; [done | done |].
  intros b row Hb. destruct (Hall b row Hb) as (H1 & _ & H3). by split.
Qed.


Lemma length_concat_coords (coords : list (list Q)) (row : list nat) :
  Forall (fun c => length c = 3) coords ->
  Forall (fun a => a < length coords) row ->
  length (concat (omap (fun j => coords !! j) row)) = 3 * length row.
Proof.
  intros Hc Hrow.
  rewrite (length_concat_uniform 3).
  - destruct (index_select_in_range coords row Hrow) as [_ ->]. lia.
  - apply Forall_forall. intros c Hin.
    apply list_elem_of_omap in Hin as (j & _ & Hj).
    by apply (Forall_lookup_1 _ _ _ _ Hc Hj).
Qed.

Section FromMfFacts.

Variable wf : positions -> list Q * list Q.
Variable quantum_force :
  positions -> lu_info + (positions * (list Q * list Q)).
Variable clean_force : positions -> positions -> Q -> positions.

(** X21.  Under the same conditions, with three coordinates per atom
    and one normal draw per coordinate, [from_mf] hands the constructor
    [sample_size] walkers of [3 * n_electrons] coordinates each, and a
    sampler that the constructor returns holds exactly these positions,
    with both step counters at 0 and every age at 0. *)
Theorem from_mf_builds_the_sampler (k : variant) (mf : mean_field)
    (sample_size : nat) (samples perms : nat -> list nat)
    (noise : nat -> list Q) (tau0 : Q) (max_age0 : option Z)
    (n_first_certain0 : Z) (log_psi_threshold0 target_acceptance0 : option Q)
    (n_discard0 n_decorrelate0 : Z) :
  0 < sample_size ->
  Forall (fun r => (0 <= r)%Z) (base mf) -> (0 <= rem_size mf)%Z ->
  good_draws mf sample_size samples perms ->
  Forall (fun a => length (atom_coord a) = 3) (atoms mf) ->
  (forall b, b < sample_size ->
     length (noise b) = 3 * Z.to_nat (n_electrons mf)) ->
  exists rs0,
    rand_from_mf mf sample_size 1 samples perms noise = inr rs0
    /\ length rs0 = sample_size
    /\ Forall (fun w => length w = 3 * Z.to_nat (n_electrons mf)) rs0
    /\ from_mf wf quantum_force clean_force k mf sample_size samples perms
         noise tau0 max_age0 n_first_certain0 log_psi_threshold0
         target_acceptance0 n_discard0 n_decorrelate0
       = inr (init wf quantum_force clean_force k rs0 tau0 max_age0
                n_first_certain0 log_psi_threshold0 target_acceptance0
                n_discard0 n_decorrelate0)
    /\ forall s,
         init wf quantum_force clean_force k rs0 tau0 max_age0
           n_first_certain0 log_psi_threshold0 target_acceptance0
           n_discard0 n_decorrelate0 = inr s ->
         rs s = rs0 /\ kind s = k /\ tau s = tau0
         /\ _step s = 0%Z /\ _totalstep s = 0%Z
         /\ _ages s = map (fun _ => 0%Z) (log_psis s).
Proof.
  intros Hbs Hbase Hrem Hg Hcoords Hnoise.
  destruct (mf_idxs_inr mf sample_size samples perms Hbs Hbase Hrem Hg)
    as (idxs & Hi & Hl & Hall).
  set (coords := map atom_coord (atoms mf)).
  assert (Forall (fun c => length c = 3) coords) as Hc3
    by (unfold coords; by apply Forall_map).
  assert (length coords = n_atoms mf) as Hlc
    by (unfold coords, n_atoms; by rewrite length_map).
  set (centre := fun row : list nat =>
                   concat (omap (fun j => coords !! j) row)).
  assert (try_map (fun row => try! c := index_select coords row in
                             inr (concat c)) idxs
          = inr (map centre idxs)) as Hcentres.
  { apply try_map_inr, Forall_lookup. intros b row Hb. cbn.
    destruct (Hall b row Hb) as (_ & Hin & _).
    destruct (index_select_in_range coords row) as [-> _];
      [by rewrite Hlc | done]. }
  set (rs0 := imap (fun i c => zip_with Qplus c
                                 (map (fun n => (1 * n)%Q) (noise i)))
                (map centre idxs)).
  assert (rand_from_mf mf sample_size 1 samples perms noise = inr rs0)
    as Hrand.
  { unfold rand_from_mf. rewrite Hi. cbn [and_then].
    fold coords. by rewrite Hcentres. }
  exists rs0. split_and!.
  - exact Hrand.
  - unfold rs0. by rewrite length_imap, length_map.
  - apply Forall_lookup. intros b w Hw. unfold rs0 in Hw.
    apply list_lookup_imap_Some in Hw as (c & Hc & ->).
    rewrite list_lookup_fmap in Hc.
    destruct (idxs !! b) as [row |] eqn:Eb; [| done].
    cbn in Hc. injection Hc as <-.
    destruct (Hall b row Eb) as (Hlen & Hin & _).
    assert (b < sample_size) as Hlt
      by (rewrite <- Hl; by eapply lookup_lt_Some).
    rewrite length_zip_with, length_map, (Hnoise b Hlt).
    unfold centre. rewrite length_concat_coords; [lia | done |].
    by rewrite Hlc.
  - unfold from_mf. by rewrite Hrand.
  - intros s Hs. unfold init in Hs.
    destruct ((restart wf quantum_force clean_force;;
               modify (set_totalstep 0%Z)) _) as [[e | []] s1] eqn:E;
      [done |]. injection Hs as ->.
    apply bind_inr in E as ([] & s2 & Hr & Hm).
    unfold modify in Hm. injection Hm as <-.
    apply restart_inr in Hr
      as (Hrs & Htau & _ & (Hk & _) & Hst & Hag).
    cbn in *. by split_and!.
Qed.

End FromMfFacts.

Lemma length_interleave_nat (reps : list Z) :
  Forall (fun r => (0 <= r)%Z) reps ->
  length (interleave (seq 0 (length reps)) reps) = Z.to_nat (Zsum reps).
Proof. intros H. pose proof (length_interleave reps 0 H). lia. Qed.

(** X22.  [rand_from_mf] raises torch's [RuntimeError] when no walker
    is asked for (the final [stack] has nothing to stack), and when the
    integer parts of non-negative cs add up to more than the
    electron count (the [view] does not fit). *)
Theorem rand_from_mf_raises (mf : mean_field) (bs : nat) (elec_std : Q)
    (samples perms : nat -> list nat) (noise : nat -> list Q) :
  bs = 0
  \/ Forall (fun r => (0 <= r)%Z) (base mf)
     /\ (rem_size mf < 0 <= n_electrons mf)%Z ->
  rand_from_mf mf bs elec_std samples perms noise = inl RuntimeError.
Proof.
  intros H.
  assert (mf_idxs mf bs samples perms = inl RuntimeError) as Hi;
    [| unfold rand_from_mf; by rewrite Hi].
  destruct bs as [| bs'].
  - unfold mf_idxs, mf_repeats.
    assert ((if (0 <? rem_size mf)%Z
             then try_map (fun b => bump (base mf) (samples b)) (seq 0 0)
             else inr (replicate 0 (base mf))) = inr []) as ->
      by by destruct (0 <? rem_size mf)%Z.
    cbn. unfold view2. cbn.
    destruct (n_electrons mf =? -1)%Z; [done |].
    by destruct (0 <=? n_electrons mf)%Z.
  - destruct H as [H | [Hbase [Hrem Hne]]]; [done |].
    set (bs := S bs').
    unfold mf_idxs, mf_repeats.
    assert ((0 <? rem_size mf)%Z = false) as -> by (apply Z.ltb_ge; lia).
    cbn [and_then]. unfold repeat_interleave.
    rewrite (proj2 (forallb_forall _ _)).
    2:{ intros r Hr. apply Z.leb_le.
        apply in_concat in Hr as (l & Hl & Hr).
        apply list_elem_of_In, elem_of_replicate in Hl as [-> _].
        rewrite Forall_forall in Hbase. by apply Hbase, list_elem_of_In. }
    cbn [and_then]. rewrite !replicate_as_map.
    fold (interleave (concat (map (fun _ => seq 0 (n_atoms mf)) (seq 0 bs)))
            (concat (map (fun _ => base mf) (seq 0 bs)))).
    rewrite (interleave_blocks _ (fun _ => base mf)).
    2:{ apply Forall_forall. intros b _. apply length_base. }
    unfold view2.
    assert ((n_electrons mf =? -1)%Z = false) as ->
      by (apply Z.eqb_neq; lia).
    rewrite (length_concat_uniform (Z.to_nat (Zsum (base mf)))).
    2:{ apply Forall_map, Forall_forall. intros b _. cbn.
        rewrite <- length_base. by apply length_interleave_nat. }
    rewrite length_map, length_seq.
    assert ((bs * Z.to_nat (Zsum (base mf))
             =? bs * Z.to_nat (n_electrons mf)) = false) as ->.
    { apply Nat.eqb_neq. unfold rem_size in Hrem. unfold bs. nia. }
    by rewrite andb_false_r.
Qed.

(** ** Storage: the [age] array of the diagnostics *)

Lemma write_back_ages (o : stored) (s : sampler) (h : gmap loc tensor) :
  l_ages o <> l_rs o -> l_ages o <> l_log_psis o ->
  l_ages o <> l_sign_psis o -> l_ages o <> l_forces o ->
  write_back o s h !! l_ages o = Some (TInt (_ages s)).
Proof.
  intros H1 H2 H3 H4. unfold write_back.
  rewrite !lookup_insert_ne by done. apply lookup_insert_eq.
Qed.

Section AgeFacts.

Variable quantum_force :
  positions -> lu_info + (positions * (list Q * list Q)).
Variable clean_force : positions -> positions -> Q -> positions.
Variable exp : Q -> Q.
Variable sqrt : Q -> Q.
Variable cuda : bool.

Local Abbreviation sstep :=
  (stored_step quantum_force clean_force exp sqrt cuda).

(** Where the [age] array of a completed step lives. *)
Lemma stored_step_age d c smp c' :
  sstep d c = (inr smp, c') -> well_stored c ->
  l_ages c.2 <> l_rs c.2 -> l_ages c.2 <> l_log_psis c.2 ->
  l_ages c.2 <> l_sign_psis c.2 -> l_ages c.2 <> l_forces c.2 ->
  l_rs c'.2 = l_rs c.2 /\ l_log_psis c'.2 = l_log_psis c.2
  /\ l_sign_psis c'.2 = l_sign_psis c.2 /\ l_forces c'.2 = l_forces c.2
  /\ l_ages c'.2 = l_ages c.2
  /\ c'.1 !! l_ages c.2 = Some (TInt (_ages (state c'.2)))
  /\ c'.1 !! ref_age smp = Some (TInt (_ages (state c'.2)))
  /\ (if cuda
      then (ref_age smp ∉ dom c.1) /\ (ref_age smp ∈ dom c'.1)
           /\ (ref_age smp ∉ owned c'.2)
      else ref_age smp = l_ages c.2).
Proof.
  destruct c as [h o]. unfold stored_step, well_stored.
  cbn [fst snd]. intros Hr Hw D1 D2 D3 D4. revert Hr.
  pose proof (fun s l => write_back_mono o s h l) as Hwm.
  pose proof (fun s => write_back_ages o s h D1 D2 D3 D4) as Hwa.
  destruct (step _ _ _ _ d (state o)) as [[e | smp0] s'] eqn:Es; [done |].
  specialize (Hwm s'). specialize (Hwa s').
  apply step_inr in Es as (Ps & lg & sg & ex & Es). cbv zeta in Es.
  destruct Es as (_ & _ & _ & _ & _ & _ & _ & _ & _ & _ & _ & _ & Hsmp).
  assert (age (sample_info smp0) = _ages s') as Hage by by rewrite Hsmp.
  assert (forall x, x ∈ owned o -> x ∈ dom h) as Hw' by exact Hw.
  assert (l_ages o ∈ dom h) as Hin
    by (apply Hw', elem_of_owned; auto 10).
  set (h1 := write_back o s' h) in *.
  destruct cuda.
  - repeat alloc_step. intros [= <- <-].
    cbn [fst snd l_rs l_log_psis l_sign_psis l_forces l_ages state ref_age].
    replace (owned (Stored s' (l_rs o) (l_log_psis o) (l_sign_psis o)
                      (l_forces o) (l_ages o))) with (owned o) by done.
    split_and!; try done.
    + rewrite Hother2, Hother1, Hother0, Hother by auto 10. exact Hwa.
    + rewrite Hother2, Hother1, Hother0 by auto 10. by rewrite Hlook, Hage.
    + intros Hc. apply Hfresh. auto.
    + auto 10.
    + intros Hc. apply Hfresh. auto.
  - cbv beta iota. repeat alloc_step. intros [= <- <-].
    cbn [fst snd l_rs l_log_psis l_sign_psis l_forces l_ages state ref_age].
    split_and!; try done.
    + rewrite Hother1, Hother0, Hother by auto 10. exact Hwa.
    + rewrite Hother1, Hother0, Hother by auto 10. exact Hwa.
Qed.

(** X23.  On the CPU the [age] array in the diagnostics of a step is
    the sampler's own tensor of age counters: the next step returns the
    same array and overwrites it, so what was read through the first
    step's diagnostics changes.  On a CUDA device the array is a copy
    that the next step leaves alone. *)
Theorem info_age_follows_the_counters (d1 d2 : draws)
    (c c1 c2 : gmap loc tensor * stored) (smp1 smp2 : stored_sample) :
  well_stored c ->
  l_ages c.2 <> l_rs c.2 /\ l_ages c.2 <> l_log_psis c.2
  /\ l_ages c.2 <> l_sign_psis c.2 /\ l_ages c.2 <> l_forces c.2 ->
  sstep d1 c = (inr smp1, c1) ->
  sstep d2 c1 = (inr smp2, c2) ->
  c1.1 !! ref_age smp1 = Some (TInt (_ages (state c1.2)))
  /\ if cuda
     then c2.1 !! ref_age smp1 = Some (TInt (_ages (state c1.2)))
          /\ ref_age smp2 <> ref_age smp1
     else c2.1 !! ref_age smp1 = Some (TInt (_ages (state c2.2)))
          /\ ref_age smp2 = ref_age smp1.
Proof.
  intros Hw (D1 & D2 & D3 & D4) H1 H2.
  destruct (stored_step_age _ _ _ _ H1 Hw D1 D2 D3 D4)
    as (E1 & E2 & E3 & E4 & E5 & Hv1 & Hr1 & Hc1).
  destruct (stored_step_extends _ _ _ _ _ _ _ _ _ H1 Hw) as (Hw1 & _ & _).
  destruct (stored_step_extends _ _ _ _ _ _ _ _ _ H2 Hw1) as (_ & Hext & _).
  destruct (stored_step_age _ _ _ _ H2 Hw1) as (_ & _ & _ & _ & _ & Hv2 & _ & Hc2);
    [by rewrite E5, E1 | by rewrite E5, E2 | by rewrite E5, E3
    | by rewrite E5, E4 |].
  split; [exact Hr1 |].
  destruct cuda.
  - destruct Hc1 as (_ & Hin & Hno). destruct Hc2 as (Hfresh & _).
    destruct Hext as [_ Hext]. destruct (Hext _ Hin Hno) as [-> _].
    split; [exact Hr1 |]. intros Heq. apply Hfresh. by rewrite Heq.
  - rewrite Hc1, Hc2, E5. split; [| done]. by rewrite <- E5.
Qed.

End AgeFacts.

(** ** The printed form *)

Lemma string_length_app (x y : string) :
  String.length (x +:+ y) = String.length x + String.length y.
Proof.
  induction x as [| a x IH]; [done |].
  change (S (String.length (x +:+ y)) = S (String.length x + String.length y)).
  by rewrite IH.
Qed.

Lemma string_app_assoc (x y z : string) :
  (x +:+ (y +:+ z) = (x +:+ y) +:+ z)%string.
Proof.
  induction x as [| a x IH]; [done |].
  change (String a (x +:+ (y +:+ z)) = String a ((x +:+ y) +:+ z)).
  by rewrite IH.
Qed.

Lemma string_app_inj_r (x y suf : string) :
  (x +:+ suf = y +:+ suf)%string -> x = y.
Proof.
  intros H.
  assert (String.length x = String.length y) as Hlen.
  { apply (f_equal String.length) in H.
    rewrite !string_length_app in H. lia. }
  revert y H Hlen.
  induction x as [| a x IH]; intros [| b y] H Hlen; try done.
  change (String a (x +:+ suf) = String b (y +:+ suf)) in H.
  cbn in Hlen. injection H as -> H. f_equal. apply IH; [done | lia].
Qed.

(** X24.  The printed form of a sampler shows its class and its number
    of walkers and nothing else: the text after them is the same for
    every sampler, whatever its step size and its number of
    electrons. *)
Theorem repr_shows_class_and_size_only (s s' : sampler) :
  (repr s = repr s' <-> kind s = kind s' /\ len s = len s')
  /\ exists shown,
       repr s = (shown +:+ " n_electrons={self.rs.shape[1]} tau={self.tau}>")%string.
Proof.
  split.
  2:{ exists ("<" +:+ class_name (kind s) +:+ " sample_size="
              +:+ pretty (length (rs s)))%string.
      unfold repr. rewrite <- !string_app_assoc. done. }
  unfold repr, len. split.
  - intros H. apply String.app_inj in H.
    destruct (kind s), (kind s'); cbn [class_name] in H.
    + do 2 apply String.app_inj in H.
      apply string_app_inj_r, pretty_nat_inj in H. done.
    + cbv [String.append] in H. discriminate H.
    + cbv [String.append] in H. discriminate H.
    + do 2 apply String.app_inj in H.
      apply string_app_inj_r, pretty_nat_inj in H. done.
  - by intros [-> ->].
Qed.

(** ** The further properties on the running instances *)

(** Blocks of two: nothing is yielded in the first four turns. *)
Lemma no_yield_while_window_fills_witness :
  let psd := fun x : positions => x in
  let le := map Qsum in
  let rest := [(1%Z, [[2%Q]]); (2%Z, [[3%Q]]); (3%Z, [[4%Q]])] in
  S (length rest) < 5 * 2
  /\ exists st',
       sample_wf_run psd le 2 (sample_wf_init None true)
         ((0%Z, [[1%Q]]) :: rest) = ([], inr st')
       /\ calculating_energy st' = false.
Proof.
  intros psd le rest.
  assert (S (length rest) < 5 * 2) as H by (simpl; lia).
  split; [exact H |].
  destruct (no_yield_while_window_fills psd le 2 None [[1%Q]] rest H)
    as (st' & Hr & Hc & _).
  by exists st'.
Defined.

(** A run that starts at step 1, and a run with blocks of size 0. *)
Lemma first_turn_errors_witness :
  let psd := fun x : positions => x in
  let le := map Qsum in
  sample_wf_run psd le 3 (sample_wf_init None true) [(1%Z, [[1%Q]])]
    = ([], inl UnboundLocalError)
  /\ sample_wf_run psd le 0 (sample_wf_init None false) [(0%Z, [[1%Q]])]
     = ([], inl IndexError).
Proof.
  intros psd le. split.
  - apply (first_turn_errors psd le 3 None true 1%Z [[1%Q]] []).
    left. discriminate.
  - apply (first_turn_errors psd le 0 None false 0%Z [[1%Q]] []).
    by right.
Defined.

(** Blocks of two without equilibration: the second turn yields. *)
Lemma one_block_per_block_size_turns_witness :
  let psd := fun x : positions => x in
  let le := map Qsum in
  exists w,
    sample_wf_run psd le 2 (sample_wf_init None false)
      [(0%Z, [[1%Q]]); (1%Z, [[3%Q]])]
    = ([Yield 1 (Some (energy_estimate [make_block [[1%Q]; [3%Q]]]))
          (Some [[[1%Q]]; [[3%Q]]])],
       inr (WfState [make_block [[1%Q]; [3%Q]]] true [] [] (Some w))).
Proof.
  intros psd le.
  apply (one_block_per_block_size_turns psd le 2 (sample_wf_init None false)
           [(0%Z, [[1%Q]])] 1%Z [[3%Q]]); try reflexivity.
  by left.
Defined.

(** Five turns with blocks of two: two blocks, two estimates. *)
Lemma one_estimate_per_block_witness :
  let psd := fun x : positions => x in
  let le := map Qsum in
  let ins := map (fun i => (Z.of_nat i, [[inject_Z (Z.of_nat i)]]))
               (seq 0 5) in
  exists st' ys new,
    sample_wf_run psd le 2 (sample_wf_init None false) ins = (ys, inr st')
    /\ blocks st' = new
    /\ length new = 2
    /\ length ys = length (filter is_transition ys) + length new.
Proof.
  intros psd le ins.
  destruct (sample_wf_run psd le 2 (sample_wf_init None false) ins)
    as [ys [e | st']] eqn:E; [vm_compute in E; discriminate |].
  destruct (one_estimate_per_block psd le 2 ins _ _ _ E)
    as (new & Hb & Hl).
  exists st', ys, new. split_and!; [done | done | | done].
  pose proof E as Ev. vm_compute in Ev. injection Ev as _ <-.
  cbn in Hb. by subst new.
Defined.

(** One walker, two blocks. *)
Lemma single_walker_error_is_zero_witness :
  let bl := [[UFloat 1 None]; [UFloat 3 None]] in
  bl <> [] /\ Forall (fun b : block => length b = 1) bl
  /\ std_eq (std_dev (energy_estimate bl)) (Some (Sqrt 0)).
Proof.
  intros bl.
  assert (bl <> []) as H1 by discriminate.
  assert (Forall (fun b : block => length b = 1) bl) as H2
    by (repeat constructor).
  split_and!; [done | done |].
  exact (single_walker_error_is_zero bl H1 H2).
Defined.

(** Two blocks of two rows over two walkers: the average of 1, ..., 8. *)
Lemma energy_is_grand_mean_witness :
  let bufs := [[[1; 2]; [3; 4]]; [[5; 6]; [7; 8]]]%Q in
  (nominal_value (energy_estimate (map make_block bufs))
   == mean (concat (concat bufs)))%Q
  /\ (mean (concat (concat bufs)) == 9 # 2)%Q.
Proof.
  intros bufs. split; [| reflexivity].
  apply (energy_is_grand_mean 2 2 bufs); [lia | lia | discriminate |].
  repeat constructor.
Defined.

(** With blocks of one sample, twelve turns pass without a yield. *)
Lemma block_size_one_never_equilibrates_witness :
  let psd := fun x : positions => x in
  let le := map Qsum in
  let rest := map (fun i => (Z.of_nat (S i), [[inject_Z (Z.of_nat i)]]))
                (seq 0 11) in
  exists st',
    sample_wf_run psd le 1 (sample_wf_init None true) ((0%Z, [[1%Q]]) :: rest)
    = ([], inr st')
    /\ calculating_energy st' = false.
Proof.
  intros psd le rest.
  destruct (block_size_one_never_equilibrates psd le None [[1%Q]] rest)
    as (st' & Hr & Hc & _).
  exists st'. exact (conj Hr Hc).
Defined.

(** The base-class instance: restarted, but no step. *)
Lemma metropolis_sampler_cannot_step_witness :
  kind ex_metropolis = Metropolis
  /\ ex_step ex_draws ex_metropolis = (inl AttributeError, ex_metropolis)
  /\ iter_with_info ex_quantum_force ex_clean_force ex_exp ex_sqrt (-50)
       [ex_draws; ex_draws] ex_metropolis
     = (inl AttributeError, ex_metropolis)
  /\ exists s',
       restart ex_wf ex_quantum_force ex_clean_force ex_metropolis
       = (inr tt, s').
Proof.
  destruct (metropolis_sampler_cannot_step ex_wf ex_quantum_force
              ex_clean_force ex_exp ex_sqrt ex_draws [ex_draws] (-50)
              ex_metropolis eq_refl) as (H1 & H2 & s' & H3 & _).
  split_and!; [done | done | done | by exists s'].
Defined.

(** The first step after a restart moves all three walkers, whatever
    the uniform draws. *)
Lemma first_steps_accept_everything_witness :
  exists smp s',
    ex_step ex_draws ex_certain = (inr smp, s')
    /\ (_step ex_certain < n_first_certain ex_certain)%Z
    /\ rs s' = proposal ex_sqrt ex_certain (randn ex_draws)
    /\ _ages s' = [0; 0; 0]%Z
    /\ (acceptance (sample_info smp) == 1)%Q.
Proof.
  destruct (ex_step ex_draws ex_certain) as [[e | smp] s'] eqn:E;
    [vm_compute in E; discriminate |].
  assert (_step ex_certain < n_first_certain ex_certain)%Z as Hn
    by (simpl; lia).
  destruct (first_steps_accept_everything _ _ _ _ _ _ _ _ E Hn)
    as (Ps & lg & sg & f & _ & Hrs & _ & _ & _ & Hages & Hacc).
  exists smp, s'. by split_and!.
Defined.

(** The walker of age 2 moves, and no age exceeds 2 afterwards. *)
Lemma max_age_bounds_ages_witness :
  exists smp s',
    ex_step ex_draws ex_aged = (inr smp, s')
    /\ max_age ex_aged = Some 2%Z
    /\ Forall (fun a => (0 <= a <= 2)%Z) (_ages ex_aged)
    /\ Forall (fun a => (0 <= a <= 2)%Z) (_ages s')
    /\ _ages s' !! 1 = Some 0%Z.
Proof.
  destruct (ex_step ex_draws ex_aged) as [[e | smp] s'] eqn:E;
    [vm_compute in E; discriminate |].
  assert (Forall (fun a => (0 <= a <= 2)%Z) (_ages ex_aged)) as Hall
    by (repeat constructor; lia).
  destruct (max_age_bounds_ages _ _ _ _ _ _ _ _ 2%Z E eq_refl
              ltac:(lia) Hall) as [Hb Hmove].
  destruct (Hmove 1 2%Z eq_refl ltac:(lia)) as [Ha _].
  exists smp, s'. by split_and!.
Defined.

(** One walker of three is accepted: acceptance 1/3, one zero age. *)
Lemma acceptance_is_fraction_of_reset_ages_witness :
  exists smp s',
    ex_step ex_draws ex_sampler = (inr smp, s')
    /\ (0 <= acceptance (sample_info smp) <= 1)%Q
    /\ acceptance (sample_info smp)
       = (inject_Z (Z.of_nat (count_occ Z.eq_dec (age (sample_info smp)) 0%Z))
          / Qlen (sample_rs smp))%Q
    /\ age (sample_info smp) = [0; 4; 1]%Z.
Proof.
  destruct (ex_step ex_draws ex_sampler) as [[e | smp] s'] eqn:E;
    [vm_compute in E; discriminate |].
  destruct (acceptance_is_fraction_of_reset_ages _ _ _ _ _ _ _ _ E)
    as [Hunit Hfrac].
  exists smp, s'. split; [done |]. split; [exact Hunit |]. split.
  - apply Hfrac. repeat constructor; simpl; lia.
  - pose proof E as Ev. vm_compute in Ev. by injection Ev as <- _.
Defined.

(** Target 1/2, step size 1/10: the new step size is positive and
    between (1/10)(1/20)/(1/2) and (1/10)/(1/2). *)
Lemma step_size_change_is_bounded_witness :
  exists smp s',
    ex_step ex_draws ex_sampler = (inr smp, s')
    /\ target_acceptance ex_sampler = Some (1 # 2)%Q
    /\ (0 < tau s')%Q
    /\ ((1 # 10) * (5 # 100) / (1 # 2) <= tau s')%Q
    /\ (tau s' <= (1 # 10) / (1 # 2))%Q.
Proof.
  destruct (ex_step ex_draws ex_sampler) as [[e | smp] s'] eqn:E;
    [vm_compute in E; discriminate |].
  destruct (step_size_change_is_bounded _ _ _ _ _ _ _ _ (1 # 2)%Q E eq_refl)
    as (H1 & H2 & H3); [reflexivity | reflexivity |].
  exists smp, s'. by split_and!.
Defined.

(** A restart of the running instance. *)
Lemma restart_resets_the_chain_witness :
  exists s1,
    restart ex_wf ex_quantum_force ex_clean_force ex_sampler = (inr tt, s1)
    /\ tau s1 = tau ex_sampler /\ _totalstep s1 = 5%Z
    /\ _step s1 = 0%Z /\ _ages s1 = [0; 0; 0]%Z
    /\ rs s1 = rs ex_sampler.
Proof.
  destruct (restart ex_wf ex_quantum_force ex_clean_force ex_sampler)
    as [[e | []] s1] eqn:E; [vm_compute in E; discriminate |].
  destruct (restart_resets_the_chain ex_wf ex_quantum_force ex_clean_force
              ex_exp ex_sqrt [] ex_draws ex_sampler s1 s1
              (Sample [] [] [] (StepInfo 0 [] 0)) (or_introl E))
    as (Ht & Hts & _ & Hst & Hag & Hrs & _).
  exists s1. split_and!; [done | done | done | done | | by apply Hrs].
  rewrite Hag. pose proof E as Ev. vm_compute in Ev. by injection Ev as <-.
Defined.

(** A restart whose force computation fails for walker 1. *)
Lemma failed_restart_is_not_rolled_back_witness :
  kind ex_sampler = Langevin
  /\ ex_failing_force (rs ex_sampler) = inl (LuInfo [1] None)
  /\ restart ex_wf ex_failing_force ex_clean_force ex_sampler
     = (inl (LUFactError (LuInfo [1] (Some [[1%Q]]))),
        set_step 0%Z ex_sampler)
  /\ _step ex_sampler = 5%Z.
Proof.
  destruct (failed_restart_is_not_rolled_back ex_wf ex_failing_force
              ex_clean_force ex_sqrt [] ex_sampler (rs ex_sampler)
              (LuInfo [1] None) eq_refl eq_refl) as [Hr _].
  { repeat constructor. }
  split_and!; [done | done | | done].
  exact (Hr eq_refl).
Defined.

(** Two samples with a burn-in of ten and one step between samples:
    thirteen steps. *)
Lemma samples_from_cost_witness :
  exists pool s',
    samples_from ex_quantum_force ex_clean_force ex_exp ex_sqrt 2
      (repeat ex_draws 20) ex_thinned = (inr (Some pool), s')
    /\ _totalstep s' = 13%Z
    /\ length pool = 6.
Proof.
  destruct (samples_from ex_quantum_force ex_clean_force ex_exp ex_sqrt 2
              (repeat ex_draws 20) ex_thinned) as [[e | [pool |]] s'] eqn:E;
    [vm_compute in E; discriminate | | vm_compute in E; discriminate].
  pose proof (samples_from_cost ex_quantum_force ex_clean_force ex_exp
                ex_sqrt 2 (repeat ex_draws 20) ex_thinned s' (Some pool)
                ltac:(simpl; lia) ltac:(simpl; lia) E) as (Ht & _ & Hl).
  exists pool, s'. by split_and!.
Defined.

(** The same two samples are the first two that [iter_with_info]
    yields, over thirteen draws. *)
Lemma gen_take_is_a_prefix_of_the_sequence_witness :
  exists smps s' k,
    gen_take ex_quantum_force ex_clean_force ex_exp ex_sqrt 2 (-10)
      (repeat ex_draws 20) ex_thinned = (inr (Some smps), s')
    /\ length smps = 2
    /\ k <= 20
    /\ iter_with_info ex_quantum_force ex_clean_force ex_exp ex_sqrt (-10)
         (take k (repeat ex_draws 20)) ex_thinned = (inr smps, s').
Proof.
  destruct (gen_take ex_quantum_force ex_clean_force ex_exp ex_sqrt 2 (-10)
              (repeat ex_draws 20) ex_thinned) as [[e | [smps |]] s'] eqn:E;
    [vm_compute in E; discriminate | | vm_compute in E; discriminate].
  destruct (gen_take_is_a_prefix_of_the_sequence ex_quantum_force
              ex_clean_force ex_exp ex_sqrt _ _ _ _ _ _ E)
    as (Hn & k & Hk & Hi & _).
  exists smps, s', k. rewrite repeat_length in Hk. by split_and!.
Defined.

(** A burn-in of two steps, then the third step and the error. *)
Lemma zero_modulus_raises_after_burn_in_witness :
  exists s2,
    n_decorrelate ex_zero_modulus = (-1)%Z
    /\ n_discard ex_zero_modulus = 2%Z
    /\ iter_with_info ex_quantum_force ex_clean_force ex_exp ex_sqrt (-2)
         (repeat ex_draws 5) ex_zero_modulus = (inl ZeroDivisionError, s2)
    /\ _totalstep s2 = 3%Z.
Proof.
  destruct (run_steps ex_quantum_force ex_clean_force ex_exp ex_sqrt
              [ex_draws; ex_draws] ex_zero_modulus)
    as [[e | all] s1] eqn:E1; [vm_compute in E1; discriminate |].
  destruct (ex_step ex_draws s1) as [[e | smp] s2] eqn:E2.
  { exfalso. pose proof E1 as Ev. vm_compute in Ev. injection Ev as _ <-.
    vm_compute in E2. discriminate E2. }
  pose proof (zero_modulus_raises_after_burn_in ex_quantum_force
                ex_clean_force ex_exp ex_sqrt [ex_draws; ex_draws]
                [ex_draws; ex_draws] ex_draws ex_zero_modulus s1 s2 all smp
                eq_refl eq_refl E1 E2) as H.
  exists s2. split_and!; [done | done | exact H |].
  pose proof E1 as Ev. vm_compute in Ev. injection Ev as _ <-.
  pose proof E2 as Ev. vm_compute in Ev. by injection Ev as _ <-.
Defined.

(** No batch is asked for: nothing is sampled. *)
Lemma iter_batches_degenerate_sizes_witness :
  iter_batches_epoch ex_wf ex_quantum_force ex_clean_force ex_exp ex_sqrt
    0 50 [ex_draws] [] ex_sampler
  = (inl ValueError, ex_sampler).
Proof.
  apply (iter_batches_degenerate_sizes ex_wf ex_quantum_force ex_clean_force
           ex_exp ex_sqrt 0 50 [ex_draws] [] ex_sampler).
  by right.
Defined.

(** Five rows in batches of two: four rows are used, one is left. *)
Lemma batches_use_each_row_once_witness :
  let perm := [4; 2; 0; 1; 3] in
  perm ≡ₚ seq 0 (length ex_pool)
  /\ concat (data_loader ex_pool 2 perm) ⊆+ ex_pool
  /\ length (concat (data_loader ex_pool 2 perm)) = 4.
Proof.
  intros perm.
  assert (perm ≡ₚ seq 0 (length ex_pool)) as Hp.
  { apply (bool_decide_unpack _). by vm_compute. }
  destruct (batches_use_each_row_once ex_pool 2 perm ltac:(lia) Hp)
    as (Hs & Hl & _).
  by split_and!.
Defined.

(** Two walkers for lithium hydride: four electrons each, three on
    lithium in the first walker and two in the second. *)
Lemma ex_good_draws : good_draws ex_lih 2 ex_samples ex_perms.
Proof.
  intros b Hb.
  assert (b = 0 \/ b = 1) as [-> | ->] by lia.
  - split.
    + intros _. split_and!; [| done | repeat constructor].
      apply NoDup_singleton.
    + apply (bool_decide_unpack _). by vm_compute.
  - split.
    + intros _. split_and!; [| done | repeat constructor].
      apply NoDup_singleton.
    + done.
Qed.

Lemma rand_from_mf_places_every_electron_witness :
  exists idxs row0 row1,
    mf_idxs ex_lih 2 ex_samples ex_perms = inr idxs
    /\ idxs !! 0 = Some row0 /\ idxs !! 1 = Some row1
    /\ length row0 = 4 /\ length row1 = 4
    /\ count_occ Nat.eq_dec row0 0 = 3
    /\ count_occ Nat.eq_dec row1 0 = 2.
Proof.
  destruct (rand_from_mf_places_every_electron ex_lih 2 ex_samples ex_perms)
    as (idxs & Hi & Hl & Hall).
  - lia.
  - repeat constructor; by vm_compute.
  - by vm_compute.
  - exact ex_good_draws.
  - destruct idxs as [| row0 [| row1 idxs]]; [done | done |].
    destruct (Hall 0 row0 eq_refl) as [Hl0 Hc0].
    destruct (Hall 1 row1 eq_refl) as [Hl1 Hc1].
    specialize (Hc0 0 2%Z eq_refl). specialize (Hc1 0 2%Z eq_refl).
    exists (row0 :: row1 :: idxs), row0, row1.
    change (n_electrons ex_lih) with 4%Z in *.
    rewrite bool_decide_true in Hc0
      by (split; [by vm_compute | by apply list_elem_of_singleton]).
    rewrite bool_decide_false in Hc1.
    2:{ intros [_ Hin]. by apply list_elem_of_singleton in Hin. }
    split_and!; [done | done | done | lia | lia | lia | lia].
Defined.

(** [from_mf] for two Langevin walkers on lithium hydride. *)
Lemma from_mf_builds_the_sampler_witness :
  exists rs0 s,
    from_mf ex_wf ex_quantum_force ex_clean_force Langevin ex_lih 2
      ex_samples ex_perms ex_noise (1 # 10)%Q None 3 None (Some (57 # 100)%Q)
      50 1 = inr (inr s)
    /\ rs s = rs0 /\ length rs0 = 2
    /\ Forall (fun w => length w = 12) rs0
    /\ _step s = 0%Z /\ _totalstep s = 0%Z.
Proof.
  destruct (from_mf_builds_the_sampler ex_wf ex_quantum_force ex_clean_force
              Langevin ex_lih 2 ex_samples ex_perms ex_noise (1 # 10)%Q None
              3%Z None (Some (57 # 100)%Q) 50%Z 1%Z)
    as (rs0 & Hr & Hl & Hw & Hf & Hs).
  - lia.
  - repeat constructor; by vm_compute.
  - by vm_compute.
  - exact ex_good_draws.
  - repeat constructor.
  - intros b _. reflexivity.
  - destruct (init ex_wf ex_quantum_force ex_clean_force Langevin rs0
                (1 # 10)%Q None 3%Z None (Some (57 # 100)%Q) 50%Z 1%Z)
      as [e | s] eqn:Ei.
    { exfalso. pose proof Hr as Hv. vm_compute in Hv. injection Hv as <-.
      vm_compute in Ei. discriminate Ei. }
    destruct (Hs s eq_refl) as (H1 & _ & _ & H4 & H5 & _).
    exists rs0, s. by split_and!.
Defined.

(** No walker is asked for. *)
Lemma rand_from_mf_raises_witness :
  rand_from_mf ex_lih 0 1 ex_samples ex_perms ex_noise = inl RuntimeError.
Proof.
  apply (rand_from_mf_raises ex_lih 0 1 ex_samples ex_perms ex_noise).
  by left.
Defined.

(** On the CPU the ages read through the first step's diagnostics are
    [0; 1; 1] when it returns and [0; 2; 0] after the second step. *)
Lemma info_age_follows_the_counters_witness :
  exists c smp1 c1 smp2 c2,
    ex_stored_init = inr c
    /\ stored_step ex_quantum_force ex_clean_force ex_exp ex_sqrt false
         ex_draws c = (inr smp1, c1)
    /\ stored_step ex_quantum_force ex_clean_force ex_exp ex_sqrt false
         ex_draws c1 = (inr smp2, c2)
    /\ c1.1 !! ref_age smp1 = Some (TInt [0; 1; 1]%Z)
    /\ c2.1 !! ref_age smp1 = Some (TInt [0; 2; 0]%Z)
    /\ ref_age smp2 = ref_age smp1.
Proof.
  destruct ex_stored_init as [e | [h0 o]] eqn:Ei;
    [vm_compute in Ei; discriminate |].
  unfold ex_stored_init in Ei.
  destruct (stored_init_extends ex_wf ex_quantum_force ex_clean_force
              ex_store 1%positive [[0]; [1]; [2]]%Q _ _ _ _ _ _ _ _ _ _
              eq_refl Ei) as (Hw & _).
  assert (l_ages (h0, o).2 <> l_rs (h0, o).2
          /\ l_ages (h0, o).2 <> l_log_psis (h0, o).2
          /\ l_ages (h0, o).2 <> l_sign_psis (h0, o).2
          /\ l_ages (h0, o).2 <> l_forces (h0, o).2) as Hd.
  { pose proof Ei as Ev. vm_compute in Ev. injection Ev as _ <-.
    by split_and!. }
  destruct (stored_step ex_quantum_force ex_clean_force ex_exp ex_sqrt false
              ex_draws (h0, o)) as [[e | smp1] c1] eqn:E1.
  { exfalso. pose proof Ei as Ev. vm_compute in Ev. injection Ev as <- <-.
    vm_compute in E1. discriminate E1. }
  destruct (stored_step ex_quantum_force ex_clean_force ex_exp ex_sqrt false
              ex_draws c1) as [[e | smp2] c2] eqn:E2.
  { exfalso. pose proof Ei as Ev. vm_compute in Ev. injection Ev as <- <-.
    pose proof E1 as Ev. vm_compute in Ev. injection Ev as _ <-.
    vm_compute in E2. discriminate E2. }
  destruct (info_age_follows_the_counters ex_quantum_force ex_clean_force
              ex_exp ex_sqrt false ex_draws ex_draws (h0, o) c1 c2 smp1 smp2
              Hw Hd E1 E2) as (H1 & H2 & H3).
  exists (h0, o), smp1, c1, smp2, c2.
  split_and!; [done | done | done | | | done].
  - rewrite H1. pose proof Ei as Ev. vm_compute in Ev.
    injection Ev as <- <-.
    pose proof E1 as Ev. vm_compute in Ev. by injection Ev as _ <-.
  - rewrite H2. pose proof Ei as Ev. vm_compute in Ev.
    injection Ev as <- <-.
    pose proof E1 as Ev. vm_compute in Ev. injection Ev as _ <-.
    pose proof E2 as Ev. vm_compute in Ev. by injection Ev as _ <-.
Defined.

(** ** Epochs, ages and the turn of the transition *)

(** X28.  Whatever the sampler, the sizes and the shuffle, an epoch of
    [iter_batches] that completes has drawn
    [n_steps = ceil(epoch_size * batch_size / walkers)] samples and
    yields [floor(n_steps * walkers / batch_size)] batches of exactly
    [batch_size] rows: never fewer than [epoch_size], and more whenever
    the rounded-up pool holds another full batch. *)
Theorem epoch_yields_every_full_batch
    (wf : positions -> list Q * list Q)
    (quantum_force : positions -> lu_info + (positions * (list Q * list Q)))
    (clean_force : positions -> positions -> Q -> positions)
    (exp sqrt : Q -> Q) (epoch_size batch_size : nat) (ds : list draws)
    (perm : list nat) (s s' : sampler) (batches : list (list row)) :
  let walkers := length (rs s) in
  let n_steps := ceil_div (epoch_size * batch_size) walkers in
  iter_batches_epoch wf quantum_force clean_force exp sqrt epoch_size
    batch_size ds perm s = (inr (Some batches), s') ->
  perm ≡ₚ seq 0 (walkers * n_steps) ->
  length batches = n_steps * walkers / batch_size
  /\ epoch_size <= length batches
  /\ Forall (fun b => length b = batch_size) batches
  /\ _step s' = 0%Z
  /\ _ages s' = map (fun _ => 0%Z) (log_psis s').
Proof.
  intros walkers n_steps H Hp.
  destruct (iter_batches_epoch_count _ _ _ _ _ _ _ _ _ _ _ _ H Hp)
    as (H1 & H2 & H3).
  apply iter_batches_epoch_inr in H as (pool & s1 & _ & Hr & _).
  apply restart_inr in Hr as (_ & _ & _ & _ & H4 & H5).
  by split_and!.
Qed.

(** One sample of a hundred walkers in batches of fifty: two batches
    where one was asked for. *)
Lemma epoch_yields_every_full_batch_witness :
  exists batches s',
    iter_batches_epoch ex_wf ex_quantum_force ex_clean_force ex_exp ex_sqrt
      1 50 (repeat ex_hundred_draws 5) (rev (seq 0 100)) ex_hundred
    = (inr (Some batches), s')
    /\ length batches = 1 * 100 / 50
    /\ 1 <= length batches
    /\ _step s' = 0%Z.
Proof.
  destruct (iter_batches_epoch ex_wf ex_quantum_force ex_clean_force ex_exp
              ex_sqrt 1 50 (repeat ex_hundred_draws 5) (rev (seq 0 100))
              ex_hundred) as [[e | [batches |]] s'] eqn:E;
    [vm_compute in E; discriminate | | vm_compute in E; discriminate].
  destruct (epoch_yields_every_full_batch _ _ _ _ _ _ _ _ _ _ _ _ E)
    as (H1 & H2 & _ & H4 & _).
  - apply (bool_decide_unpack _). by vm_compute.
  - exists batches, s'. split_and!; [done | | done | done].
    rewrite H1. by vm_compute.
Defined.

Section AgesMore.

Variable quantum_force :
  positions -> lu_info + (positions * (list Q * list Q)).
Variable clean_force : positions -> positions -> Q -> positions.
Variable exp : Q -> Q.
Variable sqrt : Q -> Q.

Local Abbreviation steps' := (run_steps quantum_force clean_force exp sqrt).

(** X29.  Ages count the steps since the last restart: when every age
    lies between 0 and the step counter, it still does after any number
    of completed steps, each of which advances the counter by one, for
    as long as the counter stays inside the int64 range. *)
Theorem ages_never_exceed_the_step_counter (ds : list draws) :
  forall (s s' : sampler) (all : list sample),
  steps' ds s = (inr all, s') ->
  (_step s + Z.of_nat (length ds) < 2 ^ 63)%Z ->
  Forall (fun a => (0 <= a <= _step s)%Z) (_ages s) ->
  _step s' = (_step s + Z.of_nat (length ds))%Z
  /\ Forall (fun a => (0 <= a <= _step s')%Z) (_ages s').
Proof.
  induction ds as [| d ds IH]; intros s s' all H Hlt Hb;
    cbn [run_steps] in H.
  - minv. split; [cbn; lia | done].
  - minv. cbn [length] in Hlt.
    pose proof (step_ages_bounded _ _ _ _ _ _ _ _ E ltac:(lia) Hb) as Hb1.
    apply step_counters in E as (_ & Hst & _).
    destruct (IH _ _ _ E0) as [Hs Ha]; [lia | done |].
    split; [cbn [length]; lia | done].
Qed.

End AgesMore.

(** Three steps after a restart: the counter is 3 and no age exceeds
    it. *)
Lemma ages_never_exceed_the_step_counter_witness :
  exists all s',
    run_steps ex_quantum_force ex_clean_force ex_exp ex_sqrt
      (repeat ex_draws 3) ex_thinned = (inr all, s')
    /\ _step s' = 3%Z
    /\ Forall (fun a => (0 <= a <= 3)%Z) (_ages s').
Proof.
  destruct (run_steps ex_quantum_force ex_clean_force ex_exp ex_sqrt
              (repeat ex_draws 3) ex_thinned) as [[e | all] s'] eqn:E;
    [vm_compute in E; discriminate |].
  destruct (ages_never_exceed_the_step_counter ex_quantum_force
              ex_clean_force ex_exp ex_sqrt _ _ _ _ E) as [Hs Ha].
  - by vm_compute.
  - repeat constructor; simpl; lia.
  - exists all, s'. split; [done |]. rewrite Hs in Ha. by split.
Defined.

Section TransitionTurn.

Variable pairwise_self_distance : positions -> list (list Q).
Variable local_energy : positions -> list Q.
Variable block_size : nat.

(** X30.  The turn that declares equilibrium yields the signal first
    and already accumulates: its local energies are the first values of
    the buffer, or, when that fills the buffer, of the block committed
    in the same turn. *)
Theorem transition_turn_accumulates (st st' : wf_state) (step : Z)
    (rs : positions) (ys : list wf_yield) :
  sample_wf_iter pairwise_self_distance local_energy block_size st step rs
    = inr (st', ys) ->
  calculating_energy st = false -> calculating_energy st' = true ->
  head ys = Some (Yield step None None)
  /\ if S (length (buffer st)) =? block_size
     then blocks st' = blocks st ++ [make_block (buffer st ++ [local_energy rs])]
          /\ buffer st' = [] /\ length ys = 2
     else blocks st' = blocks st
          /\ buffer st' = buffer st ++ [local_energy rs]
          /\ ys = [Yield step None None].
Proof.
  intros Hi Hc Hc'.
  apply iter_unfold in Hi as (_ & w & _ & _ & _ & Hflag & _ & Htrue & _).
  cbv zeta in *. rewrite Hc in *. cbn [negb andb orb] in *.
  rewrite Hc' in Hflag. rewrite <- Hflag in Htrue.
  destruct (Htrue Hc') as [-> ->]. rewrite accumulate_cases.
  cbn [buffer blocks buffer_rs].
  by destruct (S (length (buffer st)) =? block_size).
Qed.

End TransitionTurn.

(** Blocks of two: the pushed window starts with [1, 1] and ends with
    [5, 9], so the test passes; the turn signals, and its energy is
    buffered. *)
Lemma transition_turn_accumulates_witness :
  let psd := fun x : positions => x in
  let le := map Qsum in
  let st := WfState [] false [] []
              (Some [1; 1; 1; 1; 1; 1; 1; 1; 3; 5]%Q) in
  exists st' ys,
    sample_wf_iter psd le 2 st 7 [[9%Q]] = inr (st', ys)
    /\ calculating_energy st' = true
    /\ ys = [Yield 7 None None]
    /\ buffer st' = [[9%Q]].
Proof.
  intros psd le st.
  destruct (sample_wf_iter psd le 2 st 7 [[9%Q]]) as [e | [st' ys]] eqn:E;
    [vm_compute in E; discriminate |].
  assert (calculating_energy st' = true) as Hc.
  { pose proof E as Ev. vm_compute in Ev. by injection Ev as <- _. }
  destruct (transition_turn_accumulates psd le 2 st st' 7%Z [[9%Q]] ys E
              eq_refl Hc) as (_ & _ & Hb & Hy).
  exists st', ys. by split_and!.
Defined.

(** ** Storage: the age counters have a tensor of their own *)

Section ApartFacts.

Variable wf : positions -> list Q * list Q.
Variable quantum_force :
  positions -> lu_info + (positions * (list Q * list Q)).
Variable clean_force : positions -> positions -> Q -> positions.
Variable exp : Q -> Q.
Variable sqrt : Q -> Q.
Variable cuda : bool.

Local Abbreviation sstep :=
  (stored_step quantum_force clean_force exp sqrt cuda).
Local Abbreviation srestart := (stored_restart wf quantum_force clean_force).
Local Abbreviation spropagate :=
  (stored_propagate_all wf quantum_force clean_force sqrt).
Local Abbreviation srun :=
  (run_calls wf quantum_force clean_force exp sqrt cuda).

(** A step rebinds no attribute. *)
Lemma stored_step_locs d c r c' :
  sstep d c = (r, c') ->
  l_rs c'.2 = l_rs c.2 /\ l_log_psis c'.2 = l_log_psis c.2
  /\ l_sign_psis c'.2 = l_sign_psis c.2 /\ l_forces c'.2 = l_forces c.2
  /\ l_ages c'.2 = l_ages c.2.
Proof.
  destruct c as [h o]. unfold stored_step. cbn [fst snd].
  destruct (step _ _ _ _ d (state o)) as [[e | smp] s'].
  - by intros [= <- <-].
  - destruct (if cuda then _ else _) as [a h2].
    repeat alloc_step. by intros [= <- <-].
Qed.

Lemma stored_step_apart d c r c' :
  sstep d c = (r, c') -> ages_apart c.2 -> ages_apart c'.2.
Proof.
  intros (E1 & E2 & E3 & E4 & E5)%stored_step_locs. unfold ages_apart.
  by rewrite E1, E2, E3, E4, E5.
Qed.

(** The age counters a restart binds are a new tensor. *)
Lemma stored_restart_apart c r c' :
  srestart c = (r, c') -> well_stored c -> ages_apart c.2 ->
  ages_apart c'.2.
Proof.
  destruct c as [h o]. unfold stored_restart, well_stored, ages_apart.
  cbn [fst snd]. intros Hr Hw Ha. revert Hr.
  assert (forall x, x ∈ owned o -> x ∈ dom h) as Hw' by exact Hw.
  assert (l_rs o ∈ dom h) as Mrs by (apply Hw', elem_of_owned; auto).
  assert (l_forces o ∈ dom h) as Mf by (apply Hw', elem_of_owned; auto 10).
  destruct (restart _ _ _ (state o)) as [[e | u] s'] eqn:Es.
  - by intros [= <- <-].
  - destruct (kind s').
    + repeat alloc_step. intros [= <- <-].
      cbn [fst snd l_rs l_log_psis l_sign_psis l_forces l_ages].
      split_and!; intros ->.
      * apply Hfresh1. auto 10.
      * apply Hfresh1. auto 10.
      * apply Hfresh1. auto 10.
      * apply Hfresh1. auto 10.
    + repeat alloc_step. intros [= <- <-].
      cbn [fst snd l_rs l_log_psis l_sign_psis l_forces l_ages].
      split_and!; intros ->.
      * apply Hfresh2. auto 10.
      * apply Hfresh2. auto 10.
      * apply Hfresh2. auto 10.
      * apply Hfresh2. auto 10.
Qed.

Lemma stored_propagate_all_apart noise c r c' :
  spropagate noise c = (r, c') -> well_stored c -> ages_apart c.2 ->
  ages_apart c'.2.
Proof.
  destruct c as [h o]. unfold stored_propagate_all.
  alloc_step. intros Hr Hw Ha.
  assert (forall x, x ∈ owned o -> x ∈ dom h) as Hw' by exact Hw.
  assert (l_ages o ∈ dom h) as Mag by (apply Hw', elem_of_owned; auto 10).
  set (c1 := (h0, Stored _ l _ _ _ _)) in Hr.
  apply (stored_restart_apart _ _ _ Hr).
  - unfold well_stored. cbn [fst snd]. intros x Hx.
    apply elem_of_owned in Hx.
    cbn [l_rs l_log_psis l_sign_psis l_forces l_ages] in Hx.
    destruct Hx as [-> | [-> | [-> | [-> | ->]]]]; [done | ..];
      apply Hmono, Hw', elem_of_owned; auto 10.
  - destruct Ha as (A1 & A2 & A3 & A4). unfold ages_apart, c1.
    cbn [fst snd l_rs l_log_psis l_sign_psis l_forces l_ages] in *.
    split_and!; [| done | done | done].
    intros Heq. apply Hfresh. by rewrite <- Heq.
Qed.

Lemma run_calls_apart ops :
  forall c, well_stored c -> ages_apart c.2 -> ages_apart (srun ops c).2.
Proof.
  induction ops as [| op ops IH]; intros c Hw Ha;
    cbn [run_calls fold_left]; [done |].
  destruct (run_call_extends wf quantum_force clean_force exp sqrt cuda op c
              Hw) as [Hw1 _].
  apply IH; [done |].
  destruct op as [d | | noise]; cbn [run_call].
  - destruct (sstep d c) as [r c'] eqn:E. by apply (stored_step_apart _ _ _ _ E).
  - destruct (srestart c) as [r c'] eqn:E.
    by apply (stored_restart_apart _ _ _ E).
  - destruct (spropagate noise c) as [r c'] eqn:E.
    by apply (stored_propagate_all_apart _ _ _ _ E).
Qed.

(** The constructor binds the age counters to a tensor of their own. *)
Lemma stored_init_apart h rs0 k t ma nf thr ta nd nc h' o :
  stored_init wf quantum_force clean_force h rs0 k t ma nf thr ta nd nc
    = inr (h', o) ->
  ages_apart o.
Proof.
  unfold stored_init.
  destruct (h !! rs0) as [[x | |] |]; try done.
  destruct (init _ _ _ k x t ma nf thr ta nd nc) as [e | s]; [done |].
  repeat alloc_step. intros [= <- <-]. unfold ages_apart.
  cbn [fst snd l_rs l_log_psis l_sign_psis l_forces l_ages].
  split_and!; intros ->.
  - apply Hfresh3. auto 10.
  - apply Hfresh3. auto 10.
  - apply Hfresh3. auto 10.
  - apply Hfresh3. auto 10.
Qed.

End ApartFacts.

(** ** The storage claim *)

(** C10 (as the code has it).  The constructor binds [self.rs] to a
    clone: a tensor other than the caller's, with the caller's values.
    Whatever is called on the instance afterwards, every tensor that
    existed before the construction, the caller's among them, keeps its
    contents and is never one of the instance's tensors.  The positions,
    log-amplitudes and signs a step returns are new tensors holding the
    values of the instance at that moment; no later call writes to them
    or makes the instance refer to them.  The [age] array of the
    returned diagnostics holds the age counters of that moment.  On a
    CUDA device it is a new tensor as well, which no later call writes
    to.  On the CPU it is no new tensor but the instance's own tensor of
    age counters: the next completed step returns the same array, which
    then holds the age counters after that step. *)
Theorem sampler_owns_its_tensors
    (wf : positions -> list Q * list Q)
    (quantum_force : positions -> lu_info + (positions * (list Q * list Q)))
    (clean_force : positions -> positions -> Q -> positions)
    (exp sqrt : Q -> Q) (cuda : bool)
    (h : gmap loc tensor) (rs0 : loc) (x : positions) (k : variant)
    (t : Q) (ma : option Z) (nf : Z) (thr ta : option Q) (nd nc : Z)
    (h0 : gmap loc tensor) (o : stored) :
  h !! rs0 = Some (TPos x) ->
  stored_init wf quantum_force clean_force h rs0 k t ma nf thr ta nd nc
    = inr (h0, o) ->
  l_rs o <> rs0
  /\ h0 !! l_rs o = Some (TPos x)
  /\ forall ops1,
       let c1 := run_calls wf quantum_force clean_force exp sqrt cuda ops1
                   (h0, o) in
       (forall l, l ∈ dom h -> c1.1 !! l = h !! l /\ (l ∉ owned c1.2))
       /\ forall d smp c2,
            stored_step quantum_force clean_force exp sqrt cuda d c1
              = (inr smp, c2) ->
            (ref_rs smp ∉ dom c1.1) /\ (ref_log_psis smp ∉ dom c1.1)
            /\ (ref_sign_psis smp ∉ dom c1.1)
            /\ c2.1 !! ref_rs smp = Some (TPos (rs (state c2.2)))
            /\ c2.1 !! ref_log_psis smp = Some (TVec (log_psis (state c2.2)))
            /\ c2.1 !! ref_sign_psis smp
               = Some (TVec (sign_psis (state c2.2)))
            /\ (forall ops2,
                  let c3 := run_calls wf quantum_force clean_force exp sqrt
                              cuda ops2 c2 in
                  c3.1 !! ref_rs smp = c2.1 !! ref_rs smp
                  /\ c3.1 !! ref_log_psis smp = c2.1 !! ref_log_psis smp
                  /\ c3.1 !! ref_sign_psis smp = c2.1 !! ref_sign_psis smp
                  /\ (ref_rs smp ∉ owned c3.2)
                  /\ (ref_log_psis smp ∉ owned c3.2)
                  /\ (ref_sign_psis smp ∉ owned c3.2))
            /\ c2.1 !! ref_age smp = Some (TInt (_ages (state c2.2)))
            /\ if cuda
               then (ref_age smp ∉ dom c1.1)
                    /\ forall ops2,
                         let c3 := run_calls wf quantum_force clean_force exp
                                     sqrt cuda ops2 c2 in
                         c3.1 !! ref_age smp = c2.1 !! ref_age smp
                         /\ (ref_age smp ∉ owned c3.2)
               else ref_age smp = l_ages c1.2
                    /\ ref_age smp = l_ages c2.2
                    /\ forall d' smp' c3,
                         stored_step quantum_force clean_force exp sqrt cuda
                           d' c2 = (inr smp', c3) ->
                         ref_age smp' = ref_age smp
                         /\ c3.1 !! ref_age smp
                            = Some (TInt (_ages (state c3.2))).
Proof.
  intros Hx Hi.
  destruct (stored_init_extends _ _ _ _ _ _ _ _ _ _ _ _ _ _ _ _ Hx Hi)
    as (Hw0 & Hne & Hclone & Hd0 & Hold).
  pose proof (stored_init_apart _ _ _ _ _ _ _ _ _ _ _ _ _ _ _ Hi) as Ha0.
  split_and!; [done | done |].
  intros ops1 c1.
  destruct (run_calls_extends wf quantum_force clean_force exp sqrt cuda
              ops1 _ Hw0) as [Hw1 [Hd1 He1]].
  pose proof (run_calls_apart wf quantum_force clean_force exp sqrt cuda
                ops1 _ Hw0 Ha0) as Ha1.
  fold c1 in Hw1, Hd1, He1, Ha1. cbn [fst snd] in Hd1, He1.
  split.
  - intros l Hl. destruct (Hold l Hl) as [Hv Hn].
    destruct (He1 l (Hd0 l Hl) Hn) as [Hv1 Hn1].
    split; [by rewrite Hv1 | done].
  - intros d smp c2 Hs.
    destruct (stored_step_extends _ _ _ _ _ _ _ _ _ Hs Hw1)
      as (Hw2 & _ & Hsmp).
    destruct (Hsmp smp eq_refl)
      as (F1 & F2 & F3 & I1 & I2 & I3 & N1 & N2 & N3 & V1 & V2 & V3 & _).
    destruct Ha1 as (D1 & D2 & D3 & D4).
    destruct (stored_step_age _ _ _ _ _ _ _ _ _ Hs Hw1 D1 D2 D3 D4)
      as (E1 & E2 & E3 & E4 & E5 & _ & Hage & Hwhere).
    split_and!; try done.
    + intros ops2 c3.
      destruct (run_calls_extends wf quantum_force clean_force exp sqrt cuda
                  ops2 _ Hw2) as [_ [_ He3]].
      fold c3 in He3.
      destruct (He3 _ I1 N1) as [? ?].
      destruct (He3 _ I2 N2) as [? ?].
      destruct (He3 _ I3 N3) as [? ?].
      by split_and!.
    + destruct cuda.
      * destruct Hwhere as (G1 & G2 & G3). split; [done |].
        intros ops2 c3.
        destruct (run_calls_extends wf quantum_force clean_force exp sqrt
                    true ops2 _ Hw2) as [_ [_ He3]].
        fold c3 in He3. by destruct (He3 _ G2 G3).
      * split; [done |]. split; [by rewrite E5 |].
        intros d' smp' c3 Hs'.
        destruct (stored_step_age _ _ _ _ _ _ _ _ _ Hs' Hw2)
          as (_ & _ & _ & _ & _ & Hv & _ & Hsame);
          [by rewrite E5, E1 | by rewrite E5, E2 | by rewrite E5, E3
          | by rewrite E5, E4 |].
        rewrite Hsame, Hwhere, E5. split; [done |]. by rewrite <- E5.
Qed.

(** On the one-tensor store, on the CPU: after construction, a step, a
    restart, a move of all walkers and another step, the caller's tensor
    is as it was, and the positions, log-amplitudes and signs returned
    by one more step survive three further calls unchanged.  The ages
    read through the diagnostics of the first step after construction
    are [0; 1; 1] when it returns and [0; 2; 2] after the next step. *)
Lemma sampler_owns_its_tensors_witness :
  exists h0 o,
    ex_store !! 1%positive = Some (TPos [[0]; [1]; [2]]%Q)
    /\ ex_unit_stored_init = inr (h0, o)
    /\ l_rs o <> 1%positive
    /\ h0 !! l_rs o = Some (TPos [[0]; [1]; [2]]%Q)
    /\ (exists smp c2,
          let ops1 := [CallStep ex_unit_draws; CallRestart;
                       CallPropagateAll [[1]; [1]; [1]]%Q;
                       CallStep ex_unit_draws] in
          let c1 := run_calls ex_wf ex_quantum_force ex_clean_force ex_exp
                      ex_sqrt false ops1 (h0, o) in
          c1.1 !! 1%positive = Some (TPos [[0]; [1]; [2]]%Q)
          /\ stored_step ex_quantum_force ex_clean_force ex_exp ex_sqrt false
               ex_unit_draws c1 = (inr smp, c2)
          /\ let ops2 := [CallStep ex_unit_draws;
                          CallPropagateAll [[2]; [2]; [2]]%Q;
                          CallStep ex_unit_draws] in
             let c3 := run_calls ex_wf ex_quantum_force ex_clean_force ex_exp
                         ex_sqrt false ops2 c2 in
             c3.1 !! ref_rs smp = Some (TPos (rs (state c2.2)))
             /\ c3.1 !! ref_log_psis smp
                = Some (TVec (log_psis (state c2.2)))
             /\ c3.1 !! ref_sign_psis smp
                = Some (TVec (sign_psis (state c2.2))))
    /\ exists smp c2 smp' c3,
         stored_step ex_quantum_force ex_clean_force ex_exp ex_sqrt false
           ex_unit_draws (h0, o) = (inr smp, c2)
         /\ stored_step ex_quantum_force ex_clean_force ex_exp ex_sqrt false
              ex_unit_draws c2 = (inr smp', c3)
         /\ ref_age smp = l_ages o
         /\ c2.1 !! ref_age smp = Some (TInt [0; 1; 1]%Z)
         /\ ref_age smp' = ref_age smp
         /\ c3.1 !! ref_age smp = Some (TInt [0; 2; 2]%Z).
Proof.
  destruct ex_unit_stored_init as [e | [h0 o]] eqn:Ei;
    [vm_compute in Ei; discriminate |].
  unfold ex_unit_stored_init in Ei.
  destruct (sampler_owns_its_tensors ex_wf ex_quantum_force ex_clean_force
              ex_exp ex_sqrt false ex_store 1%positive [[0]; [1]; [2]]%Q
              Langevin 1%Q None 0%Z (Some 1%Q) None
              0%Z 0%Z h0 o eq_refl Ei) as (Hne & Hclone & Hcalls).
  exists h0, o.
  split; [reflexivity |]. split; [reflexivity |].
  split; [exact Hne |]. split; [exact Hclone |].
  split.
  - set (ops1 := [CallStep ex_unit_draws; CallRestart;
                  CallPropagateAll [[1]; [1]; [1]]%Q; CallStep ex_unit_draws]).
    destruct (Hcalls ops1) as [Hold Hstep]. cbv zeta in Hold, Hstep.
    set (c1 := run_calls _ _ _ _ _ _ ops1 (h0, o)) in *.
    destruct (stored_step ex_quantum_force ex_clean_force ex_exp ex_sqrt false
                ex_unit_draws c1) as [[e | smp] c2] eqn:Es.
    { exfalso. subst c1 ops1. pose proof Ei as Ev. vm_compute in Ev.
      injection Ev as <- <-. vm_compute in Es. discriminate Es. }
    exists smp, c2. cbv zeta. fold ops1. fold c1.
    destruct (Hold 1%positive) as [Hv _].
    { apply elem_of_dom. by exists (TPos [[0]; [1]; [2]]%Q). }
    split; [exact Hv |]. split; [exact Es |].
    destruct (Hstep ex_unit_draws smp c2 Es)
      as (_ & _ & _ & V1 & V2 & V3 & Hlater & _).
    destruct (Hlater [CallStep ex_unit_draws;
                      CallPropagateAll [[2]; [2]; [2]]%Q;
                      CallStep ex_unit_draws]) as (K1 & K2 & K3 & _).
    rewrite K1, K2, K3. by split_and!.
  - destruct (Hcalls []) as [_ Hstep]. cbv zeta in Hstep.
    cbn [run_calls fold_left] in Hstep.
    destruct (stored_step ex_quantum_force ex_clean_force ex_exp ex_sqrt false
                ex_unit_draws (h0, o)) as [[e | smp] c2] eqn:E1.
    { exfalso. pose proof Ei as Ev. vm_compute in Ev. injection Ev as <- <-.
      vm_compute in E1. discriminate E1. }
    destruct (stored_step ex_quantum_force ex_clean_force ex_exp ex_sqrt false
                ex_unit_draws c2) as [[e | smp'] c3] eqn:E2.
    { exfalso. pose proof Ei as Ev. vm_compute in Ev. injection Ev as <- <-.
      pose proof E1 as Ev. vm_compute in Ev. injection Ev as _ <-.
      vm_compute in E2. discriminate E2. }
    destruct (Hstep ex_unit_draws smp c2 E1)
      as (_ & _ & _ & _ & _ & _ & _ & Hage & Hown & _ & Hnext).
    destruct (Hnext ex_unit_draws smp' c3 E2) as [Hsame Hlater].
    exists smp, c2, smp', c3.
    split_and!; [done | done | done | | done |].
    + rewrite Hage. pose proof Ei as Ev. vm_compute in Ev.
      injection Ev as <- <-.
      pose proof E1 as Ev. vm_compute in Ev. by injection Ev as _ <-.
    + rewrite Hlater. pose proof Ei as Ev. vm_compute in Ev.
      injection Ev as <- <-.
      pose proof E1 as Ev. vm_compute in Ev. injection Ev as _ <-.
      pose proof E2 as Ev. vm_compute in Ev. by injection Ev as _ <-.
Defined.

(** C10 as stated fails.  What a step returns includes the diagnostics,
    and on the CPU their [age] array is the instance's tensor of age
    counters.  On the one-tensor store the ages read through the sample
    of the first step are [0; 1; 1] when it is returned and [0; 2; 2]
    once the next step has run, while the positions of that sample are
    as returned. *)
Lemma yielded_age_counterexample :
  exists c0 smp c1 smp' c2,
    ex_unit_stored_init = inr c0
    /\ stored_step ex_quantum_force ex_clean_force ex_exp ex_sqrt false
         ex_unit_draws c0 = (inr smp, c1)
    /\ stored_step ex_quantum_force ex_clean_force ex_exp ex_sqrt false
         ex_unit_draws c1 = (inr smp', c2)
    /\ ref_age smp = l_ages c1.2
    /\ ref_age smp ∈ owned c2.2
    /\ c1.1 !! ref_age smp = Some (TInt [0; 1; 1]%Z)
    /\ c2.1 !! ref_age smp = Some (TInt [0; 2; 2]%Z)
    /\ c2.1 !! ref_age smp <> c1.1 !! ref_age smp
    /\ c1.1 !! ref_rs smp = Some (TPos [[1]; [1]; [2]]%Q)
    /\ c2.1 !! ref_rs smp = c1.1 !! ref_rs smp.
Proof.
  eexists _, _, _, _, _.
  split; [vm_compute; reflexivity |].
  split; [vm_compute; reflexivity |].
  split; [vm_compute; reflexivity |].
  split; [vm_compute; reflexivity |].
  split; [apply elem_of_owned; vm_compute; auto 10 |].
  split; [vm_compute; reflexivity |].
  split; [vm_compute; reflexivity |].
  split; [vm_compute; discriminate |].
  split; vm_compute; reflexivity.
Qed.
